(** * Account-state reconciliation of the Antigravity dashboard backend

    A shallow embedding of [apps/backend/src/services/accountsFile.ts]
    (class [AccountsFileService]) and
    [apps/backend/src/services/quotaService.ts] (class [QuotaService]),
    with the properties of the status rule, the diff engine, the registry
    loader, the status clock and the quota poller; and of the parts around
    them: the accessors of the service, the request interceptor and the CSV
    cells of the server, and the notifications of the web store
    ([apps/web/src/stores/useDashboardStore.ts]).

    Conventions of the embedding.
    - A JavaScript number that holds an epoch, a duration, an index or a
      percentage is a [Z]; an optional field ([x?: T]) is an [option].  The
      reset time that the interceptor computes from the digits of an error
      message, which can be of any size, is a double, rounded where the
      code rounds it ([Interceptor.JsNumber]).
    - [Date.now()] is an argument ([now]) of the operation that reads it.
    - An [EventEmitter.emit] appends to the list of emitted events.
    - A JavaScript [Map] is an association list in insertion order
      ([JsMap]), because the order of iteration decides the order of the
      emitted diffs; the quota cache and the token cache, only read by key,
      are [gmap]s.
    - [JSON.stringify] of an account is the list of its tokens; the text of
      a token (a quoted string, a decimal number, a literal) determines the
      token and is not spelled out.
    - Model names are ASCII text; floating-point arithmetic and the parsing
      of dates are functions of a [Runtime] record, not interpreted.
    - The network is a function of the request, per polled account. *)

From stdpp Require Import gmap strings list fin_maps.
From Stdlib Require Import ZArith QArith Lia Sorted.

Local Open Scope string_scope.
Local Open Scope list_scope.
Local Open Scope Z_scope.

(** ** Shared types ([apps/backend/src/types/index.ts]) *)

Inductive AccountStatus :=
  | available
  | rate_limited_claude
  | rate_limited_gemini
  | rate_limited_all.

Inductive Family := Claude | Gemini.

Record RateLimitInfo := {
  resetTime : Z;
  timeUntilReset : Z;
  isExpired : bool
}.

Record RateLimits := {
  claude : option RateLimitInfo;
  gemini : option RateLimitInfo
}.

Record LocalAccount := {
  email : string;
  projectId : option string;
  managedProjectId : option string;
  addedAt : Z;
  lastUsed : Z;
  isActive : bool;
  activeForClaude : bool;
  activeForGemini : bool;
  status : AccountStatus;
  rateLimits : RateLimits
}.

(** The optional sub-object [rateLimitResetTimes] and [activeIndexByFamily]
    of the registry file have the same shape: a number per family. *)
Record ByFamily := {
  forClaude : option Z;
  forGemini : option Z
}.

Record RawAccountData := {
  raw_email : string;
  refreshToken : string;
  raw_projectId : option string;
  raw_managedProjectId : option string;
  raw_addedAt : Z;
  raw_lastUsed : Z;
  rateLimitResetTimes : option ByFamily
}.

Record RawAccountsFile := {
  version : Z;
  accounts : list RawAccountData;
  activeIndex : Z;
  activeIndexByFamily : option ByFamily
}.

Inductive DiffOp := op_add | op_update | op_remove.

Record AccountDiff := {
  op : DiffOp;
  diff_email : string;
  changes : option LocalAccount;
  account : option LocalAccount
}.

#[global] Instance AccountStatus_eq_dec : EqDecision AccountStatus.
Proof. solve_decision. Defined.
#[global] Instance Family_eq_dec : EqDecision Family.
Proof. solve_decision. Defined.
#[global] Instance RateLimitInfo_eq_dec : EqDecision RateLimitInfo.
Proof. solve_decision. Defined.
#[global] Instance RateLimits_eq_dec : EqDecision RateLimits.
Proof. solve_decision. Defined.
#[global] Instance LocalAccount_eq_dec : EqDecision LocalAccount.
Proof. solve_decision. Defined.
#[global] Instance DiffOp_eq_dec : EqDecision DiffOp.
Proof. solve_decision. Defined.
#[global] Instance AccountDiff_eq_dec : EqDecision AccountDiff.
Proof. solve_decision. Defined.

(** ** The status rule and the builder *)

(** [info && !info.isExpired]: an absent info is falsy. *)
Definition limited (info : option RateLimitInfo) : bool :=
  match info with
  | Some r => negb (isExpired r)
  | None => false
  end.

Definition calculateAccountStatus (account : LocalAccount) : AccountStatus :=
  let claudeLimited := limited (claude (rateLimits account)) in
  let geminiLimited := limited (gemini (rateLimits account)) in
  if claudeLimited && geminiLimited then rate_limited_all
  else if claudeLimited then rate_limited_claude
  else if geminiLimited then rate_limited_gemini
  else available.

(** [raw.rateLimitResetTimes?.claude]: optional chaining. *)
Definition chain (o : option ByFamily) (f : ByFamily → option Z) : option Z :=
  match o with
  | Some t => f t
  | None => None
  end.

(** Truthiness of an optional number: [undefined] and [0] are falsy. *)
Definition truthy (o : option Z) : option Z :=
  match o with
  | Some t => if t =? 0 then None else Some t
  | None => None
  end.

(** [t ? { resetTime: t, timeUntilReset: max(0, t - now), isExpired: t <= now }
       : undefined] *)
Definition buildRateLimit (now : Z) (t : option Z) : option RateLimitInfo :=
  match truthy t with
  | Some t =>
      Some {| resetTime := t;
              timeUntilReset := Z.max 0 (t - now);
              isExpired := t <=? now |}
  | None => None
  end.

(** [a ?? b] *)
Definition nullish (a : option Z) (b : Z) : Z := default b a.

Definition setStatus (account : LocalAccount) (s : AccountStatus) : LocalAccount :=
  {| email := email account;
     projectId := projectId account;
     managedProjectId := managedProjectId account;
     addedAt := addedAt account;
     lastUsed := lastUsed account;
     isActive := isActive account;
     activeForClaude := activeForClaude account;
     activeForGemini := activeForGemini account;
     status := s;
     rateLimits := rateLimits account |}.

(** The callback of [data.accounts.map((raw, index) => ...)]. *)
Definition processAccount (now : Z) (data : RawAccountsFile)
    (index : nat) (raw : RawAccountData) : LocalAccount :=
  let claudeResetTime := chain (rateLimitResetTimes raw) forClaude in
  let geminiResetTime := chain (rateLimitResetTimes raw) forGemini in
  let claudeRateLimit := buildRateLimit now claudeResetTime in
  let geminiRateLimit := buildRateLimit now geminiResetTime in
  let account :=
    {| email := raw_email raw;
       projectId := raw_projectId raw;
       managedProjectId := raw_managedProjectId raw;
       addedAt := raw_addedAt raw;
       lastUsed := raw_lastUsed raw;
       isActive := bool_decide (Z.of_nat index = activeIndex data);
       activeForClaude :=
         bool_decide (Z.of_nat index =
           nullish (chain (activeIndexByFamily data) forClaude) (activeIndex data));
       activeForGemini :=
         bool_decide (Z.of_nat index =
           nullish (chain (activeIndexByFamily data) forGemini) (activeIndex data));
       status := available;
       rateLimits := {| claude := claudeRateLimit; gemini := geminiRateLimit |} |} in
  setStatus account (calculateAccountStatus account).

Definition processAccounts (now : Z) (data : RawAccountsFile) : list LocalAccount :=
  imap (processAccount now data) (accounts data).

(** ** The status clock ([updateRateLimitTimers]) *)

(** What the service emits ([this.emit(name, payload)]).  A payload that is
    the account array is recorded with the value it has when emitted. *)
Inductive Event :=
  | accounts_loaded (payload : list LocalAccount)
  | accounts_changed (diffs : list AccountDiff)
  | rate_limits_updated (payload : list LocalAccount)
  | rate_limit_cleared (who : string) (family : Family).

#[global] Instance Event_eq_dec : EqDecision Event.
Proof. solve_decision. Defined.

(** One family's block of the loop body: the info after the in-place update,
    and the test [!wasExpired && info.isExpired]. *)
Definition updateTimer (now : Z) (info : RateLimitInfo) : RateLimitInfo * bool :=
  let newTimeUntilReset := Z.max 0 (resetTime info - now) in
  let wasExpired := isExpired info in
  let info' := {| resetTime := resetTime info;
                  timeUntilReset := newTimeUntilReset;
                  isExpired := newTimeUntilReset =? 0 |} in
  (info', negb wasExpired && isExpired info').

(** [if (account.rateLimits.f) { ... }] for one family [f]: the new value of
    the field, the events emitted and whether [hasChanges] was set. *)
Definition updateFamily (now : Z) (who : string) (family : Family)
    (field : option RateLimitInfo) : option RateLimitInfo * list Event * bool :=
  match field with
  | Some info =>
      let '(info', cleared) := updateTimer now info in
      (Some info', if cleared then [rate_limit_cleared who family] else [], cleared)
  | None => (None, [], false)
  end.

(** The body of [for (const account of this.processedAccounts)]. *)
Definition updateAccount (now : Z) (account : LocalAccount)
    : LocalAccount * list Event * bool :=
  let '(c, evc, chc) := updateFamily now (email account) Claude (claude (rateLimits account)) in
  let '(g, evg, chg) := updateFamily now (email account) Gemini (gemini (rateLimits account)) in
  let account1 :=
    {| email := email account;
       projectId := projectId account;
       managedProjectId := managedProjectId account;
       addedAt := addedAt account;
       lastUsed := lastUsed account;
       isActive := isActive account;
       activeForClaude := activeForClaude account;
       activeForGemini := activeForGemini account;
       status := status account;
       rateLimits := {| claude := c; gemini := g |} |} in
  let newStatus := calculateAccountStatus account1 in
  let statusChanged := bool_decide (newStatus ≠ status account1) in
  (if statusChanged then setStatus account1 newStatus else account1,
   evc ++ evg,
   chc || chg || statusChanged).

(** The loop, threading the accounts already visited, the events emitted so
    far and [hasChanges]. *)
Definition updateAccounts (now : Z) (accs : list LocalAccount)
    : list LocalAccount * list Event * bool :=
  foldl (λ '(done, evs, hasChanges) account,
           let '(account', evs', changed) := updateAccount now account in
           (done ++ [account'], evs ++ evs', hasChanges || changed))
        ([], [], false) accs.

(** ** The diff engine ([calculateDiffs]) *)

(** [JSON.stringify] of a [LocalAccount], up to the text of each token: the
    keys in creation order, a key whose value is [undefined] left out. *)
Inductive JsonToken :=
  | TBegin
  | TEnd
  | TKey (k : string)
  | TStr (s : string)
  | TNum (n : Z)
  | TBool (b : bool).

#[global] Instance JsonToken_eq_dec : EqDecision JsonToken.
Proof. solve_decision. Defined.

Definition statusName (s : AccountStatus) : string :=
  match s with
  | available => "available"
  | rate_limited_claude => "rate_limited_claude"
  | rate_limited_gemini => "rate_limited_gemini"
  | rate_limited_all => "rate_limited_all"
  end.

Definition optionalField {A} (k : string) (f : A → list JsonToken) (o : option A)
    : list JsonToken :=
  match o with
  | Some v => TKey k :: f v
  | None => []
  end.

Definition stringifyInfo (info : RateLimitInfo) : list JsonToken :=
  [TBegin;
   TKey "resetTime"; TNum (resetTime info);
   TKey "timeUntilReset"; TNum (timeUntilReset info);
   TKey "isExpired"; TBool (isExpired info);
   TEnd].

Definition stringify (a : LocalAccount) : list JsonToken :=
  [TBegin; TKey "email"; TStr (email a)]
  ++ optionalField "projectId" (λ s, [TStr s]) (projectId a)
  ++ optionalField "managedProjectId" (λ s, [TStr s]) (managedProjectId a)
  ++ [TKey "addedAt"; TNum (addedAt a);
      TKey "lastUsed"; TNum (lastUsed a);
      TKey "isActive"; TBool (isActive a);
      TKey "activeForClaude"; TBool (activeForClaude a);
      TKey "activeForGemini"; TBool (activeForGemini a);
      TKey "status"; TStr (statusName (status a));
      TKey "rateLimits"; TBegin]
  ++ optionalField "claude" stringifyInfo (claude (rateLimits a))
  ++ optionalField "gemini" stringifyInfo (gemini (rateLimits a))
  ++ [TEnd; TEnd].

(** A JavaScript [Map] with string keys: entries in insertion order; setting
    a key that is present replaces its value and keeps its place. *)
Definition JsMap (V : Type) := list (string * V).

Fixpoint jsmap_set {V} (k : string) (v : V) (m : JsMap V) : JsMap V :=
  match m with
  | [] => [(k, v)]
  | (k', v') :: m' =>
      if decide (k = k') then (k, v) :: m' else (k', v') :: jsmap_set k v m'
  end.

Fixpoint jsmap_get {V} (k : string) (m : JsMap V) : option V :=
  match m with
  | [] => None
  | (k', v') :: m' => if decide (k = k') then Some v' else jsmap_get k m'
  end.

Definition jsmap_has {V} (k : string) (m : JsMap V) : bool :=
  bool_decide (is_Some (jsmap_get k m)).

(** [new Map(entries)] *)
Definition jsmap_new {V} (entries : list (string * V)) : JsMap V :=
  foldl (λ m kv, jsmap_set kv.1 kv.2 m) [] entries.

(** [new Map(accounts.map(a => [a.email, a]))] *)
Definition byEmail (accs : list LocalAccount) : JsMap LocalAccount :=
  jsmap_new (fmap (λ a, (email a, a)) accs).

Definition calculateDiffs (previous current : list LocalAccount) : list AccountDiff :=
  let prevMap := byEmail previous in
  let currMap := byEmail current in
  let diffs :=
    foldl (λ diffs '(email, account),
             match jsmap_get email prevMap with
             | None =>
                 diffs ++ [{| op := op_add; diff_email := email;
                              changes := None; account := Some account |}]
             | Some prev =>
                 if decide (stringify prev ≠ stringify account)
                 then diffs ++ [{| op := op_update; diff_email := email;
                                   changes := Some account; account := None |}]
                 else diffs
             end)
          [] currMap in
  foldl (λ diffs '(email, _),
           if jsmap_has email currMap then diffs
           else diffs ++ [{| op := op_remove; diff_email := email;
                             changes := None; account := None |}])
        diffs prevMap.

(** ** The service: state, exceptions and emitted events *)

Record Service := {
  lastData : option RawAccountsFile;
  processedAccounts : list LocalAccount
}.

(** How a block of statements ends: normally with a value, or by a thrown
    exception.  A throw keeps the state reached and the events emitted
    before it: JavaScript rolls nothing back. *)
Inductive Completion (A : Type) :=
  | Normal (a : A)
  | Thrown (error : string).
Arguments Normal {A} a.
Arguments Thrown {A} error.

Definition M (A : Type) : Type := Service → Completion A * Service * list Event.

Definition ret {A} (a : A) : M A := λ s, (Normal a, s, []).

Definition bind {A B} (m : M A) (k : A → M B) : M B :=
  λ s, match m s with
       | (Normal a, s1, ev1) =>
           let '(r, s2, ev2) := k a s1 in (r, s2, ev1 ++ ev2)
       | (Thrown e, s1, ev1) => (Thrown e, s1, ev1)
       end.

Notation "'let*' x ':=' m 'in' k" := (bind m (λ x, k))
  (at level 10, x name, m at level 100, k at level 200).
Notation "m '>>' k" := (bind m (λ _, k))
  (at level 100, k at level 200, right associativity).

Definition throw {A} (e : string) : M A := λ s, (Thrown e, s, []).

(** [try { body } catch (error) { handler }] *)
Definition try_catch {A} (body : M A) (handler : string → M A) : M A :=
  λ s, match body s with
       | (Normal a, s1, ev1) => (Normal a, s1, ev1)
       | (Thrown e, s1, ev1) =>
           let '(r, s2, ev2) := handler e s1 in (r, s2, ev1 ++ ev2)
       end.

Definition emit (e : Event) : M unit := λ s, (Normal (), s, [e]).

Definition getProcessedAccounts : M (list LocalAccount) :=
  λ s, (Normal (processedAccounts s), s, []).

Definition setProcessedAccounts (accs : list LocalAccount) : M unit :=
  λ s, (Normal (), {| lastData := lastData s; processedAccounts := accs |}, []).

Definition setLastData (d : option RawAccountsFile) : M unit :=
  λ s, (Normal (), {| lastData := d; processedAccounts := processedAccounts s |}, []).

(** [JSON.parse(content)] with the library function [parse]: [None] stands
    for the [SyntaxError] it throws. *)
Definition JSON_parse (parse : string → option RawAccountsFile) (content : string)
    : M RawAccountsFile :=
  match parse content with
  | Some data => ret data
  | None => throw "SyntaxError"
  end.

(** [loadAccountsFile], reading the registry file as [file]: [None] when
    [existsSync] is false, else the text that [readFileSync] returns. *)
Definition loadAccountsFile (parse : string → option RawAccountsFile)
    (now : Z) (file : option string) : M unit :=
  try_catch
    (match file with
     | None =>
         setProcessedAccounts [] >>
         setLastData None >>
         emit (accounts_loaded [])
     | Some content =>
         let* data := JSON_parse parse content in
         let* previousAccounts := getProcessedAccounts in
         setProcessedAccounts (processAccounts now data) >>
         setLastData (Some data) >>
         let* current := getProcessedAccounts in
         let diffs := calculateDiffs previousAccounts current in
         (if decide (0 < length diffs)%nat
          then emit (accounts_changed diffs) else ret ()) >>
         emit (accounts_loaded current)
     end)
    (λ error, ret ()).

Definition updateRateLimitTimers (now : Z) : M bool :=
  let* accs := getProcessedAccounts in
  let '(accs', evs, hasChanges) := updateAccounts now accs in
  (λ s, (Normal hasChanges,
         {| lastData := lastData s; processedAccounts := accs' |}, evs)).

(** The callback that [startRateLimitUpdater] installs with [setInterval]. *)
Definition rateLimitUpdater (now : Z) : M unit :=
  let* updated := updateRateLimitTimers now in
  if updated
  then let* accs := getProcessedAccounts in emit (rate_limits_updated accs)
  else ret ().

(** The state and the events after running [m] from [s]. *)
Definition stateAfter {A} (m : M A) (s : Service) : Service := (m s).1.2.
Definition eventsOf {A} (m : M A) (s : Service) : list Event := (m s).2.

(** A run of the clock: the callback fires once per element of [nows], in
    order, each time reading that element as [Date.now()]. *)
Fixpoint runTicks (nows : list Z) (s : Service) : Service * list Event :=
  match nows with
  | [] => (s, [])
  | now :: rest =>
      let '(s', evs) := runTicks rest (stateAfter (rateLimitUpdater now) s) in
      (s', eventsOf (rateLimitUpdater now) s ++ evs)
  end.

(** ** The quota poller ([quotaService.ts]) *)

Module Quota.

Record ModelQuotaInfo := {
  modelName : string;
  displayName : option string;
  remainingFraction : Q;
  remainingPercent : Z;
  resetTime : option string;
  resetTimeMs : option Z
}.

Record AccountQuota := {
  email : string;
  projectId : option string;
  lastFetched : Z;
  fetchError : option string;
  models : list ModelQuotaInfo;
  claudeModels : list ModelQuotaInfo;
  geminiModels : list ModelQuotaInfo;
  claudeQuotaPercent : option Z;
  geminiQuotaPercent : option Z;
  claudeResetTime : option Z;
  geminiResetTime : option Z
}.

Record QuotaCache := {
  accounts : gmap string AccountQuota;
  lastFullFetch : Z
}.

Record TokenCache := {
  accessToken : string;
  expiresAt : Z
}.

Record TokenRefreshResponse := {
  access_token : string;
  expires_in : option Z
}.

Record QuotaInfo := {
  qi_remainingFraction : option Q;
  qi_resetTime : option string
}.

Record ModelData := {
  md_displayName : option string;
  quotaInfo : option QuotaInfo
}.

(** [models?: Record<string, ...>], its entries in the order of
    [Object.entries]. *)
Record FetchModelsResponse := {
  resp_models : option (list (string * ModelData))
}.

Record QuotaService := {
  cache : QuotaCache;
  tokenCache : gmap string TokenCache
}.

(** An element of the argument of [fetchAllQuotas]. *)
Record PollAccount := {
  acc_email : string;
  acc_refreshToken : string;
  acc_projectId : option string
}.

(** Library functions on floating-point numbers and dates, not interpreted:
    [Math.round(f * 100)] and [new Date(s).getTime()]. *)
Record Runtime := {
  percentOf : Q → Z;
  getTime : string → Z
}.

(** The outcome of one [fetch]: a body when [response.ok], else a failure
    (a status that is not ok, a timeout or a transport error). *)
Inductive Http (A : Type) :=
  | Ok (body : A)
  | Failed.
Arguments Ok {A} body.
Arguments Failed {A}.

(** What the poll of one account meets: the clock and the two remote
    services.  [Date.now()] is sampled once per account. *)
Record World := {
  clock : Z;
  tokenEndpoint : string → Http TokenRefreshResponse;
  modelsEndpoint : string → string → option string → Http FetchModelsResponse
}.

Definition ANTIGRAVITY_ENDPOINTS : list string :=
  ["https://cloudcode-pa.googleapis.com";
   "https://daily-cloudcode-pa.sandbox.googleapis.com"].

(** Truthiness of an optional string: [undefined], [null] and the empty
    string are falsy. *)
Definition truthyString (o : option string) : option string :=
  match o with
  | Some s => if decide (s = "") then None else Some s
  | None => None
  end.

Definition refreshAccessToken (w : World) (refreshToken : string)
    (tc : gmap string TokenCache) : option string * gmap string TokenCache :=
  let exchange :=
    match tokenEndpoint w refreshToken with
    | Failed => (None, tc)
    | Ok data =>
        let accessToken := access_token data in
        let expiresIn := default 3600 (truthy (expires_in data)) in
        (Some accessToken,
         <[refreshToken := {| accessToken := accessToken;
                              expiresAt := clock w + expiresIn * 1000 |}]> tc)
    end in
  match tc !! refreshToken with
  | Some cached =>
      if expiresAt cached >? clock w + 60000
      then (Some (accessToken cached), tc)
      else exchange
  | None => exchange
  end.

(** The loop over the endpoints: the first response that is ok. *)
Fixpoint tryEndpoints (w : World) (accessToken : string) (project : option string)
    (endpoints : list string) : option FetchModelsResponse :=
  match endpoints with
  | [] => None
  | endpoint :: rest =>
      match modelsEndpoint w endpoint accessToken project with
      | Ok data => Some data
      | Failed => tryEndpoints w accessToken project rest
      end
  end.

Definition fetchAvailableModels (w : World) (accessToken : string)
    (projectId : option string) : option FetchModelsResponse :=
  tryEndpoints w accessToken (truthyString projectId) ANTIGRAVITY_ENDPOINTS.

Definition parseModel (rt : Runtime) (entry : string * ModelData)
    : option ModelQuotaInfo :=
  let '(modelName, modelData) := entry in
  match quotaInfo modelData with
  | None => None
  | Some quotaInfo =>
      let remainingFraction := default 1%Q (qi_remainingFraction quotaInfo) in
      let resetTime := truthyString (qi_resetTime quotaInfo) in
      Some {| modelName := modelName;
              displayName :=
                Some (default modelName (truthyString (md_displayName modelData)));
              remainingFraction := remainingFraction;
              remainingPercent := percentOf rt remainingFraction;
              resetTime := resetTime;
              resetTimeMs := getTime rt <$> resetTime |}
  end.

Definition parseQuotaResponse (rt : Runtime) (data : FetchModelsResponse)
    : list ModelQuotaInfo :=
  match resp_models data with
  | None => []
  | Some entries => omap (parseModel rt) entries
  end.

(** [s.toLowerCase()] and [s.includes(sub)], on ASCII text. *)
Definition lowerAscii (c : Ascii.ascii) : Ascii.ascii :=
  let n := Ascii.nat_of_ascii c in
  if (65 <=? n)%nat && (n <=? 90)%nat then Ascii.ascii_of_nat (n + 32) else c.

Fixpoint toLowerCase (s : string) : string :=
  match s with
  | EmptyString => EmptyString
  | String c s' => String (lowerAscii c) (toLowerCase s')
  end.

Fixpoint includes (s sub : string) : bool :=
  String.prefix sub s ||
  match s with
  | EmptyString => false
  | String _ s' => includes s' sub
  end.

Definition isClaudeModel (m : ModelQuotaInfo) : bool :=
  includes (toLowerCase (modelName m)) "claude"
  || includes (toLowerCase (modelName m)) "anthropic".

Definition isGeminiModel (m : ModelQuotaInfo) : bool :=
  includes (toLowerCase (modelName m)) "gemini".

(** [ms.reduce((min, m) => m.remainingPercent < min.remainingPercent ? m : min)]
    on a list with first element [first]. *)
Definition reduceMin (first : ModelQuotaInfo) (rest : list ModelQuotaInfo)
    : ModelQuotaInfo :=
  foldl (λ min m, if remainingPercent m <? remainingPercent min then m else min)
        first rest.

(** [if (ms.length > 0) { percent = min.remainingPercent; reset = min.resetTimeMs }],
    both [null] before. *)
Definition aggregate (ms : list ModelQuotaInfo) : option Z * option Z :=
  match ms with
  | [] => (None, None)
  | first :: rest =>
      let min := reduceMin first rest in
      (Some (remainingPercent min), resetTimeMs min)
  end.

Definition emptyResult (w : World) (email : string) (projectId : option string)
    (error : option string) : AccountQuota :=
  {| email := email; projectId := projectId; lastFetched := clock w;
     fetchError := error;
     models := []; claudeModels := []; geminiModels := [];
     claudeQuotaPercent := None; geminiQuotaPercent := None;
     claudeResetTime := None; geminiResetTime := None |}.

Definition fetchQuotaForAccount (rt : Runtime) (w : World)
    (email refreshToken : string) (projectId : option string)
    (s : QuotaService) : AccountQuota * QuotaService :=
  let '(accessToken, tc) := refreshAccessToken w refreshToken (tokenCache s) in
  let s1 := {| cache := cache s; tokenCache := tc |} in
  match truthyString accessToken with
  | None =>
      (emptyResult w email projectId (Some "Failed to refresh access token"), s1)
  | Some accessToken =>
      match fetchAvailableModels w accessToken projectId with
      | None =>
          (emptyResult w email projectId (Some "Failed to fetch models from API"), s1)
      | Some data =>
          let models := parseQuotaResponse rt data in
          let claudeModels := filter (λ m, Is_true (isClaudeModel m)) models in
          let geminiModels := filter (λ m, Is_true (isGeminiModel m)) models in
          let result :=
            {| email := email; projectId := projectId; lastFetched := clock w;
               fetchError := None;
               models := models;
               claudeModels := claudeModels;
               geminiModels := geminiModels;
               claudeQuotaPercent := (aggregate claudeModels).1;
               geminiQuotaPercent := (aggregate geminiModels).1;
               claudeResetTime := (aggregate claudeModels).2;
               geminiResetTime := (aggregate geminiModels).2 |} in
          (result,
           {| cache := {| accounts := <[email := result]> (accounts (cache s1));
                          lastFullFetch := lastFullFetch (cache s1) |};
              tokenCache := tokenCache s1 |})
      end
  end.

(** The loop of [fetchAllQuotas] from the account at position [i]: the
    account at position [j] is polled in the world [worlds j], and its result
    is pushed on [results].  [fetchQuotaForAccount] catches the failures of
    the network itself and throws nothing on a well-typed response, so the
    [catch] block of the loop is not reached; the pause between two accounts
    is not modelled.  No event is emitted inside the loop. *)
Fixpoint pollFrom (rt : Runtime) (worlds : nat → World) (i : nat)
    (accs : list PollAccount) (s : QuotaService) : list AccountQuota * QuotaService :=
  match accs with
  | [] => ([], s)
  | account :: rest =>
      let '(quota, s1) :=
        fetchQuotaForAccount rt (worlds i) (acc_email account)
          (acc_refreshToken account) (acc_projectId account) s in
      let '(results, s2) := pollFrom rt worlds (S i) rest s1 in
      (quota :: results, s2)
  end.

(** [fetchAllQuotas]: the results (also the payload of the one
    [quotas_updated] event) and the service afterwards; [finished] is the
    clock when the loop has ended. *)
Definition fetchAllQuotas (rt : Runtime) (worlds : nat → World) (finished : Z)
    (accs : list PollAccount) (s : QuotaService) : list AccountQuota * QuotaService :=
  let '(results, s') := pollFrom rt worlds 0 accs s in
  (results,
   {| cache := {| accounts := accounts (cache s'); lastFullFetch := finished |};
      tokenCache := tokenCache s' |}).

Definition getCachedQuota (s : QuotaService) (email : string) : option AccountQuota :=
  accounts (cache s) !! email.


(** *** Definitions used to state the properties of the poller *)

Definition familyModels (f : Family) (q : AccountQuota) : list ModelQuotaInfo :=
  match f with
  | Claude => claudeModels q
  | Gemini => geminiModels q
  end.

Definition familyPercent (f : Family) (q : AccountQuota) : option Z :=
  match f with
  | Claude => claudeQuotaPercent q
  | Gemini => geminiQuotaPercent q
  end.

Definition familyReset (f : Family) (q : AccountQuota) : option Z :=
  match f with
  | Claude => claudeResetTime q
  | Gemini => geminiResetTime q
  end.

(** [m] is the first model of [ms] with the least remaining percent: the
    models before it have strictly more, those after it at least as much. *)
Definition firstMinimum (m : ModelQuotaInfo) (ms : list ModelQuotaInfo) : Prop :=
  ∃ before after,
    ms = before ++ m :: after
    ∧ Forall (λ m', remainingPercent m < remainingPercent m') before
    ∧ Forall (λ m', remainingPercent m ≤ remainingPercent m') after.

(** The service when the loop of a cycle reaches position [i]. *)
Definition serviceBefore (rt : Runtime) (worlds : nat → World)
    (accs : list PollAccount) (s : QuotaService) (i : nat) : QuotaService :=
  (pollFrom rt worlds 0 (take i accs) s).2.

(** The two ways a poll fails: the token stage yields no access token; or it
    yields one and every endpoint fails. *)
Definition tokenFails (w : World) (account : PollAccount) (s : QuotaService) : Prop :=
  truthyString (refreshAccessToken w (acc_refreshToken account) (tokenCache s)).1 = None.

Definition endpointsFail (w : World) (account : PollAccount) (s : QuotaService) : Prop :=
  ∃ token,
    truthyString (refreshAccessToken w (acc_refreshToken account) (tokenCache s)).1
      = Some token
    ∧ ∀ endpoint, endpoint ∈ ANTIGRAVITY_ENDPOINTS →
        modelsEndpoint w endpoint token (truthyString (acc_projectId account)) = Failed.

Definition pollFails (w : World) (account : PollAccount) (s : QuotaService) : Prop :=
  tokenFails w account s ∨ endpointsFail w account s.

(** Sample data: a runtime that reads a fraction as a whole percentage, a
    provider with two claude models and one gemini model, a world where the
    provider answers and a world where the token endpoint is down. *)
Definition sampleRuntime : Runtime :=
  {| percentOf := λ q, (Qnum (q * 100) / Z.pos (Qden (q * 100)))%Z;
     getTime := λ s, Z.of_nat (String.length s) |}.

Definition sampleModel (fraction : Q) (reset : string) : ModelData :=
  {| md_displayName := None;
     quotaInfo := Some {| qi_remainingFraction := Some fraction;
                          qi_resetTime := Some reset |} |}.

Definition sampleResponse : FetchModelsResponse :=
  {| resp_models :=
       Some [("claude-sonnet", sampleModel (7 # 10) "2026-01-01T00:00:00Z");
             ("Claude-Opus", sampleModel (4 # 10) "2026-01-02T00");
             ("anthropic-haiku", sampleModel (55 # 100) "2026-01-04");
             ("gemini-pro", sampleModel (9 # 10) "2026-01-03T00:00Z")] |}.

Definition sampleWorld : World :=
  {| clock := 1000;
     tokenEndpoint := λ _, Ok {| access_token := "token"; expires_in := None |};
     modelsEndpoint := λ _ _ _, Ok sampleResponse |}.

Definition downWorld : World :=
  {| clock := 2000;
     tokenEndpoint := λ _, Failed;
     modelsEndpoint := λ _ _ _, Failed |}.

Definition sampleAccount : PollAccount :=
  {| acc_email := "a@example.com"; acc_refreshToken := "r1"; acc_projectId := None |}.

Definition emptyService : QuotaService :=
  {| cache := {| accounts := ∅; lastFullFetch := 0 |}; tokenCache := ∅ |}.

(** A cycle of three accounts in which the provider is down for the second
    account only. *)
Definition secondAccount : PollAccount :=
  {| acc_email := "b@example.com"; acc_refreshToken := "r2";
     acc_projectId := Some "p2" |}.

Definition thirdAccount : PollAccount :=
  {| acc_email := "c@example.com"; acc_refreshToken := "r3"; acc_projectId := None |}.

Definition sampleCycle : list PollAccount :=
  [secondAccount; sampleAccount; thirdAccount].

Definition sampleWorlds (i : nat) : World :=
  if decide (i = 1%nat) then downWorld else sampleWorld.

(** The service after one cycle in the sample world: it holds a record and
    an access token for the sample account. *)
Definition polledService : QuotaService :=
  (fetchAllQuotas sampleRuntime (λ _, sampleWorld) 1500 [sampleAccount] emptyService).2.

(** *** The other accessors of the poller *)

(** [constructor(pollingMs?)]: [this.pollingMs] stays 120000 unless the
    argument is truthy. *)
Definition newPollingMs (pollingMs : option Z) : Z :=
  default 120000 (truthy pollingMs).

(** [getCacheAge]: [None] stands for [Infinity]. *)
Definition getCacheAge (now : Z) (s : QuotaService) : option Z :=
  if lastFullFetch (cache s) =? 0 then None
  else Some (now - lastFullFetch (cache s)).

(** [isCacheStale]: [getCacheAge() > this.pollingMs]. *)
Definition isCacheStale (pollingMs now : Z) (s : QuotaService) : bool :=
  match getCacheAge now s with
  | None => true
  | Some age => age >? pollingMs
  end.

Definition forceRefresh (rt : Runtime) (worlds : nat → World) (finished : Z)
    (accs : list PollAccount) (s : QuotaService) : list AccountQuota * QuotaService :=
  fetchAllQuotas rt worlds finished accs s.

(** The info that [parseQuotaResponse] builds for a model with a
    [quotaInfo], written out. *)
Definition parsedInfo (rt : Runtime) (name : string) (shown : option string)
    (info : QuotaInfo) : ModelQuotaInfo :=
  {| modelName := name;
     displayName := Some (default name (truthyString shown));
     remainingFraction := default 1%Q (qi_remainingFraction info);
     remainingPercent := percentOf rt (default 1%Q (qi_remainingFraction info));
     resetTime := truthyString (qi_resetTime info);
     resetTimeMs := getTime rt <$> truthyString (qi_resetTime info) |}.

(** A world that differs from [w] in its token endpoint only. *)
Definition withTokenEndpoint (w : World)
    (endpoint : string → Http TokenRefreshResponse) : World :=
  {| clock := clock w; tokenEndpoint := endpoint; modelsEndpoint := modelsEndpoint w |}.


End Quota.

(** ** Definitions used to state the properties *)

(** The three effective states of a family's rate-limit info, and the
    precedence table of the status rule written out case by case. *)
Inductive Effective := Absent | Expired | Active.

Definition effective (info : option RateLimitInfo) : Effective :=
  match info with
  | None => Absent
  | Some r => if isExpired r then Expired else Active
  end.

Definition statusTable (familyA familyB : Effective) : AccountStatus :=
  match familyA, familyB with
  | Active, Active => rate_limited_all
  | Active, Absent => rate_limited_claude
  | Active, Expired => rate_limited_claude
  | Absent, Active => rate_limited_gemini
  | Expired, Active => rate_limited_gemini
  | Absent, Absent => available
  | Absent, Expired => available
  | Expired, Absent => available
  | Expired, Expired => available
  end.

(** Every stored status is the one the rule derives. *)
Definition statusDerived (accs : list LocalAccount) : Prop :=
  Forall (λ a, status a = calculateAccountStatus a) accs.

(** A raw record with its [rateLimitResetTimes] replaced. *)
Definition setResetTimes (raw : RawAccountData) (t : option ByFamily) : RawAccountData :=
  {| raw_email := raw_email raw;
     refreshToken := refreshToken raw;
     raw_projectId := raw_projectId raw;
     raw_managedProjectId := raw_managedProjectId raw;
     raw_addedAt := raw_addedAt raw;
     raw_lastUsed := raw_lastUsed raw;
     rateLimitResetTimes := t |}.

(** A snapshot as the identifier-keyed collection it stands for: the state
    of each email, the last record winning. *)
Definition snapshot (accs : list LocalAccount) : gmap string LocalAccount :=
  foldl (λ m a, <[email a := a]> m) ∅ accs.

(** Applying one emitted operation to an identifier-keyed collection, as a
    subscriber does: an add inserts the account it carries, an update
    replaces the account by the state it carries, a remove deletes the
    identifier. *)
Definition applyDiff (m : gmap string LocalAccount) (d : AccountDiff)
    : gmap string LocalAccount :=
  match op d with
  | op_add =>
      match account d with
      | Some a => <[diff_email d := a]> m
      | None => m
      end
  | op_update =>
      match changes d with
      | Some a => <[diff_email d := a]> m
      | None => m
      end
  | op_remove => delete (diff_email d) m
  end.

Definition applyDiffs (m : gmap string LocalAccount) (ds : list AccountDiff)
    : gmap string LocalAccount :=
  foldl applyDiff m ds.

(** The last record of a snapshot that has the email [e]. *)
Definition lastWithEmail (e : string) (accs : list LocalAccount) : option LocalAccount :=
  last (filter (λ a, email a = e) accs).

(** [Array.from(map.values())] *)
Definition jsmap_values {V} (m : JsMap V) : list V := m.*2.

(** The remove operation for the identifier [e]. *)
Definition removeOf (e : string) : AccountDiff :=
  {| op := op_remove; diff_email := e; changes := None; account := None |}.

(** The events of a trace that clear the family [f] of the account [e]. *)
Definition clearedCount (e : string) (f : Family) (evs : list Event) : nat :=
  length (filter (λ ev, ev = rate_limit_cleared e f) evs).

(** The operations that one entry of [currMap], and one entry of [prevMap],
    add to [diffs] in the two loops of [calculateDiffs]. *)
Definition diffCurrent (prevMap : JsMap LocalAccount) (entry : string * LocalAccount)
    : list AccountDiff :=
  match jsmap_get entry.1 prevMap with
  | None => [{| op := op_add; diff_email := entry.1;
                changes := None; account := Some entry.2 |}]
  | Some prev =>
      if decide (stringify prev ≠ stringify entry.2)
      then [{| op := op_update; diff_email := entry.1;
               changes := Some entry.2; account := None |}]
      else []
  end.

Definition diffPrevious (currMap : JsMap LocalAccount) (entry : string * LocalAccount)
    : list AccountDiff :=
  if jsmap_has entry.1 currMap then [] else [removeOf entry.1].

(** Two maps with the same keys in the same order that agree on every value
    except, possibly, that of the key [k]. *)
Definition agreeExcept (k : string) (m1 m2 : JsMap LocalAccount) : Prop :=
  Forall2 (λ x y, x.1 = y.1 ∧ (x.1 ≠ k → x.2 = y.2)) m1 m2.

(** A clearing update made of remove events: for every account held before
    the load, an [accounts_changed] event whose diffs remove its identifier. *)
Definition removesAll (before : list LocalAccount) (evs : list Event) : Prop :=
  ∀ a, a ∈ before →
    ∃ diffs, accounts_changed diffs ∈ evs ∧ removeOf (email a) ∈ diffs.

(** A stand-in for [JSON.parse] that accepts one text only, and the registry
    it yields; an account and a service state to run examples on. *)
Definition sampleRegistry : RawAccountsFile :=
  {| version := 3;
     accounts :=
       [{| raw_email := "a@example.com"; refreshToken := "r1";
           raw_projectId := None; raw_managedProjectId := None;
           raw_addedAt := 1000; raw_lastUsed := 2000;
           rateLimitResetTimes :=
             Some {| forClaude := Some 60000; forGemini := None |} |}];
     activeIndex := 0;
     activeIndexByFamily := None |}.

Definition sampleParse (content : string) : option RawAccountsFile :=
  if decide (content = "registry") then Some sampleRegistry else None.

Definition sampleService : Service :=
  {| lastData := Some sampleRegistry;
     processedAccounts := processAccounts 0 sampleRegistry |}.

(** The three results of the loop body for one account. *)
Definition tickedAccount (now : Z) (a : LocalAccount) : LocalAccount :=
  (updateAccount now a).1.1.
Definition tickEvents (now : Z) (a : LocalAccount) : list Event :=
  (updateAccount now a).1.2.
Definition tickChanged (now : Z) (a : LocalAccount) : bool :=
  (updateAccount now a).2.

(** The rate-limit info of a family, the other family, and the status of an
    account limited in one family only. *)
Definition familyInfo (f : Family) (a : LocalAccount) : option RateLimitInfo :=
  match f with
  | Claude => claude (rateLimits a)
  | Gemini => gemini (rateLimits a)
  end.

Definition otherFamily (f : Family) : Family :=
  match f with
  | Claude => Gemini
  | Gemini => Claude
  end.

Definition limitedOnlyIn (f : Family) : AccountStatus :=
  match f with
  | Claude => rate_limited_claude
  | Gemini => rate_limited_gemini
  end.

(** The flags of an account are those of the clock reading [t]: every info
    present is expired exactly when its reset epoch is not after [t]. *)
Definition consistentAt (t : Z) (a : LocalAccount) : Prop :=
  ∀ f info, familyInfo f a = Some info →
    isExpired info = bool_decide (resetTime info ≤ t).

(** The test of the clock for one family: the info is present, was not
    expired, and its reset epoch is not after [now]. *)
Definition flips (now : Z) (f : Family) (a : LocalAccount) : bool :=
  match familyInfo f a with
  | Some info => negb (isExpired info) && bool_decide (resetTime info ≤ now)
  | None => false
  end.

(** One account through a run of the clock. *)
Fixpoint accountRun (nows : list Z) (a : LocalAccount) : LocalAccount * list Event :=
  match nows with
  | [] => (a, [])
  | now :: rest =>
      let '(a', evs) := accountRun rest (tickedAccount now a) in
      (a', tickEvents now a ++ evs)
  end.

(** Whether some tick of the run reads a clock at or after [reset]. *)
Definition reaches (reset : Z) (nows : list Z) : bool :=
  existsb (λ now, bool_decide (reset ≤ now)) nows.

(** ** The accessors of [AccountsFileService] *)

Record DashboardStats := {
  totalAccounts : Z;
  availableAccounts : Z;
  rateLimitedAccounts : Z;
  activeAccount : option string;
  lastUpdate : Z
}.

Definition getAccounts (s : Service) : list LocalAccount := processedAccounts s.

(** [this.processedAccounts.find(a => a.isActive) || null] *)
Definition getActiveAccount (s : Service) : option LocalAccount :=
  find isActive (processedAccounts s).

Definition getActiveAccountForFamily (family : Family) (s : Service)
    : option LocalAccount :=
  match family with
  | Claude => find activeForClaude (processedAccounts s)
  | Gemini => find activeForGemini (processedAccounts s)
  end.

Definition getRateLimitedAccounts (s : Service) : list LocalAccount :=
  filter (λ a, status a ≠ available) (processedAccounts s).

Definition getAvailableAccounts (s : Service) : list LocalAccount :=
  filter (λ a, status a = available) (processedAccounts s).

(** [getStats]; [active?.email || null] is [null] also for an empty email. *)
Definition getStats (now : Z) (s : Service) : DashboardStats :=
  let active := getActiveAccount s in
  {| totalAccounts := Z.of_nat (length (processedAccounts s));
     availableAccounts := Z.of_nat (length (getAvailableAccounts s));
     rateLimitedAccounts := Z.of_nat (length (getRateLimitedAccounts s));
     activeAccount := Quota.truthyString (email <$> active);
     lastUpdate := now |}.

(** ** Functions of the server file *)

(** [getRawAccountsForQuota]: the accounts of the registry as the poller
    takes them; [[]] when the file is missing or does not parse. *)
Definition getRawAccountsForQuota (parse : string → option RawAccountsFile)
    (file : option string) : list Quota.PollAccount :=
  match file with
  | None => []
  | Some content =>
      match parse content with
      | None => []
      | Some data =>
          (λ acc,
             {| Quota.acc_email := raw_email acc;
                Quota.acc_refreshToken := refreshToken acc;
                Quota.acc_projectId :=
                  match Quota.truthyString (raw_projectId acc) with
                  | Some project => Some project
                  | None => raw_managedProjectId acc
                  end |}) <$> accounts data
      end
  end.

(** The characters that [escapeCSVCell] looks for. *)
Definition dquote : Ascii.ascii := Eval cbv in Ascii.ascii_of_nat 34.
Definition comma : Ascii.ascii := Eval cbv in Ascii.ascii_of_nat 44.
Definition newline : Ascii.ascii := Eval cbv in Ascii.ascii_of_nat 10.
Definition carriageReturn : Ascii.ascii := Eval cbv in Ascii.ascii_of_nat 13.

(** [str.includes(c)] for a one-character string. *)
Fixpoint hasChar (c : Ascii.ascii) (str : string) : bool :=
  match str with
  | EmptyString => false
  | String c' rest => Ascii.eqb c' c || hasChar c rest
  end.

(** The [str.replace] of [escapeCSVCell]: every double quote written twice. *)
Fixpoint doubleQuotes (str : string) : string :=
  match str with
  | EmptyString => EmptyString
  | String c rest =>
      if Ascii.eqb c dquote
      then String dquote (String dquote (doubleQuotes rest))
      else String c (doubleQuotes rest)
  end.

(** [escapeCSVCell], on a value that is a string, or [None] for [null] and
    [undefined]. *)
Definition escapeCSVCell (value : option string) : string :=
  let str := default "" value in
  if hasChar dquote str || hasChar comma str || hasChar newline str
     || hasChar carriageReturn str
  then String dquote (doubleQuotes str +:+ String dquote EmptyString)
  else String dquote (str +:+ String dquote EmptyString).

(** ** The notifications of the web store ([useDashboardStore.ts]) *)

Module Store.

Inductive NotificationType := info | success | warning | error.
Inductive SortOrder := asc | desc.
Inductive Theme := dark | light | system.

Record Notification := {
  id : string;
  type : NotificationType;
  title : string;
  message : string;
  timestamp : Z;
  read : bool
}.

(** [Omit<Notification, 'id' | 'timestamp' | 'read'>] *)
Record NewNotification := {
  new_type : NotificationType;
  new_title : string;
  new_message : string
}.

Record UserPreferences := {
  activeTab : string;
  accountsSortBy : string;
  accountsSortOrder : SortOrder;
  accountsFilter : string;
  notificationsEnabled : bool;
  notifyOnRateLimit : bool;
  notifyOnRateLimitClear : bool;
  theme : Theme;
  refreshInterval : Z
}.

(** The part of the store that the notification actions read and write. *)
Record State := {
  notifications : list Notification;
  preferences : UserPreferences
}.

(** [addNotification], with the identifier that [crypto.randomUUID()] gives
    and the clock. *)
Definition addNotification (uuid : string) (now : Z) (notification : NewNotification)
    (state : State) : State :=
  if negb (notificationsEnabled (preferences state)) then state
  else
    let newNotification :=
      {| id := uuid;
         type := new_type notification;
         title := new_title notification;
         message := new_message notification;
         timestamp := now;
         read := false |} in
    {| notifications := take 50 (newNotification :: notifications state);
       preferences := preferences state |}.

Definition markRead (n : Notification) : Notification :=
  {| id := id n; type := type n; title := title n; message := message n;
     timestamp := timestamp n; read := true |}.

Definition markNotificationRead (which : string) (state : State) : State :=
  {| notifications :=
       (λ n, if decide (id n = which) then markRead n else n) <$> notifications state;
     preferences := preferences state |}.

Definition clearNotifications (state : State) : State :=
  {| notifications := []; preferences := preferences state |}.

(** [partialize]: what is written to the local storage. *)
Definition partialize (state : State) : UserPreferences * list Notification :=
  (preferences state,
   take 10 (filter (λ n, read n = false) (notifications state))).

End Store.

(** ** The request interceptor (class [AntigravityInterceptor]) *)

Module Interceptor.

Record RequestMetadata := {
  account_email : string;
  model : string;
  endpoint : string;
  startTime : Z
}.

Record Tokens := {
  prompt : option Z;
  completion : option Z;
  total : option Z
}.

Record Response := {
  success : bool;
  tokens : option Tokens;
  error : option string;
  httpStatus : option Z
}.

Inductive CallStatus := call_success | call_error | call_rate_limited.

(** The argument of [monitor.logApiCall]. *)
Record ApiCall := {
  call_timestamp : Z;
  call_account_email : string;
  call_model : string;
  call_endpoint : string;
  request_tokens : option Z;
  response_tokens : option Z;
  total_tokens : option Z;
  duration_ms : Z;
  call_status : CallStatus;
  error_message : option string;
  http_status : option Z
}.

(** A number of JavaScript (a double) whose value is a whole number, or an
    infinity: what [parseInt] of a run of digits, and the products and sums
    of such numbers, give. *)
Inductive JsNumber := Finite (value : Z) | PlusInfinity | MinusInfinity.

(** What a method of the interceptor does to its collaborators, in order:
    the calls of the monitor and the call of [safeBroadcast] for a completed
    request. *)
Inductive Effect :=
  | logApiCall (call : ApiCall)
  | updateAccountStatus (email : string) (isRateLimited : bool)
      (rateLimitReset : option JsNumber) (lastError : option string)
  | broadcastCall (timestamp : Z) (account model : string) (status : CallStatus)
      (duration : Z).

(** The double nearest to the whole number [x >= 0], as a whole number: [x]
    itself below 2^53; above, [x] rounded to 53 significant bits, a tie going
    to the even significand. *)
Definition nearestDouble (x : Z) : Z :=
  if x <? 2 ^ 53 then x
  else
    let e := Z.log2 x - 52 in
    let q := Z.shiftr x e in
    let r := x - Z.shiftl q e in
    let half := Z.shiftl 1 (e - 1) in
    let q' := if (half <? r) || ((r =? half) && Z.odd q) then q + 1 else q in
    Z.shiftl q' e.

(** The number for the whole number [x]: the nearest double, an infinity
    when that is past the greatest double. *)
Definition toNumber (x : Z) : JsNumber :=
  let m := nearestDouble (Z.abs x) in
  if m <? 2 ^ 1024 then Finite (Z.sgn x * m)
  else if x <? 0 then MinusInfinity else PlusInfinity.

(** [x * 1000] and [now + x] on these numbers, each rounded once; [now] is
    a time value, a whole number that is a double. *)
Definition times1000 (x : JsNumber) : JsNumber :=
  match x with
  | Finite v => toNumber (v * 1000)
  | PlusInfinity => PlusInfinity
  | MinusInfinity => MinusInfinity
  end.

Definition plusNumber (now : Z) (x : JsNumber) : JsNumber :=
  match x with
  | Finite v => toNumber (now + v)
  | PlusInfinity => PlusInfinity
  | MinusInfinity => MinusInfinity
  end.

(** Truthiness of an optional number: [undefined] and 0 are falsy. *)
Definition truthyNumber (x : option JsNumber) : option JsNumber :=
  match x with
  | Some (Finite 0) => None
  | _ => x
  end.

Definition isDigit (c : Ascii.ascii) : bool :=
  (48 <=? Ascii.nat_of_ascii c)%nat && (Ascii.nat_of_ascii c <=? 57)%nat.

(** The longest run of digits at the start of a string, read as a decimal
    number on top of [acc], and what follows it. *)
Fixpoint digitsPrefix (acc : Z) (str : string) : Z * string :=
  match str with
  | String c rest =>
      if isDigit c
      then digitsPrefix (acc * 10 + (Z.of_nat (Ascii.nat_of_ascii c) - 48)) rest
      else (acc, str)
  | EmptyString => (acc, str)
  end.

(** [str.match(/(\d+)s/)[1]], as the whole number that its digits write:
    the first run of digits that is followed by the letter s, if there is
    one.  [parseInt] of these digits is the number for it ([toNumber]). *)
Fixpoint retrySeconds (str : string) : option Z :=
  match str with
  | EmptyString => None
  | String c rest =>
      if isDigit c
      then match digitsPrefix 0 str with
           | (n, String next _) =>
               if Ascii.eqb next (Ascii.ascii_of_nat 115) then Some n
               else retrySeconds rest
           | (_, EmptyString) => retrySeconds rest
           end
      else retrySeconds rest
  end.

Definition onRequestStart (now : Z) (requestId : string) (metadata : RequestMetadata)
    (activeRequests : gmap string RequestMetadata) : gmap string RequestMetadata :=
  <[requestId := {| account_email := account_email metadata;
                    model := model metadata;
                    endpoint := endpoint metadata;
                    startTime := now |}]> activeRequests.

Definition statusOf (response : Response) : CallStatus :=
  if success response then call_success
  else if bool_decide (httpStatus response = Some 429) then call_rate_limited
  else call_error.

(** [onRequestComplete]: the requests still active and the effects, with
    [now] for the clock of the completion. *)
Definition onRequestComplete (now : Z) (requestId : string) (response : Response)
    (activeRequests : gmap string RequestMetadata)
    : gmap string RequestMetadata * list Effect :=
  match activeRequests !! requestId with
  | None => (activeRequests, [])
  | Some metadata =>
      let duration := now - startTime metadata in
      let status := statusOf response in
      let logged :=
        logApiCall
          {| call_timestamp := startTime metadata;
             call_account_email := account_email metadata;
             call_model := model metadata;
             call_endpoint := endpoint metadata;
             request_tokens := tokens response ≫= prompt;
             response_tokens := tokens response ≫= completion;
             total_tokens := tokens response ≫= total;
             duration_ms := duration;
             call_status := status;
             error_message := error response;
             http_status := httpStatus response |} in
      let statusUpdate :=
        match status with
        | call_rate_limited =>
            let retryAfter :=
              (λ n, times1000 (toNumber n)) <$> (error response ≫= retrySeconds) in
            [updateAccountStatus (account_email metadata) true
               (plusNumber now <$> truthyNumber retryAfter) (error response)]
        | call_success =>
            [updateAccountStatus (account_email metadata) false None None]
        | call_error => []
        end in
      (delete requestId activeRequests,
       [logged] ++ statusUpdate
       ++ [broadcastCall (startTime metadata) (account_email metadata)
             (model metadata) status duration])
  end.

(** Whether an effect is a call of [monitor.updateAccountStatus]; used to
    count these calls. *)
Definition isStatusUpdate (effect : Effect) : bool :=
  match effect with
  | updateAccountStatus _ _ _ _ => true
  | _ => false
  end.

End Interceptor.

(** ** Definitions used to state the further properties *)

(** The token that the token cache gives for a credential at the clock
    [now]: the cached one if it expires more than 60 s later. *)
Definition validToken (now : Z) (refreshToken : string)
    (tc : gmap string Quota.TokenCache) : option string :=
  match tc !! refreshToken with
  | Some cached =>
      if Quota.expiresAt cached >? now + 60000
      then Some (Quota.accessToken cached) else None
  | None => None
  end.

(** The lifetime in seconds that the poller gives a token. *)
Definition lifetime (data : Quota.TokenRefreshResponse) : Z :=
  default 3600 (truthy (Quota.expires_in data)).

(** The entries of a response that have a [quotaInfo]. *)
Definition withQuotaInfo (entries : list (string * Quota.ModelData))
    : list (string * Quota.ModelData) :=
  filter (λ entry, is_Some (Quota.quotaInfo entry.2)) entries.

(** Every record of a quota cache is a successful result filed under its
    own email. *)
Definition cleanCache (s : Quota.QuotaService) : Prop :=
  ∀ e q, Quota.accounts (Quota.cache s) !! e = Some q →
    Quota.fetchError q = None ∧ Quota.email q = e.

(** The field of a per-family object for a family. *)
Definition forFamily (f : Family) : ByFamily → option Z :=
  match f with
  | Claude => forClaude
  | Gemini => forGemini
  end.

(** An account with no rate-limit info, and available. *)
Definition unlimited (a : LocalAccount) : Prop :=
  claude (rateLimits a) = None ∧ gemini (rateLimits a) = None
  ∧ status a = available.

(** A registry of two accounts without reset epochs, and a stand-in for
    [JSON.parse] that yields it. *)
Definition plainRegistry : RawAccountsFile :=
  {| version := 3;
     accounts :=
       [{| raw_email := "a@example.com"; refreshToken := "r1";
           raw_projectId := Some "p1"; raw_managedProjectId := None;
           raw_addedAt := 1000; raw_lastUsed := 2000;
           rateLimitResetTimes := None |};
        {| raw_email := "b@example.com"; refreshToken := "r2";
           raw_projectId := None; raw_managedProjectId := Some "m2";
           raw_addedAt := 1500; raw_lastUsed := 2500;
           rateLimitResetTimes :=
             Some {| forClaude := Some 0; forGemini := None |} |}];
     activeIndex := 1;
     activeIndexByFamily := Some {| forClaude := Some 0; forGemini := None |} |}.

Definition plainParse (content : string) : option RawAccountsFile :=
  if decide (content = "plain") then Some plainRegistry else None.

(** The info of a family after a tick that reads [now]. *)
Definition tickInfo (now : Z) (info : RateLimitInfo) : RateLimitInfo :=
  {| resetTime := resetTime info;
     timeUntilReset := Z.max 0 (resetTime info - now);
     isExpired := bool_decide (resetTime info ≤ now) |}.

(** An account with the timers of its infos set by a tick that reads [now],
    its status not yet recomputed. *)
Definition tickedTimers (now : Z) (a : LocalAccount) : LocalAccount :=
  {| email := email a;
     projectId := projectId a;
     managedProjectId := managedProjectId a;
     addedAt := addedAt a;
     lastUsed := lastUsed a;
     isActive := isActive a;
     activeForClaude := activeForClaude a;
     activeForGemini := activeForGemini a;
     status := status a;
     rateLimits := {| claude := tickInfo now <$> claude (rateLimits a);
                      gemini := tickInfo now <$> gemini (rateLimits a) |} |}.

(** What the clock leaves alone in an account. *)
Definition identityOf (a : LocalAccount) :=
  (email a, projectId a, managedProjectId a, addedAt a, lastUsed a,
   isActive a, activeForClaude a, activeForGemini a,
   resetTime <$> claude (rateLimits a), resetTime <$> gemini (rateLimits a)).

(** The timers of an account are those of the clock reading [t]. *)
Definition timersAt (t : Z) (a : LocalAccount) : Prop :=
  ∀ f info, familyInfo f a = Some info →
    timeUntilReset info = Z.max 0 (resetTime info - t)
    ∧ 0 ≤ timeUntilReset info
    ∧ (isExpired info = true ↔ timeUntilReset info = 0).

(** The index that the registry gives as active for a family. *)
Definition activePointer (data : RawAccountsFile) (family : option Family) : Z :=
  match family with
  | None => activeIndex data
  | Some Claude => nullish (chain (activeIndexByFamily data) forClaude) (activeIndex data)
  | Some Gemini => nullish (chain (activeIndexByFamily data) forGemini) (activeIndex data)
  end.

(** The account at the index [k] of a list, if [k] is an index of it. *)
Definition atIndex (k : Z) (accs : list LocalAccount) : option LocalAccount :=
  if decide (0 ≤ k) then accs !! Z.to_nat k else None.

(** A registry none of whose records has a reset epoch that counts. *)
Definition noEpochs (data : RawAccountsFile) : Prop :=
  Forall (λ raw, truthy (chain (rateLimitResetTimes raw) forClaude) = None
                 ∧ truthy (chain (rateLimitResetTimes raw) forGemini) = None)
         (accounts data).

Definition addOf (a : LocalAccount) : AccountDiff :=
  {| op := op_add; diff_email := email a; changes := None; account := Some a |}.

Definition updateOf (a : LocalAccount) : AccountDiff :=
  {| op := op_update; diff_email := email a; changes := Some a; account := None |}.

Definition isCleared (ev : Event) : Prop :=
  ∃ who family, ev = rate_limit_cleared who family.

(* ================================================================= *)
(** * Properties *)

(** ** The status rule *)

Lemma calculateAccountStatus_table account :
  calculateAccountStatus account =
    statusTable (effective (claude (rateLimits account)))
                (effective (gemini (rateLimits account))).
Proof.
  unfold calculateAccountStatus, limited, effective.
  destruct (claude (rateLimits account)) as [[? ? []]|],
           (gemini (rateLimits account)) as [[? ? []]|]; reflexivity.
Qed.

Lemma calculateAccountStatus_setStatus account s :
  calculateAccountStatus (setStatus account s) = calculateAccountStatus account.
Proof. reflexivity. Qed.

Lemma processAccount_status now data index raw :
  status (processAccount now data index raw) =
    calculateAccountStatus (processAccount now data index raw).
Proof. reflexivity. Qed.

Lemma processAccounts_statusDerived now data :
  statusDerived (processAccounts now data).
Proof.
  apply Forall_lookup_2. intros i a Hi.
  unfold processAccounts in Hi. rewrite list_lookup_imap in Hi.
  destruct (accounts data !! i) as [raw|]; simplify_eq/=.
  apply processAccount_status.
Qed.

Lemma tickedAccount_status now a :
  status (tickedAccount now a) = calculateAccountStatus (tickedAccount now a).
Proof.
  unfold tickedAccount, updateAccount.
  destruct (updateFamily now (email a) Claude _) as [[c evc] chc].
  destruct (updateFamily now (email a) Gemini _) as [[g evg] chg].
  cbn [fst snd]. case_bool_decide as Hne; [reflexivity|].
  symmetry. exact Hne.
Qed.

(** The loop is a map of its body: accounts in place, events in order. *)
Lemma updateAccounts_foldl now accs done evs ch :
  foldl (λ '(done, evs, hasChanges) account,
           let '(account', evs', changed) := updateAccount now account in
           (done ++ [account'], evs ++ evs', hasChanges || changed))
        (done, evs, ch) accs
  = (done ++ fmap (tickedAccount now) accs,
     evs ++ concat (fmap (tickEvents now) accs),
     ch || existsb (tickChanged now) accs).
Proof.
  revert done evs ch. induction accs as [|a accs IH]; intros done evs ch; simpl.
  - by rewrite !app_nil_r, orb_false_r.
  - unfold tickedAccount, tickEvents, tickChanged.
    destruct (updateAccount now a) as [[a' evs'] changed] eqn:Ha.
    rewrite IH. cbn [fst snd].
    by rewrite <- !app_assoc, orb_assoc.
Qed.

Lemma updateAccounts_spec now accs :
  updateAccounts now accs
  = (fmap (tickedAccount now) accs,
     concat (fmap (tickEvents now) accs),
     existsb (tickChanged now) accs).
Proof. unfold updateAccounts. by rewrite updateAccounts_foldl. Qed.

Lemma updateAccounts_statusDerived now accs :
  statusDerived (updateAccounts now accs).1.1.
Proof.
  rewrite updateAccounts_spec. cbn [fst].
  apply Forall_forall. intros a' [a [-> _]]%list_elem_of_fmap.
  apply tickedAccount_status.
Qed.

(** C1. The derived status is a function of the two rate-limit infos alone
    ([statusTable] of their effective states), with the precedence of the
    table: both families present and not expired
    gives [rate_limited_all], else the claude family alone gives
    [rate_limited_claude], else the gemini family alone gives
    [rate_limited_gemini], else [available].  The builder and the status
    clock both store the status that this rule derives, so that re-deriving
    it from the stored infos reproduces the stored status. *)
Theorem status_derived_from_rate_limits :
  (∀ account,
     calculateAccountStatus account =
       statusTable (effective (claude (rateLimits account)))
                   (effective (gemini (rateLimits account))))
  ∧ (∀ now data, statusDerived (processAccounts now data))
  ∧ (∀ now accs, statusDerived (updateAccounts now accs).1.1).
Proof.
  split; [exact calculateAccountStatus_table|]. split.
  - exact processAccounts_statusDerived.
  - exact updateAccounts_statusDerived.
Qed.

(** The same holds of the service: a tick of the clock establishes it, and
    a load of the registry, whatever the file holds, preserves it. *)
Lemma updateRateLimitTimers_statusDerived now s :
  statusDerived (processedAccounts (stateAfter (updateRateLimitTimers now) s)).
Proof.
  unfold stateAfter, updateRateLimitTimers, bind, getProcessedAccounts. simpl.
  pose proof (updateAccounts_statusDerived now (processedAccounts s)) as H.
  by destruct (updateAccounts now (processedAccounts s)) as [[accs evs] ch].
Qed.

Lemma loadAccountsFile_statusDerived parse now file s :
  statusDerived (processedAccounts s) →
  statusDerived (processedAccounts (stateAfter (loadAccountsFile parse now file) s)).
Proof.
  intros Hs. unfold stateAfter, loadAccountsFile, try_catch, bind, JSON_parse.
  destruct file as [content|]; simpl; [|constructor].
  destruct (parse content) as [data|]; simpl; [|done].
  case_decide; simpl; apply processAccounts_statusDerived.
Qed.

(** ** A reset epoch of zero *)

Lemma buildRateLimit_zero now : buildRateLimit now (Some 0) = None.
Proof. reflexivity. Qed.

Lemma buildRateLimit_absent now : buildRateLimit now None = None.
Proof. reflexivity. Qed.

(** C9. A raw record whose reset epoch for a family is 0 gets no rate-limit
    info for that family: the builder tests the epoch for truthiness.  The
    account built is the one built from the same record with the epoch
    absent, and its status is the one of an account whose family is absent
    from the rule (never limited in that family). *)
Theorem zero_reset_epoch_is_absent (now : Z) (data : RawAccountsFile)
    (index : nat) (raw : RawAccountData) (other : option Z) :
  let zeroClaude := setResetTimes raw (Some {| forClaude := Some 0; forGemini := other |}) in
  let noClaude := setResetTimes raw (Some {| forClaude := None; forGemini := other |}) in
  let zeroGemini := setResetTimes raw (Some {| forClaude := other; forGemini := Some 0 |}) in
  let noGemini := setResetTimes raw (Some {| forClaude := other; forGemini := None |}) in
  (claude (rateLimits (processAccount now data index zeroClaude)) = None
   ∧ processAccount now data index zeroClaude = processAccount now data index noClaude
   ∧ status (processAccount now data index zeroClaude) =
       statusTable Absent
         (effective (gemini (rateLimits (processAccount now data index zeroClaude)))))
  ∧ (gemini (rateLimits (processAccount now data index zeroGemini)) = None
     ∧ processAccount now data index zeroGemini = processAccount now data index noGemini
     ∧ status (processAccount now data index zeroGemini) =
         statusTable
           (effective (claude (rateLimits (processAccount now data index zeroGemini))))
           Absent).
Proof.
  intros zeroClaude noClaude zeroGemini noGemini.
  split; (split; [reflexivity|]; split; [reflexivity|]).
  - rewrite processAccount_status, calculateAccountStatus_table. reflexivity.
  - rewrite processAccount_status, calculateAccountStatus_table.
    unfold zeroGemini, processAccount. cbn.
    by destruct (buildRateLimit now other) as [[? ? []]|].
Qed.

(** A record with no [rateLimitResetTimes] at all builds the same account as
    one whose two epochs are 0. *)
Lemma zero_epochs_as_no_reset_times now data index raw :
  processAccount now data index
    (setResetTimes raw (Some {| forClaude := Some 0; forGemini := Some 0 |}))
  = processAccount now data index (setResetTimes raw None).
Proof. reflexivity. Qed.

(** ** The diff engine *)

(** *** [JSON.stringify] separates any two accounts *)

Lemma statusName_inj s1 s2 : statusName s1 = statusName s2 → s1 = s2.
Proof. destruct s1, s2; simpl; intros H; by try discriminate H. Qed.

Lemma stringifyInfo_inj i1 i2 : stringifyInfo i1 = stringifyInfo i2 → i1 = i2.
Proof.
  destruct i1, i2. unfold stringifyInfo. simpl. intros H.
  by simplify_eq.
Qed.

Lemma stringify_inj a b : stringify a = stringify b → a = b.
Proof.
  destruct a as [e1 p1 m1 ad1 lu1 ia1 ac1 ag1 st1 [c1 g1]].
  destruct b as [e2 p2 m2 ad2 lu2 ia2 ac2 ag2 st2 [c2 g2]].
  unfold stringify, optionalField; simpl. intros H.
  injection H as -> H.
  assert (p1 = p2 ∧ m1 = m2 ∧ ad1 = ad2 ∧ lu1 = lu2 ∧ ia1 = ia2 ∧ ac1 = ac2
          ∧ ag1 = ag2 ∧ statusName st1 = statusName st2
          ∧ optionalField "claude" stringifyInfo c1
              ++ optionalField "gemini" stringifyInfo g1 ++ [TEnd; TEnd]
            = optionalField "claude" stringifyInfo c2
              ++ optionalField "gemini" stringifyInfo g2 ++ [TEnd; TEnd])
    as (-> & -> & -> & -> & -> & -> & -> & Hst & Hrl).
  { destruct p1, p2, m1, m2; simpl in H; simplify_eq; done. }
  apply statusName_inj in Hst as ->.
  assert (c1 = c2 ∧ g1 = g2) as [-> ->]; [|done].
  unfold optionalField, stringifyInfo in Hrl.
  destruct c1 as [[]|], c2 as [[]|], g1 as [[]|], g2 as [[]|];
    simpl in Hrl; simplify_eq; done.
Qed.

(** *** The insertion-ordered map *)

Section jsmap.
Context {V : Type}.
Implicit Types (m : JsMap V) (k : string) (v : V).

Lemma jsmap_get_set m k k' v :
  jsmap_get k' (jsmap_set k v m) = if decide (k' = k) then Some v else jsmap_get k' m.
Proof.
  induction m as [|[k0 v0] m IH]; csimpl.
  - by repeat case_decide.
  - destruct (decide (k = k0)) as [->|Hk]; csimpl.
    + by repeat case_decide; simplify_eq.
    + rewrite IH. by repeat case_decide; simplify_eq.
Qed.

Lemma jsmap_get_None m k : jsmap_get k m = None ↔ k ∉ m.*1.
Proof.
  induction m as [|[k0 v0] m IH]; csimpl.
  - split; [intros _; apply not_elem_of_nil|done].
  - rewrite not_elem_of_cons. case_decide as Hk.
    + split; [done|]. by intros [? _].
    + rewrite IH. tauto.
Qed.

Lemma jsmap_get_Some m k v :
  NoDup m.*1 → jsmap_get k m = Some v ↔ (k, v) ∈ m.
Proof.
  induction m as [|[k0 v0] m IH]; csimpl; intros Hnd.
  - split; [done|]. by intros ?%elem_of_nil.
  - apply NoDup_cons in Hnd as [Hk0 Hnd]. rewrite elem_of_cons.
    case_decide as Hk; simplify_eq.
    + split; [intros [= ->]; by left|].
      intros [[= ->]|Hin]; [done|].
      destruct Hk0. apply list_elem_of_fmap. by exists (k0, v).
    + rewrite IH by done. split; [by right|].
      intros [[= -> ->]|Hin]; done.
Qed.

Lemma jsmap_has_true m k : jsmap_has k m = true ↔ k ∈ m.*1.
Proof.
  unfold jsmap_has. rewrite bool_decide_eq_true.
  destruct (jsmap_get k m) eqn:Hg.
  - split; [intros _|by eauto].
    destruct (decide (k ∈ m.*1)) as [|Hn]; [done|].
    apply jsmap_get_None in Hn. congruence.
  - apply jsmap_get_None in Hg. split; [by intros [? ?]|done].
Qed.

Lemma jsmap_has_false m k : jsmap_has k m = false ↔ k ∉ m.*1.
Proof. rewrite <- jsmap_has_true. by destruct (jsmap_has k m). Qed.

(** Setting a fresh key appends; setting a present key keeps the keys. *)
Lemma jsmap_set_fresh m k v : k ∉ m.*1 → jsmap_set k v m = m ++ [(k, v)].
Proof.
  induction m as [|[k0 v0] m IH]; csimpl; [done|].
  rewrite not_elem_of_cons. intros [Hk Hm].
  case_decide; [done|]. by rewrite IH.
Qed.

Lemma jsmap_set_keys m k v :
  (jsmap_set k v m).*1 = if decide (k ∈ m.*1) then m.*1 else m.*1 ++ [k].
Proof.
  induction m as [|[k0 v0] m IH]; csimpl.
  - destruct (decide (k ∈ [])) as [H|]; [by apply elem_of_nil in H|done].
  - destruct (decide (k = k0)) as [->|Hk]; csimpl.
    + rewrite decide_True by apply list_elem_of_here. done.
    + rewrite IH. destruct (decide (k ∈ m.*1)) as [Hin|Hin].
      * rewrite decide_True by (by apply list_elem_of_further). done.
      * rewrite decide_False; [done|].
        rewrite elem_of_cons. intros [?|?]; done.
Qed.

Lemma jsmap_set_NoDup m k v : NoDup m.*1 → NoDup (jsmap_set k v m).*1.
Proof.
  intros Hnd. rewrite jsmap_set_keys. case_decide; [done|].
  apply NoDup_app. split_and!; [done| |apply NoDup_singleton].
  intros x Hx ->%list_elem_of_singleton. done.
Qed.

Lemma jsmap_fold_NoDup (entries : list (string * V)) m :
  NoDup m.*1 → NoDup (foldl (λ m kv, jsmap_set kv.1 kv.2 m) m entries).*1.
Proof.
  revert m. induction entries as [|[k v] entries IH]; intros m Hnd; csimpl; [done|].
  apply IH. by apply jsmap_set_NoDup.
Qed.

Lemma jsmap_new_NoDup (entries : list (string * V)) : NoDup (jsmap_new entries).*1.
Proof. apply jsmap_fold_NoDup. apply NoDup_nil_2. Qed.

Lemma jsmap_fold_fresh (entries : list (string * V)) m :
  NoDup (m ++ entries).*1 →
  foldl (λ m kv, jsmap_set kv.1 kv.2 m) m entries = m ++ entries.
Proof.
  revert m. induction entries as [|[k v] entries IH]; intros m Hnd; csimpl.
  - by rewrite app_nil_r.
  - rewrite jsmap_set_fresh.
    + rewrite IH; rewrite <- app_assoc; done.
    + rewrite fmap_app in Hnd. apply NoDup_app in Hnd as (_ & Hd & _).
      intros Hk. apply (Hd k Hk). csimpl. apply list_elem_of_here.
Qed.

(** A map rebuilt from its own entries is itself. *)
Lemma jsmap_new_NoDup_id (entries : list (string * V)) :
  NoDup entries.*1 → jsmap_new entries = entries.
Proof. intros Hnd. unfold jsmap_new. by rewrite jsmap_fold_fresh. Qed.
End jsmap.

(** *** The two loops of [calculateDiffs] *)

Lemma calculateDiffs_spec previous current :
  calculateDiffs previous current
  = concat (fmap (diffCurrent (byEmail previous)) (byEmail current))
    ++ concat (fmap (diffPrevious (byEmail current)) (byEmail previous)).
Proof.
  unfold calculateDiffs.
  generalize (byEmail previous) as prevMap, (byEmail current) as currMap.
  intros prevMap currMap.
  assert (∀ l acc,
    foldl (λ diffs '(email, account),
             match jsmap_get email prevMap with
             | None =>
                 diffs ++ [{| op := op_add; diff_email := email;
                              changes := None; account := Some account |}]
             | Some prev =>
                 if decide (stringify prev ≠ stringify account)
                 then diffs ++ [{| op := op_update; diff_email := email;
                                   changes := Some account; account := None |}]
                 else diffs
             end) acc l
    = acc ++ concat (fmap (diffCurrent prevMap) l)) as H1.
  { induction l as [|[e a] l IH]; intros acc; simpl.
    - by rewrite app_nil_r.
    - rewrite IH. unfold diffCurrent at 2. simpl.
      destruct (jsmap_get e prevMap) as [prev|].
      + case_decide; [by rewrite <- app_assoc|done].
      + by rewrite <- app_assoc. }
  assert (∀ l acc,
    foldl (λ diffs '(email, _),
             if jsmap_has email currMap then diffs
             else diffs ++ [{| op := op_remove; diff_email := email;
                               changes := None; account := None |}]) acc l
    = acc ++ concat (fmap (diffPrevious currMap) l)) as H2.
  { induction l as [|[e a] l IH]; intros acc; simpl.
    - by rewrite app_nil_r.
    - rewrite IH. unfold diffPrevious at 2. simpl.
      destruct (jsmap_has e currMap); [done|by rewrite <- app_assoc]. }
  by rewrite H1, H2.
Qed.

Lemma diffCurrent_email prevMap entry d :
  d ∈ diffCurrent prevMap entry → diff_email d = entry.1.
Proof.
  unfold diffCurrent. destruct (jsmap_get entry.1 prevMap).
  - case_decide; [|by intros ?%elem_of_nil].
    by intros ->%list_elem_of_singleton.
  - by intros ->%list_elem_of_singleton.
Qed.

Lemma diffPrevious_email currMap entry d :
  d ∈ diffPrevious currMap entry → diff_email d = entry.1.
Proof.
  unfold diffPrevious. destruct (jsmap_has entry.1 currMap).
  - by intros ?%elem_of_nil.
  - by intros ->%list_elem_of_singleton.
Qed.

Lemma diffCurrent_length prevMap entry : (length (diffCurrent prevMap entry) ≤ 1)%nat.
Proof.
  unfold diffCurrent. destruct (jsmap_get entry.1 prevMap); [case_decide|]; simpl; lia.
Qed.

Lemma diffPrevious_length currMap entry : (length (diffPrevious currMap entry) ≤ 1)%nat.
Proof. unfold diffPrevious. destruct (jsmap_has entry.1 currMap); simpl; lia. Qed.

(** *** Snapshots as identifier-keyed collections *)

Lemma snapshot_snoc accs a : snapshot (accs ++ [a]) = <[email a := a]> (snapshot accs).
Proof. unfold snapshot. by rewrite foldl_app. Qed.

Lemma byEmail_snoc accs a : byEmail (accs ++ [a]) = jsmap_set (email a) a (byEmail accs).
Proof. unfold byEmail, jsmap_new. by rewrite fmap_app, foldl_app. Qed.

Lemma byEmail_NoDup accs : NoDup (byEmail accs).*1.
Proof. apply jsmap_new_NoDup. Qed.

(** The [Map] built by the engine holds the states of the snapshot. *)
Lemma byEmail_get accs e : jsmap_get e (byEmail accs) = snapshot accs !! e.
Proof.
  induction accs as [|a accs IH] using rev_ind; [done|].
  rewrite byEmail_snoc, snapshot_snoc, jsmap_get_set, lookup_insert.
  repeat case_decide; simplify_eq; done.
Qed.

Lemma lastWithEmail_snoc e accs a :
  lastWithEmail e (accs ++ [a]) = if decide (email a = e) then Some a else lastWithEmail e accs.
Proof.
  unfold lastWithEmail. rewrite filter_app, filter_cons, filter_nil.
  case_decide.
  - by rewrite last_snoc.
  - by rewrite app_nil_r.
Qed.

Lemma snapshot_lookup accs e : snapshot accs !! e = lastWithEmail e accs.
Proof.
  induction accs as [|a accs IH] using rev_ind; [done|].
  rewrite snapshot_snoc, lastWithEmail_snoc, lookup_insert.
  repeat case_decide; simplify_eq; done.
Qed.

Lemma byEmail_entry accs e a : (e, a) ∈ byEmail accs → email a = e.
Proof.
  intros Hin. apply jsmap_get_Some in Hin; [|apply byEmail_NoDup].
  rewrite byEmail_get, snapshot_lookup in Hin.
  unfold lastWithEmail in Hin. apply last_Some_elem_of in Hin.
  by apply list_elem_of_filter in Hin as [? _].
Qed.

(** *** Applying operations, one identifier at a time *)

Lemma applyDiff_lookup_ne m d e :
  diff_email d ≠ e → applyDiff m d !! e = m !! e.
Proof.
  intros Hne. unfold applyDiff.
  destruct (op d); [destruct (account d)|destruct (changes d)|];
    by rewrite ?lookup_insert_ne, ?lookup_delete_ne.
Qed.

Lemma applyDiff_lookup_congr m1 m2 d e :
  m1 !! e = m2 !! e → applyDiff m1 d !! e = applyDiff m2 d !! e.
Proof.
  intros Hm. destruct (decide (diff_email d = e)) as [<-|Hne].
  - unfold applyDiff.
    destruct (op d); [destruct (account d)|destruct (changes d)|];
      by rewrite ?lookup_insert_eq, ?lookup_delete_eq.
  - by rewrite !applyDiff_lookup_ne.
Qed.

Lemma applyDiffs_lookup_congr ds m1 m2 e :
  m1 !! e = m2 !! e → applyDiffs m1 ds !! e = applyDiffs m2 ds !! e.
Proof.
  revert m1 m2. induction ds as [|d ds IH]; intros m1 m2 Hm; simpl; [done|].
  apply IH. by apply applyDiff_lookup_congr.
Qed.

Lemma applyDiffs_lookup_notin ds m e :
  (∀ d, d ∈ ds → diff_email d ≠ e) → applyDiffs m ds !! e = m !! e.
Proof.
  revert m. induction ds as [|d ds IH]; intros m Hds; simpl; [done|].
  rewrite IH by (intros; apply Hds; by apply list_elem_of_further).
  apply applyDiff_lookup_ne, Hds, list_elem_of_here.
Qed.

Lemma applyDiffs_app m ds1 ds2 :
  applyDiffs m (ds1 ++ ds2) = applyDiffs (applyDiffs m ds1) ds2.
Proof. apply foldl_app. Qed.

Lemma elem_of_concat {A} (x : A) (ls : list (list A)) :
  x ∈ concat ls ↔ ∃ l, x ∈ l ∧ l ∈ ls.
Proof.
  rewrite list_elem_of_In, in_concat. split.
  - intros (l & Hl & Hx). exists l. by rewrite !list_elem_of_In.
  - intros (l & Hx & Hl). exists l. by rewrite <- !list_elem_of_In.
Qed.

Section per_entry.
(** A loop that adds, for each entry of a map, operations on the key of
    that entry only. *)
Context (f : string * LocalAccount → list AccountDiff).
Hypothesis f_email : ∀ entry d, d ∈ f entry → diff_email d = entry.1.

Lemma concat_emails (l : JsMap LocalAccount) d :
  d ∈ concat (fmap f l) → diff_email d ∈ l.*1.
Proof.
  intros (ds & Hd & (entry & -> & Hentry)%list_elem_of_fmap)%elem_of_concat.
  apply list_elem_of_fmap. exists entry. split; [by apply f_email|done].
Qed.

Lemma applyDiffs_concat_lookup (l : JsMap LocalAccount) m e a :
  NoDup l.*1 → (e, a) ∈ l →
  applyDiffs m (concat (fmap f l)) !! e = applyDiffs m (f (e, a)) !! e.
Proof.
  revert m. induction l as [|[k v] l IH]; intros m Hnd Hin; csimpl in *.
  - by apply elem_of_nil in Hin.
  - apply NoDup_cons in Hnd as [Hk Hnd]. rewrite applyDiffs_app.
    apply elem_of_cons in Hin as [[= <- <-]|Hin].
    + apply applyDiffs_lookup_notin. intros d Hd%concat_emails Heq.
      rewrite Heq in Hd. done.
    + rewrite (IH _ Hnd Hin). apply applyDiffs_lookup_congr.
      apply applyDiffs_lookup_notin. intros d Hd%f_email Heq.
      apply Hk. apply list_elem_of_fmap. exists (e, a).
      split; [|done]. simpl in *. congruence.
Qed.

Lemma concat_emails_NoDup (l : JsMap LocalAccount) :
  (∀ entry, (length (f entry) ≤ 1)%nat) →
  NoDup l.*1 → NoDup (diff_email <$> concat (fmap f l)).
Proof.
  intros Hlen. induction l as [|[k v] l IH]; intros Hnd; csimpl in *.
  - apply NoDup_nil_2.
  - apply NoDup_cons in Hnd as [Hk Hnd]. rewrite fmap_app.
    apply NoDup_app. split_and!; [| |by apply IH].
    + specialize (Hlen (k, v)). destruct (f (k, v)) as [|d [|d' ds]]; csimpl in *;
        [apply NoDup_nil_2|apply NoDup_singleton|lia].
    + intros x (d & -> & Hd)%list_elem_of_fmap (d' & Hx & Hd')%list_elem_of_fmap.
      apply f_email in Hd. apply concat_emails in Hd'. simpl in Hd.
      apply Hk. by rewrite <- Hd, Hx.
Qed.
End per_entry.

Lemma concat_fmap_nil {A B} (f : A → list B) (l : list A) :
  (∀ x, x ∈ l → f x = []) → concat (f <$> l) = [].
Proof.
  induction l as [|x l IH]; intros Hf; csimpl; [done|].
  rewrite Hf by apply list_elem_of_here.
  apply IH. intros y Hy. apply Hf. by apply list_elem_of_further.
Qed.

Lemma byEmail_elem accs e a : (e, a) ∈ byEmail accs ↔ snapshot accs !! e = Some a.
Proof. by rewrite <- byEmail_get, jsmap_get_Some by apply byEmail_NoDup. Qed.

(** Snapshots that agree on every identifier produce no operation. *)
Lemma calculateDiffs_same_snapshot previous current :
  snapshot previous = snapshot current → calculateDiffs previous current = [].
Proof.
  intros Heq. rewrite calculateDiffs_spec.
  rewrite !concat_fmap_nil; [done| |].
  - intros [e a] Hin%byEmail_elem. unfold diffPrevious; simpl.
    rewrite Heq, <- byEmail_get in Hin.
    assert (jsmap_has e (byEmail current) = true) as ->; [|done].
    unfold jsmap_has. rewrite Hin. apply bool_decide_eq_true. by eexists.
  - intros [e a] Hin%byEmail_elem. unfold diffCurrent; simpl.
    rewrite <- Heq, <- byEmail_get in Hin. rewrite Hin.
    by rewrite decide_False by (intros H; by apply H).
Qed.

(** C3. The diff of a snapshot with itself is empty: no add, update or
    remove is emitted.  Equality of two states is equality of their values
    ([JSON.stringify] gives the same text exactly for equal states, absent
    rate-limit infos included), and any two snapshots that hold equal states
    for every identifier produce no operation. *)
Theorem diff_idempotent :
  (∀ S, calculateDiffs S S = [])
  ∧ (∀ a b, stringify a = stringify b ↔ a = b)
  ∧ (∀ previous current,
       snapshot previous = snapshot current → calculateDiffs previous current = []).
Proof.
  split; [|split].
  - intros S. by apply calculateDiffs_same_snapshot.
  - intros a b. split; [apply stringify_inj|by intros ->].
  - exact calculateDiffs_same_snapshot.
Qed.

(** What the operations emitted for one identifier do to its state. *)
Lemma applyDiffs_diffCurrent previous m e a :
  m !! e = snapshot previous !! e →
  applyDiffs m (diffCurrent (byEmail previous) (e, a)) !! e = Some a.
Proof.
  intros Hm. unfold diffCurrent; simpl. rewrite byEmail_get.
  destruct (snapshot previous !! e) as [prev|] eqn:Hprev.
  - case_decide as Hne; simpl.
    + unfold applyDiff; simpl. by rewrite lookup_insert_eq.
    + rewrite Hm. f_equal. apply stringify_inj.
      destruct (decide (stringify prev = stringify a)); [done|by destruct Hne].
  - simpl. unfold applyDiff; simpl. by rewrite lookup_insert_eq.
Qed.

Lemma applyDiffs_calculateDiffs previous current :
  applyDiffs (snapshot previous) (calculateDiffs previous current) = snapshot current.
Proof.
  apply map_eq. intros e.
  rewrite calculateDiffs_spec, applyDiffs_app.
  destruct (snapshot current !! e) as [a|] eqn:Hcur.
  - (* [e] is in the current snapshot: no remove, and its entry decides *)
    rewrite applyDiffs_lookup_notin.
    + rewrite (applyDiffs_concat_lookup _ (diffCurrent_email _) _ _ e a);
        [|apply byEmail_NoDup|by apply byEmail_elem].
      by apply applyDiffs_diffCurrent.
    + intros d (ds & Hd & ([k v] & -> & Hkv)%list_elem_of_fmap)%elem_of_concat Heq.
      unfold diffPrevious in Hd; simpl in Hd.
      destruct (jsmap_has k (byEmail current)) eqn:Hhas;
        [by apply elem_of_nil in Hd|].
      apply list_elem_of_singleton in Hd as ->. simpl in Heq. subst k.
      apply jsmap_has_false, jsmap_get_None in Hhas.
      rewrite byEmail_get in Hhas. congruence.
  - (* [e] is not in the current snapshot: the first loop leaves it alone *)
    assert (applyDiffs (snapshot previous)
              (concat (diffCurrent (byEmail previous) <$> byEmail current)) !! e
            = snapshot previous !! e) as Hfirst.
    { apply applyDiffs_lookup_notin.
      intros d Hd%(concat_emails _ (diffCurrent_email _)) Heq.
      rewrite Heq in Hd. apply jsmap_get_None in Hd; [done|].
      by rewrite byEmail_get. }
    destruct (snapshot previous !! e) as [p|] eqn:Hprev.
    + rewrite (applyDiffs_concat_lookup _ (diffPrevious_email _) _ _ e p);
        [|apply byEmail_NoDup|by apply byEmail_elem].
      unfold diffPrevious; simpl.
      assert (jsmap_has e (byEmail current) = false) as ->.
      { apply jsmap_has_false, jsmap_get_None. by rewrite byEmail_get. }
      simpl. unfold applyDiff; simpl. by rewrite lookup_delete_eq.
    + rewrite applyDiffs_lookup_notin; [done|].
      intros d Hd%(concat_emails _ (diffPrevious_email _)) Heq.
      rewrite Heq in Hd. apply jsmap_get_None in Hd; [done|].
      by rewrite byEmail_get.
Qed.

Lemma snapshot_Some accs e a : snapshot accs !! e = Some a → a ∈ accs ∧ email a = e.
Proof.
  rewrite snapshot_lookup. unfold lastWithEmail.
  intros H%last_Some_elem_of. by apply list_elem_of_filter in H as [? ?].
Qed.

(** With one record per email, a snapshot and its identifier-keyed
    collection hold the same records. *)
Lemma snapshot_exact accs a :
  NoDup (email <$> accs) → a ∈ accs ↔ snapshot accs !! email a = Some a.
Proof.
  induction accs as [|x accs IH] using rev_ind; intros Hnd.
  - split; [by intros ?%elem_of_nil|done].
  - rewrite fmap_app in Hnd. apply NoDup_app in Hnd as (Hnd & Hx & _).
    rewrite snapshot_snoc, elem_of_app, list_elem_of_singleton, lookup_insert.
    case_decide as Hemail.
    + split; [|by intros [= ->]; right].
      intros [Ha| ->]; [|done]. exfalso. apply (Hx (email a)).
      * apply list_elem_of_fmap. by exists a.
      * rewrite <- Hemail. csimpl. apply list_elem_of_here.
    + rewrite <- (IH Hnd). split; [|by left].
      intros [Ha| ->]; [done|by destruct Hemail].
Qed.

Lemma diffCurrent_payload previous current d :
  d ∈ concat (diffCurrent (byEmail previous) <$> byEmail current) →
  snapshot current !! diff_email d = (if op d is op_add then account d else changes d)
  ∧ is_Some (snapshot current !! diff_email d)
  ∧ op d ≠ op_remove
  ∧ (op d = op_add → snapshot previous !! diff_email d = None).
Proof.
  intros (ds & Hd & ([k v] & -> & Hkv)%list_elem_of_fmap)%elem_of_concat.
  apply byEmail_elem in Hkv. unfold diffCurrent in Hd; simpl in Hd.
  rewrite byEmail_get in Hd.
  destruct (snapshot previous !! k) as [prev|] eqn:Hprev.
  - case_decide; [|by apply elem_of_nil in Hd].
    apply list_elem_of_singleton in Hd as ->; simpl. by rewrite Hkv.
  - apply list_elem_of_singleton in Hd as ->; simpl. by rewrite Hkv.
Qed.

Lemma diffPrevious_payload previous current d :
  d ∈ concat (diffPrevious (byEmail current) <$> byEmail previous) →
  d = removeOf (diff_email d)
  ∧ snapshot current !! diff_email d = None
  ∧ is_Some (snapshot previous !! diff_email d).
Proof.
  intros (ds & Hd & ([k v] & -> & Hkv)%list_elem_of_fmap)%elem_of_concat.
  apply byEmail_elem in Hkv. unfold diffPrevious in Hd; simpl in Hd.
  destruct (jsmap_has k (byEmail current)) eqn:Hhas; [by apply elem_of_nil in Hd|].
  apply list_elem_of_singleton in Hd as ->; simpl.
  apply jsmap_has_false, jsmap_get_None in Hhas. rewrite byEmail_get in Hhas.
  by rewrite Hkv.
Qed.

(** C2. Round trip: applying the emitted operations to the previous
    snapshot, keyed by identifier (an add inserts the account it carries, an
    update replaces the account by the state it carries, a remove deletes the
    identifier) gives the current snapshot.  Each add and each update carries
    the whole current state of its identifier, and each remove names an
    identifier that the current snapshot lacks. *)
Theorem diff_round_trip (previous current : list LocalAccount) :
  applyDiffs (snapshot previous) (calculateDiffs previous current) = snapshot current
  ∧ (∀ d, d ∈ calculateDiffs previous current →
       match op d with
       | op_add =>
           is_Some (account d) ∧ account d = snapshot current !! diff_email d
       | op_update =>
           is_Some (changes d) ∧ changes d = snapshot current !! diff_email d
       | op_remove =>
           snapshot current !! diff_email d = None
       end).
Proof.
  split; [apply applyDiffs_calculateDiffs|].
  intros d. rewrite calculateDiffs_spec, elem_of_app.
  intros [Hd|Hd].
  - apply diffCurrent_payload in Hd as (Hpay & Hsome & Hop & _).
    destruct (op d); [| |done]; by rewrite <- Hpay.
  - apply diffPrevious_payload in Hd as (-> & Hnone & _). done.
Qed.

(** With one record per email in the current snapshot, the collection
    obtained holds exactly the records of the current snapshot. *)
Lemma diff_round_trip_records previous current a :
  NoDup (email <$> current) →
  a ∈ current ↔
  applyDiffs (snapshot previous) (calculateDiffs previous current) !! email a = Some a.
Proof. intros Hnd. rewrite applyDiffs_calculateDiffs. by apply snapshot_exact. Qed.

(** *** One operation per identifier *)

Lemma calculateDiffs_emails_NoDup previous current :
  NoDup (diff_email <$> calculateDiffs previous current).
Proof.
  rewrite calculateDiffs_spec, fmap_app. apply NoDup_app. split_and!.
  - apply concat_emails_NoDup;
      [apply diffCurrent_email|apply diffCurrent_length|apply byEmail_NoDup].
  - intros e (d & -> & Hd)%list_elem_of_fmap (d' & Heq & Hd')%list_elem_of_fmap.
    apply diffCurrent_payload in Hd as (_ & [a Ha] & _).
    apply diffPrevious_payload in Hd' as (_ & Hnone & _).
    rewrite Heq in Ha. congruence.
  - apply concat_emails_NoDup;
      [apply diffPrevious_email|apply diffPrevious_length|apply byEmail_NoDup].
Qed.

Lemma jsmap_entries_of_values (m : JsMap LocalAccount) :
  (∀ k a, (k, a) ∈ m → email a = k) →
  (λ a, (email a, a)) <$> jsmap_values m = m ∧ email <$> jsmap_values m = m.*1.
Proof.
  unfold jsmap_values. induction m as [|[k a] m IH]; intros Hm; csimpl; [done|].
  rewrite (Hm k a) by apply list_elem_of_here.
  destruct IH as [-> ->]; [|done].
  intros k' a' Hin. apply Hm. by apply list_elem_of_further.
Qed.

(** Rebuilding the map from its values gives the same map. *)
Lemma byEmail_values accs : byEmail (jsmap_values (byEmail accs)) = byEmail accs.
Proof.
  destruct (jsmap_entries_of_values (byEmail accs)) as [Hentries _].
  { intros k a. apply byEmail_entry. }
  unfold byEmail at 1. rewrite Hentries.
  apply jsmap_new_NoDup_id, byEmail_NoDup.
Qed.

Lemma byEmail_values_NoDup accs : NoDup (email <$> jsmap_values (byEmail accs)).
Proof.
  destruct (jsmap_entries_of_values (byEmail accs)) as [_ ->].
  { intros k a. apply byEmail_entry. }
  apply byEmail_NoDup.
Qed.

Lemma byEmail_values_last accs a :
  a ∈ jsmap_values (byEmail accs) ↔ lastWithEmail (email a) accs = Some a.
Proof.
  rewrite <- snapshot_lookup, <- byEmail_elem. unfold jsmap_values. split.
  - intros ([k a'] & -> & Hin)%list_elem_of_fmap. simpl.
    by rewrite (byEmail_entry _ _ _ Hin).
  - intros Hin. apply list_elem_of_fmap. by exists (email a, a).
Qed.

Section earlier_duplicate.
Context (k : string).

Lemma agreeExcept_refl m : agreeExcept k m m.
Proof. induction m; constructor; done. Qed.

Lemma agreeExcept_set_same m v v' :
  agreeExcept k (jsmap_set k v m) (jsmap_set k v' m).
Proof.
  induction m as [|[k0 v0] m IH]; simpl.
  - constructor; [done|constructor].
  - case_decide.
    + constructor; [done|apply agreeExcept_refl].
    + constructor; done.
Qed.

Lemma agreeExcept_set_other m1 m2 k0 v :
  agreeExcept k m1 m2 → agreeExcept k (jsmap_set k0 v m1) (jsmap_set k0 v m2).
Proof.
  induction 1 as [|[k1 v1] [k2 v2] m1 m2 [Hk Hv] Hm IH]; simpl in *.
  - constructor; [done|constructor].
  - subst k2. case_decide; constructor; done.
Qed.

Lemma agreeExcept_eq m1 m2 : agreeExcept k m1 m2 → k ∉ m1.*1 → m1 = m2.
Proof.
  induction 1 as [|[k1 v1] [k2 v2] m1 m2 [Hk Hv] Hm IH]; csimpl in *; [done|].
  rewrite not_elem_of_cons. intros [Hne Hnotin]. subst k2.
  rewrite Hv by done. by rewrite IH.
Qed.

Lemma agreeExcept_set_key m1 m2 v :
  agreeExcept k m1 m2 → NoDup m1.*1 → k ∈ m1.*1 →
  jsmap_set k v m1 = jsmap_set k v m2.
Proof.
  induction 1 as [|[k1 v1] [k2 v2] m1 m2 [Hk Hv] Hm IH]; csimpl in *.
  - by intros _ ?%elem_of_nil.
  - subst k2. intros [Hk1 Hnd]%NoDup_cons Hin. case_decide as Hkk.
    + subst k1. f_equal. by apply agreeExcept_eq.
    + apply elem_of_cons in Hin as [?|Hin]; [done|].
      rewrite Hv by done. by rewrite IH.
Qed.

Lemma agreeExcept_fold (entries : list (string * LocalAccount)) m1 m2 :
  agreeExcept k m1 m2 → NoDup m1.*1 → k ∈ m1.*1 → k ∈ entries.*1 →
  foldl (λ m kv, jsmap_set kv.1 kv.2 m) m1 entries
  = foldl (λ m kv, jsmap_set kv.1 kv.2 m) m2 entries.
Proof.
  revert m1 m2. induction entries as [|[k0 v0] entries IH];
    intros m1 m2 Hag Hnd Hk Hin; csimpl in *.
  - by apply elem_of_nil in Hin.
  - destruct (decide (k = k0)) as [<-|Hne].
    + by rewrite (agreeExcept_set_key m1 m2).
    + apply elem_of_cons in Hin as [?|Hin]; [done|].
      apply IH; [by apply agreeExcept_set_other|by apply jsmap_set_NoDup| |done].
      rewrite jsmap_set_keys. case_decide; [done|].
      apply elem_of_app. by left.
Qed.
End earlier_duplicate.

(** A record followed by another record with the same email does not reach
    the map. *)
Lemma byEmail_earlier_duplicate l1 a a' l2 :
  email a = email a' → email a ∈ email <$> l2 →
  byEmail (l1 ++ a :: l2) = byEmail (l1 ++ a' :: l2).
Proof.
  intros Heq Hin. unfold byEmail, jsmap_new.
  rewrite !fmap_app, !foldl_app. csimpl. rewrite <- Heq.
  apply (agreeExcept_fold (email a)).
  - apply agreeExcept_set_same.
  - apply jsmap_set_NoDup, jsmap_fold_NoDup, NoDup_nil_2.
  - apply jsmap_has_true. unfold jsmap_has. rewrite jsmap_get_set.
    rewrite decide_True by done. apply bool_decide_eq_true. by eexists.
  - by rewrite <- list_fmap_compose.
Qed.

(** C10. The diff holds at most one operation per identifier (the
    identifiers of its operations are pairwise distinct).  A snapshot takes
    part only through its map by email: the diff is the diff of the values
    of the two maps, which hold one record per email, namely the last record
    of the snapshot with that email; replacing a record that is followed by
    another record with the same email changes no diff. *)
Theorem one_operation_per_identifier (previous current : list LocalAccount) :
  NoDup (diff_email <$> calculateDiffs previous current)
  ∧ calculateDiffs previous current
    = calculateDiffs (jsmap_values (byEmail previous)) (jsmap_values (byEmail current))
  ∧ (∀ accs,
       NoDup (email <$> jsmap_values (byEmail accs))
       ∧ ∀ a, a ∈ jsmap_values (byEmail accs) ↔ lastWithEmail (email a) accs = Some a)
  ∧ (∀ l1 a a' l2,
       email a = email a' → email a ∈ email <$> l2 →
       calculateDiffs (l1 ++ a :: l2) current = calculateDiffs (l1 ++ a' :: l2) current
       ∧ calculateDiffs previous (l1 ++ a :: l2) = calculateDiffs previous (l1 ++ a' :: l2)).
Proof.
  split; [apply calculateDiffs_emails_NoDup|]. split; [|split].
  - unfold calculateDiffs. by rewrite !byEmail_values.
  - intros accs. split; [apply byEmail_values_NoDup|].
    intros a. apply byEmail_values_last.
  - intros l1 a a' l2 Heq Hin. unfold calculateDiffs.
    by rewrite (byEmail_earlier_duplicate l1 a a' l2).
Qed.

(** ** The registry loader *)

(** C4. A load whose content fails to parse leaves the service as it was:
    [processedAccounts] and [lastData] are unchanged, and nothing is emitted
    (no [accounts_loaded], no [accounts_changed]). *)
Theorem malformed_load_keeps_state
    (parse : string → option RawAccountsFile) (now : Z) (content : string)
    (s : Service) :
  parse content = None →
  loadAccountsFile parse now (Some content) s = (Normal (), s, []).
Proof.
  intros Hparse. unfold loadAccountsFile, try_catch, bind, JSON_parse.
  rewrite Hparse. reflexivity.
Qed.

Lemma malformed_load_keeps_state_witness :
  sampleParse "{ not json" = None
  ∧ loadAccountsFile sampleParse 5 (Some "{ not json") sampleService
    = (Normal (), sampleService, []).
Proof.
  split; [reflexivity|].
  apply (malformed_load_keeps_state sampleParse 5 "{ not json" sampleService).
  reflexivity.
Defined.

(** A load of a missing file empties the service and emits exactly one
    event, [accounts_loaded] with the empty list. *)
Lemma absent_load parse now s :
  loadAccountsFile parse now None s
  = (Normal (), {| lastData := None; processedAccounts := [] |}, [accounts_loaded []]).
Proof. reflexivity. Qed.

(** C5, as stated, fails: with one account loaded, the load of a missing
    file emits no remove event for it. *)
Lemma absent_load_emits_no_remove :
  processedAccounts sampleService ≠ []
  ∧ ¬ removesAll (processedAccounts sampleService)
        (eventsOf (loadAccountsFile sampleParse 5 None) sampleService).
Proof.
  split; [discriminate|].
  intros Hall.
  assert (∃ a, a ∈ processedAccounts sampleService) as [a Ha].
  { eexists. unfold sampleService, processAccounts. simpl. apply list_elem_of_here. }
  destruct (Hall a Ha) as (diffs & Hev & _).
  unfold eventsOf in Hev. rewrite absent_load in Hev. simpl in Hev.
  apply list_elem_of_singleton in Hev. discriminate Hev.
Qed.

(** C5 (amended). A load with the registry file absent is an explicit empty
    state, not an error: it completes normally, the processed account list
    becomes empty and [lastData] becomes null, and exactly one event is
    emitted, [accounts_loaded] with the empty list, whether or not accounts
    existed before; no [accounts_changed] event is emitted. *)
Theorem absent_load_is_empty_state
    (parse : string → option RawAccountsFile) (now : Z) (s : Service) :
  loadAccountsFile parse now None s
    = (Normal (), {| lastData := None; processedAccounts := [] |}, [accounts_loaded []])
  ∧ processedAccounts (stateAfter (loadAccountsFile parse now None) s) = []
  ∧ lastData (stateAfter (loadAccountsFile parse now None) s) = None
  ∧ eventsOf (loadAccountsFile parse now None) s = [accounts_loaded []]
  ∧ (∀ diffs, accounts_changed diffs ∉ eventsOf (loadAccountsFile parse now None) s).
Proof.
  split_and!; try reflexivity.
  intros diffs Hin. unfold eventsOf in Hin. rewrite absent_load in Hin.
  apply list_elem_of_singleton in Hin. discriminate Hin.
Qed.

(** ** The status clock *)

Lemma expired_test reset now : (Z.max 0 (reset - now) =? 0) = bool_decide (reset ≤ now).
Proof.
  case_bool_decide.
  - apply Z.eqb_eq. lia.
  - apply Z.eqb_neq. lia.
Qed.

Lemma updateFamily_Some now who f info :
  updateFamily now who f (Some info)
  = (Some {| resetTime := resetTime info;
             timeUntilReset := Z.max 0 (resetTime info - now);
             isExpired := bool_decide (resetTime info ≤ now) |},
     if negb (isExpired info) && bool_decide (resetTime info ≤ now)
     then [rate_limit_cleared who f] else [],
     negb (isExpired info) && bool_decide (resetTime info ≤ now)).
Proof. unfold updateFamily, updateTimer. simpl. by rewrite expired_test. Qed.

Lemma tickedAccount_email now a : email (tickedAccount now a) = email a.
Proof.
  unfold tickedAccount, updateAccount.
  destruct (updateFamily now (email a) Claude _) as [[c evc] chc].
  destruct (updateFamily now (email a) Gemini _) as [[g evg] chg].
  simpl. by case_bool_decide.
Qed.

Lemma tickedAccount_family now f a :
  familyInfo f (tickedAccount now a)
  = (updateFamily now (email a) f (familyInfo f a)).1.1.
Proof.
  unfold tickedAccount, updateAccount.
  destruct (updateFamily now (email a) Claude _) as [[c evc] chc] eqn:Hc.
  destruct (updateFamily now (email a) Gemini _) as [[g evg] chg] eqn:Hg.
  destruct f; simpl; [rewrite Hc|rewrite Hg]; by case_bool_decide.
Qed.

Lemma tickEvents_families now a :
  tickEvents now a
  = (updateFamily now (email a) Claude (familyInfo Claude a)).1.2
    ++ (updateFamily now (email a) Gemini (familyInfo Gemini a)).1.2.
Proof.
  unfold tickEvents, updateAccount. simpl.
  destruct (updateFamily now (email a) Claude _) as [[c evc] chc].
  destruct (updateFamily now (email a) Gemini _) as [[g evg] chg].
  reflexivity.
Qed.

Lemma tickedAccount_family_Some now f a info :
  familyInfo f a = Some info →
  familyInfo f (tickedAccount now a)
  = Some {| resetTime := resetTime info;
            timeUntilReset := Z.max 0 (resetTime info - now);
            isExpired := bool_decide (resetTime info ≤ now) |}.
Proof. intros H. by rewrite tickedAccount_family, H, updateFamily_Some. Qed.

Lemma tickedAccount_family_None now f a :
  familyInfo f a = None → familyInfo f (tickedAccount now a) = None.
Proof. intros H. by rewrite tickedAccount_family, H. Qed.

(** After a tick the flags are those of the clock just read, whatever they
    were before. *)
Lemma tickedAccount_consistent now a : consistentAt now (tickedAccount now a).
Proof.
  intros f info'. destruct (familyInfo f a) as [info|] eqn:Hf.
  - rewrite (tickedAccount_family_Some _ _ _ _ Hf). by intros [= <-].
  - by rewrite (tickedAccount_family_None _ _ _ Hf).
Qed.

Lemma processAccount_consistent now data index raw :
  consistentAt now (processAccount now data index raw).
Proof.
  intros f info. unfold processAccount, buildRateLimit.
  destruct f; simpl.
  - destruct (truthy _); [|done]. intros [= <-]; simpl.
    case_bool_decide; [by apply Z.leb_le|by apply Z.leb_gt; lia].
  - destruct (truthy (chain (rateLimitResetTimes raw) forGemini)); [|done].
    intros [= <-]; simpl.
    case_bool_decide; [by apply Z.leb_le|by apply Z.leb_gt; lia].
Qed.

(** *** Counting the notifications *)

Lemma clearedCount_app e f evs1 evs2 :
  clearedCount e f (evs1 ++ evs2) = (clearedCount e f evs1 + clearedCount e f evs2)%nat.
Proof. unfold clearedCount. by rewrite filter_app, length_app. Qed.

Lemma clearedCount_family now who f' field e f :
  clearedCount e f (updateFamily now who f' field).1.2
  = if decide (e = who ∧ f = f')
    then (if (updateFamily now who f' field).2 then 1 else 0)%nat
    else 0%nat.
Proof.
  destruct field as [info|]; [rewrite updateFamily_Some|]; simpl.
  - destruct (negb (isExpired info) && bool_decide (resetTime info ≤ now)).
    + unfold clearedCount. rewrite filter_cons, filter_nil.
      case_decide as Hev; case_decide as Hef; try done.
      * destruct Hef. by injection Hev as -> ->.
      * destruct Hev. by destruct Hef as [-> ->].
    + by case_decide.
  - by case_decide.
Qed.

Lemma updateFamily_changed now who f a :
  (updateFamily now who f (familyInfo f a)).2 = flips now f a.
Proof.
  unfold flips. destruct (familyInfo f a) as [info|]; [|done].
  by rewrite updateFamily_Some.
Qed.

(** A tick of an account emits the notification of a family exactly when the
    family flips, and none for another email. *)
Lemma clearedCount_tick now a e f :
  clearedCount e f (tickEvents now a)
  = if decide (e = email a) then (if flips now f a then 1 else 0)%nat else 0%nat.
Proof.
  rewrite tickEvents_families, clearedCount_app, !clearedCount_family.
  rewrite !updateFamily_changed.
  destruct (decide (e = email a)) as [->|Hne].
  - destruct f.
    + rewrite decide_True, decide_False by (by intros [_ ?] || done).
      destruct (flips now Claude a); lia.
    + rewrite decide_False, decide_True by (by intros [_ ?] || done).
      destruct (flips now Gemini a); lia.
  - by rewrite !decide_False by (by intros [? _]).
Qed.

Lemma accountRun_email nows a : email (accountRun nows a).1 = email a.
Proof.
  revert a. induction nows as [|now rest IH]; intros a; simpl; [done|].
  specialize (IH (tickedAccount now a)).
  destruct (accountRun rest (tickedAccount now a)) as [a' evs]. simpl in *.
  by rewrite IH, tickedAccount_email.
Qed.

Lemma accountRun_cons now rest a :
  accountRun (now :: rest) a
  = ((accountRun rest (tickedAccount now a)).1,
     tickEvents now a ++ (accountRun rest (tickedAccount now a)).2).
Proof. simpl. by destruct (accountRun rest (tickedAccount now a)). Qed.

(** An account of another email contributes nothing. *)
Lemma clearedCount_other_email nows a e f :
  e ≠ email a → clearedCount e f (accountRun nows a).2 = 0%nat.
Proof.
  revert a. induction nows as [|now rest IH]; intros a Hne; [done|].
  rewrite accountRun_cons. cbn [snd].
  rewrite clearedCount_app, clearedCount_tick, decide_False by done.
  apply IH. by rewrite tickedAccount_email.
Qed.

(** Once expired, with the clock at or after the reset epoch from then on,
    nothing more is emitted. *)
Lemma clearedCount_expired nows a f info :
  familyInfo f a = Some info → isExpired info = true →
  Forall (λ now, resetTime info ≤ now) nows →
  clearedCount (email a) f (accountRun nows a).2 = 0%nat.
Proof.
  revert a info. induction nows as [|now rest IH]; intros a info Hf Hexp Hall; [done|].
  apply Forall_cons in Hall as [Hnow Hall].
  rewrite accountRun_cons. cbn [snd].
  rewrite clearedCount_app, clearedCount_tick, decide_True by done.
  unfold flips. rewrite Hf, Hexp. simpl.
  rewrite <- (tickedAccount_email now a).
  eapply IH.
  - by apply tickedAccount_family_Some.
  - simpl. by apply bool_decide_eq_true.
  - done.
Qed.

(** From a family that is not expired, a run with a clock that never goes
    back emits one notification if it reaches the reset epoch, none if not. *)
Lemma clearedCount_run nows a f info :
  familyInfo f a = Some info → isExpired info = false →
  StronglySorted Z.le nows →
  clearedCount (email a) f (accountRun nows a).2
  = if reaches (resetTime info) nows then 1%nat else 0%nat.
Proof.
  revert a info. induction nows as [|now rest IH]; intros a info Hf Hexp Hsorted; [done|].
  apply StronglySorted_inv in Hsorted as [Hsorted Hle].
  rewrite accountRun_cons. cbn [snd].
  rewrite clearedCount_app, clearedCount_tick, decide_True by done.
  unfold flips, reaches. rewrite Hf, Hexp. simpl.
  rewrite <- (tickedAccount_email now a).
  pose proof (tickedAccount_family_Some now f a info Hf) as Hf'.
  case_bool_decide as Hnow; simpl.
  - rewrite (clearedCount_expired _ _ _ _ Hf'); [done|done|].
    simpl. eapply Forall_impl; [exact Hle|]. simpl. intros; lia.
  - by rewrite (IH _ _ Hf').
Qed.

(** Whatever the flags at the start, such a run emits at most one. *)
Lemma clearedCount_at_most_one nows a f :
  StronglySorted Z.le nows →
  (clearedCount (email a) f (accountRun nows a).2 ≤ 1)%nat.
Proof.
  intros Hsorted. destruct nows as [|now rest]; [simpl; unfold clearedCount; simpl; lia|].
  apply StronglySorted_inv in Hsorted as [Hsorted Hle].
  rewrite accountRun_cons. cbn [snd].
  rewrite clearedCount_app, clearedCount_tick, decide_True by done.
  rewrite <- (tickedAccount_email now a).
  unfold flips. destruct (familyInfo f a) as [info|] eqn:Hf.
  - pose proof (tickedAccount_family_Some now f a info Hf) as Hf'.
    destruct (decide (resetTime info ≤ now)) as [Hnow|Hnow].
    + rewrite (clearedCount_expired _ _ _ _ Hf').
      * destruct (_ && _); lia.
      * simpl. by apply bool_decide_eq_true.
      * simpl. eapply Forall_impl; [exact Hle|]. simpl. intros; lia.
    + rewrite (bool_decide_eq_false_2 _ Hnow), andb_false_r.
      rewrite (clearedCount_run _ _ _ _ Hf'); [| |done].
      * destruct (reaches _ _); lia.
      * simpl. by apply bool_decide_eq_false.
  - clear Hle. assert (∀ l b, familyInfo f b = None →
                 clearedCount (email b) f (accountRun l b).2 = 0%nat) as Hnone.
    { induction l as [|t l IHl]; intros b Hb; [done|].
      rewrite accountRun_cons. cbn [snd].
      rewrite clearedCount_app, clearedCount_tick, decide_True by done.
      unfold flips. rewrite Hb. simpl.
      rewrite <- (tickedAccount_email t b). apply IHl.
      by apply tickedAccount_family_None. }
    rewrite Hnone; [lia|]. by apply tickedAccount_family_None.
Qed.

(** *** The service through a run of the clock *)

Lemma updateRateLimitTimers_run now s :
  updateRateLimitTimers now s
  = (Normal (existsb (tickChanged now) (processedAccounts s)),
     {| lastData := lastData s;
        processedAccounts := tickedAccount now <$> processedAccounts s |},
     concat (tickEvents now <$> processedAccounts s)).
Proof.
  unfold updateRateLimitTimers, bind, getProcessedAccounts.
  by rewrite updateAccounts_spec.
Qed.

Lemma rateLimitUpdater_state now s :
  stateAfter (rateLimitUpdater now) s
  = {| lastData := lastData s;
       processedAccounts := tickedAccount now <$> processedAccounts s |}.
Proof.
  unfold stateAfter, rateLimitUpdater, bind. rewrite updateRateLimitTimers_run.
  by destruct (existsb _ _).
Qed.

Lemma rateLimitUpdater_events now s :
  eventsOf (rateLimitUpdater now) s
  = concat (tickEvents now <$> processedAccounts s)
    ++ (if existsb (tickChanged now) (processedAccounts s)
        then [rate_limits_updated (tickedAccount now <$> processedAccounts s)]
        else []).
Proof.
  unfold eventsOf, rateLimitUpdater, bind. rewrite updateRateLimitTimers_run.
  by destruct (existsb _ _).
Qed.

Lemma runTicks_cons now rest s :
  runTicks (now :: rest) s
  = ((runTicks rest (stateAfter (rateLimitUpdater now) s)).1,
     eventsOf (rateLimitUpdater now) s
     ++ (runTicks rest (stateAfter (rateLimitUpdater now) s)).2).
Proof. simpl. by destruct (runTicks rest _). Qed.

Lemma clearedCount_absent_email now accs e f :
  e ∉ email <$> accs → clearedCount e f (concat (tickEvents now <$> accs)) = 0%nat.
Proof.
  induction accs as [|b accs IH]; csimpl; [done|].
  rewrite not_elem_of_cons. intros [Hne Hnotin].
  rewrite clearedCount_app, clearedCount_tick, decide_False by done.
  by apply IH.
Qed.

(** With one account per email, the notifications of an email in a tick of
    the service are those of its account. *)
Lemma clearedCount_service_tick now accs a f :
  NoDup (email <$> accs) → a ∈ accs →
  clearedCount (email a) f (concat (tickEvents now <$> accs))
  = clearedCount (email a) f (tickEvents now a).
Proof.
  induction accs as [|b accs IH]; csimpl; intros Hnd Hin.
  - by apply elem_of_nil in Hin.
  - apply NoDup_cons in Hnd as [Hb Hnd]. rewrite clearedCount_app.
    apply elem_of_cons in Hin as [->|Hin].
    + by rewrite clearedCount_absent_email, Nat.add_0_r.
    + rewrite IH by done.
      rewrite (clearedCount_tick now b), decide_False; [done|].
      intros Heq. apply Hb. rewrite <- Heq. apply list_elem_of_fmap. by exists a.
Qed.

Lemma runTicks_account nows s a f :
  NoDup (email <$> processedAccounts s) → a ∈ processedAccounts s →
  clearedCount (email a) f (runTicks nows s).2
    = clearedCount (email a) f (accountRun nows a).2
  ∧ (accountRun nows a).1 ∈ processedAccounts (runTicks nows s).1.
Proof.
  revert s a. induction nows as [|now rest IH]; intros s a Hnd Hin; [done|].
  rewrite runTicks_cons, accountRun_cons. cbn [fst snd].
  rewrite !clearedCount_app, rateLimitUpdater_events, clearedCount_app.
  rewrite clearedCount_service_tick by done.
  destruct (IH (stateAfter (rateLimitUpdater now) s) (tickedAccount now a))
    as [Hcount Hfinal].
  { rewrite rateLimitUpdater_state. cbn [processedAccounts].
    rewrite <- list_fmap_compose.
    erewrite list_fmap_ext; [exact Hnd|]. intros ? b _. apply tickedAccount_email. }
  { rewrite rateLimitUpdater_state. cbn [processedAccounts].
    apply list_elem_of_fmap. by exists a. }
  rewrite tickedAccount_email in Hcount. rewrite Hcount. split; [|done].
  assert (clearedCount (email a) f
            (if existsb (tickChanged now) (processedAccounts s)
             then [rate_limits_updated (tickedAccount now <$> processedAccounts s)]
             else []) = 0%nat) as ->; [|lia].
  by destruct (existsb _ _).
Qed.

(** *** Where the account stands when the run ends *)

Lemma accountRun_last nows a t :
  last nows = Some t → ∃ a0, (accountRun nows a).1 = tickedAccount t a0.
Proof.
  revert a. induction nows as [|now rest IH]; intros a Hlast; [done|].
  rewrite accountRun_cons. cbn [fst].
  destruct rest as [|now' rest'].
  - injection Hlast as <-. by exists a.
  - apply IH. by rewrite last_cons_cons in Hlast.
Qed.

Lemma accountRun_epochs nows a g :
  resetTime <$> familyInfo g (accountRun nows a).1 = resetTime <$> familyInfo g a.
Proof.
  revert a. induction nows as [|now rest IH]; intros a; [done|].
  rewrite accountRun_cons. cbn [fst]. rewrite IH.
  destruct (familyInfo g a) as [info|] eqn:Hg.
  - by rewrite (tickedAccount_family_Some _ _ _ _ Hg).
  - by rewrite (tickedAccount_family_None _ _ _ Hg).
Qed.

Lemma reaches_last reset nows :
  StronglySorted Z.le nows → reaches reset nows = true →
  ∃ t, last nows = Some t ∧ reset ≤ t.
Proof.
  induction nows as [|now rest IH]; intros Hsorted Hreach; [done|].
  apply StronglySorted_inv in Hsorted as [Hsorted Hle].
  unfold reaches in Hreach. simpl in Hreach.
  destruct rest as [|now' rest'].
  - exists now. split; [done|].
    rewrite orb_false_r in Hreach. by apply bool_decide_eq_true in Hreach.
  - rewrite last_cons_cons. apply orb_true_iff in Hreach as [Hnow|Hrest].
    + apply bool_decide_eq_true in Hnow.
      destruct (last (now' :: rest')) as [t|] eqn:Ht;
        [|by apply last_None in Ht].
      exists t. split; [done|].
      apply last_Some_elem_of in Ht.
      rewrite Forall_forall in Hle. specialize (Hle t Ht). lia.
    + by apply IH.
Qed.

(** An account whose two epochs, if any, are not after the clock of its last
    tick is available. *)
Lemma passed_epochs_available t a :
  consistentAt t a → status a = calculateAccountStatus a →
  (∀ g info, familyInfo g a = Some info → resetTime info ≤ t) →
  status a = available.
Proof.
  intros Hcons -> Hpassed. unfold calculateAccountStatus.
  assert (∀ g, limited (familyInfo g a) = false) as Hlim.
  { intros g. destruct (familyInfo g a) as [info|] eqn:Hg; [|done]. simpl.
    rewrite (Hcons g info Hg), bool_decide_eq_true_2; [done|]. by eapply Hpassed. }
  pose proof (Hlim Claude) as Hc. pose proof (Hlim Gemini) as Hg.
  simpl in Hc, Hg. by rewrite Hc, Hg.
Qed.

Lemma limitedOnlyIn_other f a :
  calculateAccountStatus a = limitedOnlyIn f →
  limited (familyInfo (otherFamily f) a) = false.
Proof.
  unfold calculateAccountStatus. destruct f; simpl;
    destruct (limited (claude (rateLimits a))), (limited (gemini (rateLimits a)));
    simpl; done.
Qed.

(** In a run with a clock that never goes back, the service emits at most
    one notification per account and family, whatever the flags at the
    start. *)
Lemma rate_limit_cleared_at_most_once s nows a f :
  NoDup (email <$> processedAccounts s) → a ∈ processedAccounts s →
  StronglySorted Z.le nows →
  (clearedCount (email a) f (runTicks nows s).2 ≤ 1)%nat.
Proof.
  intros Hnd Hin Hsorted.
  destruct (runTicks_account nows s a f Hnd Hin) as [-> _].
  by apply clearedCount_at_most_one.
Qed.

(** C8. Take an account of the service (one account per email) and a family
    whose rate-limit info is present and not expired, and any run of the
    status clock whose clock readings never go back; the stored reset epoch
    is never changed by the clock.  If the run reaches the reset epoch, the
    service emits exactly one [rate_limit_cleared] for that account and
    family over the whole run, later ticks included; if it does not, none.
    When the run has reached the epoch the info is expired and the stored
    status is the one the rule derives; an account that was limited in that
    family only (its flags being those of a clock reading [t0] not after the
    run) is then [available]. *)
Theorem rate_limit_cleared_exactly_once
    (s : Service) (nows : list Z) (a : LocalAccount) (f : Family)
    (info : RateLimitInfo) :
  NoDup (email <$> processedAccounts s) →
  a ∈ processedAccounts s →
  familyInfo f a = Some info →
  isExpired info = false →
  StronglySorted Z.le nows →
  clearedCount (email a) f (runTicks nows s).2
    = (if reaches (resetTime info) nows then 1 else 0)%nat
  ∧ (reaches (resetTime info) nows = true →
     ∃ a' info',
       a' ∈ processedAccounts (runTicks nows s).1
       ∧ email a' = email a
       ∧ familyInfo f a' = Some info'
       ∧ resetTime info' = resetTime info
       ∧ isExpired info' = true
       ∧ status a' = calculateAccountStatus a'
       ∧ (∀ t0, consistentAt t0 a → Forall (Z.le t0) nows →
                calculateAccountStatus a = limitedOnlyIn f →
                status a' = available)).
Proof.
  intros Hnd Hin Hf Hexp Hsorted.
  destruct (runTicks_account nows s a f Hnd Hin) as [Hcount Hfinal].
  split; [rewrite Hcount; by apply clearedCount_run|].
  intros Hreach.
  destruct (reaches_last _ _ Hsorted Hreach) as (t & Hlast & Ht).
  destruct (accountRun_last nows a t Hlast) as [a0 Ha0].
  set (a' := (accountRun nows a).1) in *.
  assert (consistentAt t a') as Hcons by (rewrite Ha0; apply tickedAccount_consistent).
  assert (status a' = calculateAccountStatus a') as Hstatus
    by (rewrite Ha0; apply tickedAccount_status).
  pose proof (accountRun_epochs nows a f) as Hepoch. fold a' in Hepoch.
  rewrite Hf in Hepoch.
  destruct (familyInfo f a') as [info'|] eqn:Hf'; [|done].
  injection Hepoch as Hreset.
  exists a', info'. split_and!; try done.
  - apply accountRun_email.
  - rewrite (Hcons f info' Hf'). apply bool_decide_eq_true. lia.
  - intros t0 Hcons0 Ht0 Honly.
    apply (passed_epochs_available t); [done|done|].
    intros g infog Hg.
    pose proof (accountRun_epochs nows a g) as Hepochg. fold a' in Hepochg.
    rewrite Hg in Hepochg.
    destruct (familyInfo g a) as [info0|] eqn:Hg0; [|done].
    injection Hepochg as ->.
    assert (g = f ∨ g = otherFamily f) as [->| ->] by (destruct g, f; auto).
    + rewrite Hf in Hg0. injection Hg0 as <-. done.
    + pose proof (limitedOnlyIn_other f a Honly) as Hlim.
      rewrite Hg0 in Hlim. simpl in Hlim. apply negb_false_iff in Hlim.
      rewrite (Hcons0 _ _ Hg0) in Hlim. apply bool_decide_eq_true in Hlim.
      apply last_Some_elem_of in Hlast.
      rewrite Forall_forall in Ht0. specialize (Ht0 t Hlast). lia.
Qed.

(** C8 does not hold of any sequence of ticks.  The clock of a tick is the
    wall clock, which can be set back: read at 61000, then 15000, then
    76000, with the stored reset epoch 60000 unchanged throughout, the clock
    of the service expires the info, revives it and expires it again, and
    two notifications are emitted for the same account and family, the
    second on a later tick than the first. *)
Example clock_going_back_clears_twice :
  let s1 := stateAfter (rateLimitUpdater 61000) sampleService in
  let s2 := stateAfter (rateLimitUpdater 15000) s1 in
  let s3 := stateAfter (rateLimitUpdater 76000) s2 in
  let flags s :=
    (λ a, (email a, resetTime <$> claude (rateLimits a),
           isExpired <$> claude (rateLimits a), status a)) <$> processedAccounts s in
  flags <$> [sampleService; s1; s2; s3]
  = [[("a@example.com", Some 60000, Some false, rate_limited_claude)];
     [("a@example.com", Some 60000, Some true, available)];
     [("a@example.com", Some 60000, Some false, rate_limited_claude)];
     [("a@example.com", Some 60000, Some true, available)]]
  ∧ clearedCount "a@example.com" Claude (eventsOf (rateLimitUpdater 61000) sampleService)
    = 1%nat
  ∧ clearedCount "a@example.com" Claude (eventsOf (rateLimitUpdater 15000) s1) = 0%nat
  ∧ clearedCount "a@example.com" Claude (eventsOf (rateLimitUpdater 76000) s2) = 1%nat
  ∧ clearedCount "a@example.com" Claude
      (runTicks [61000; 15000; 76000] sampleService).2 = 2%nat.
Proof. by vm_compute. Qed.

(** One account per email: when the registry holds two records with the
    same email, each of the two accounts flips at the same tick, and a run
    with a clock that never goes back emits two notifications for that email
    and family. *)
Example duplicated_email_clears_twice :
  let twice :=
    {| lastData := None;
       processedAccounts :=
         processedAccounts sampleService ++ processedAccounts sampleService |} in
  clearedCount "a@example.com" Claude (runTicks [15000; 61000; 76000] twice).2 = 2%nat.
Proof. by vm_compute. Qed.

(** The property is one of runs of the clock alone: when the registry,
    unchanged, is loaded again between two ticks and after the epoch has
    passed, the builder sets the flag, the account becomes available, and
    neither the load nor the clock, which finds the info expired, emits a
    notification. *)
Example reload_after_epoch_clears_silently :
  let ticked := (runTicks [15000] sampleService).1 in
  let load := loadAccountsFile sampleParse 61000 (Some "registry") in
  let reloaded := stateAfter load ticked in
  eventsOf load ticked
    = [accounts_changed (calculateDiffs (processedAccounts ticked)
                           (processedAccounts reloaded));
       accounts_loaded (processedAccounts reloaded)]
  ∧ status <$> processedAccounts ticked = [rate_limited_claude]
  ∧ status <$> processedAccounts reloaded = [available]
  ∧ clearedCount "a@example.com" Claude (runTicks [15000] sampleService).2 = 0%nat
  ∧ clearedCount "a@example.com" Claude (eventsOf load ticked) = 0%nat
  ∧ clearedCount "a@example.com" Claude (runTicks [76000; 91000] reloaded).2 = 0%nat.
Proof. by vm_compute. Qed.

(** The scenario of one account limited for claude until 60000, built at
    clock 0, ticked at 15000, 61000 and 76000. *)
Lemma rate_limit_cleared_exactly_once_witness :
  clearedCount "a@example.com" Claude
    (runTicks [15000; 61000; 76000] sampleService).2 = 1%nat.
Proof.
  refine (proj1 (rate_limit_cleared_exactly_once sampleService [15000; 61000; 76000]
            (processAccount 0 sampleRegistry 0
               {| raw_email := "a@example.com"; refreshToken := "r1";
                  raw_projectId := None; raw_managedProjectId := None;
                  raw_addedAt := 1000; raw_lastUsed := 2000;
                  rateLimitResetTimes :=
                    Some {| forClaude := Some 60000; forGemini := None |} |})
            Claude
            {| resetTime := 60000; timeUntilReset := 60000; isExpired := false |}
            _ _ _ _ _)).
  - apply NoDup_singleton.
  - apply list_elem_of_here.
  - reflexivity.
  - reflexivity.
  - repeat constructor; lia.
Defined.

(** ** The quota poller *)

Section quota.
Import Quota.
Context (rt : Runtime).

(** *** Aggregation *)

Lemma reduceMin_snoc first rest x :
  reduceMin first (rest ++ [x])
  = if remainingPercent x <? remainingPercent (reduceMin first rest)
    then x else reduceMin first rest.
Proof. unfold reduceMin. by rewrite foldl_app. Qed.

Lemma reduceMin_firstMinimum first rest :
  firstMinimum (reduceMin first rest) (first :: rest).
Proof.
  induction rest as [|x rest IH] using rev_ind.
  - exists [], []. by split_and!.
  - rewrite reduceMin_snoc.
    destruct IH as (before & after & Heq & Hbefore & Hafter).
    rewrite app_comm_cons, Heq.
    destruct (Z.ltb_spec (remainingPercent x) (remainingPercent (reduceMin first rest)))
      as [Hlt|Hge].
    + exists (before ++ reduceMin first rest :: after), []. split_and!; [done| |done].
      apply Forall_app. split; [|apply Forall_cons; split; [done|]].
      * eapply Forall_impl; [exact Hbefore|]. simpl. intros; lia.
      * eapply Forall_impl; [exact Hafter|]. simpl. intros; lia.
    + exists before, (after ++ [x]). split_and!; [by rewrite <- app_assoc|done|].
      apply Forall_app. split; [done|]. by apply Forall_singleton.
Qed.

Lemma firstMinimum_least m ms :
  firstMinimum m ms →
  m ∈ ms ∧ ∀ m', m' ∈ ms → remainingPercent m ≤ remainingPercent m'.
Proof.
  intros (before & after & -> & Hbefore & Hafter). split.
  - apply elem_of_app. right. apply list_elem_of_here.
  - intros m' [Hin|[->|Hin]%elem_of_cons]%elem_of_app; [|done|].
    + rewrite Forall_forall in Hbefore. specialize (Hbefore m' Hin). simpl in *. lia.
    + rewrite Forall_forall in Hafter. by apply Hafter.
Qed.

(** The first minimum of a list is unique. *)
Lemma firstMinimum_unique m1 m2 ms :
  firstMinimum m1 ms → firstMinimum m2 ms → m1 = m2.
Proof.
  intros (b1 & a1 & -> & Hb1 & Ha1) (b2 & a2 & Heq & Hb2 & Ha2).
  revert b2 Heq Hb2. induction b1 as [|x b1 IH]; intros b2 Heq Hb2.
  - destruct b2 as [|y b2]; simplify_eq/=; [done|].
    apply Forall_cons in Hb2 as [Hlt _].
    rewrite Forall_forall in Ha1.
    assert (m2 ∈ b2 ++ m2 :: a2) as Hin
      by (apply elem_of_app; right; apply list_elem_of_here).
    specialize (Ha1 m2 Hin). simpl in *. lia.
  - apply Forall_cons in Hb1 as [Hlt Hb1].
    destruct b2 as [|y b2]; simplify_eq/=.
    + rewrite Forall_forall in Ha2.
      assert (m1 ∈ b1 ++ m1 :: a1) as Hin
        by (apply elem_of_app; right; apply list_elem_of_here).
      specialize (Ha2 m1 Hin). simpl in *. lia.
    + apply Forall_cons in Hb2 as [_ Hb2]. by apply (IH Hb1 b2).
Qed.

Lemma aggregate_firstMinimum ms :
  ms ≠ [] →
  ∃ m, firstMinimum m ms ∧ aggregate ms = (Some (remainingPercent m), resetTimeMs m).
Proof.
  destruct ms as [|first rest]; [done|]. intros _.
  exists (reduceMin first rest). split; [apply reduceMin_firstMinimum|done].
Qed.

(** The families of a result are empty when the fetch failed, and are
    filtered from its models when it succeeded. *)
Lemma fetchQuotaForAccount_families w email refreshToken projectId s f :
  let q := (fetchQuotaForAccount rt w email refreshToken projectId s).1 in
  (familyModels f q ≠ [] → fetchError q = None)
  ∧ claudeModels q = filter (λ m, Is_true (isClaudeModel m)) (models q)
  ∧ geminiModels q = filter (λ m, Is_true (isGeminiModel m)) (models q)
  ∧ familyPercent f q = (aggregate (familyModels f q)).1
  ∧ familyReset f q = (aggregate (familyModels f q)).2.
Proof.
  unfold fetchQuotaForAccount.
  destruct (refreshAccessToken w refreshToken (tokenCache s)) as [accessToken tc].
  destruct (truthyString accessToken) as [token|]; [|by destruct f].
  destruct (fetchAvailableModels w token projectId) as [data|]; [|by destruct f].
  by destruct f.
Qed.

(** C6. In the result of a poll, a family that has at least one model (as
    only a successful fetch gives) has for effective percent the least
    remaining percent of its models, and for reset time the reset time of
    the model that has that least percent, the first such model in the
    order of the response; it is not computed from the reset times. *)
Theorem family_quota_is_minimum
    (w : World) (email refreshToken : string) (projectId : option string)
    (s : QuotaService) (f : Family) :
  let q := (fetchQuotaForAccount rt w email refreshToken projectId s).1 in
  familyModels f q ≠ [] →
  fetchError q = None
  ∧ ∃ m, firstMinimum m (familyModels f q)
         ∧ m ∈ familyModels f q
         ∧ (∀ m', m' ∈ familyModels f q → remainingPercent m ≤ remainingPercent m')
         ∧ familyPercent f q = Some (remainingPercent m)
         ∧ familyReset f q = resetTimeMs m.
Proof.
  intros q Hne.
  destruct (fetchQuotaForAccount_families w email refreshToken projectId s f)
    as (Hok & _ & _ & Hpercent & Hreset).
  fold q in Hok, Hpercent, Hreset.
  split; [by apply Hok|].
  destruct (aggregate_firstMinimum _ Hne) as (m & Hmin & Hagg).
  destruct (firstMinimum_least _ _ Hmin) as [Hin Hleast].
  exists m. rewrite Hpercent, Hreset, Hagg. by split_and!.
Qed.
End quota.

(** The provider of the sample world: the claude family has 70, 40 and 55
    percent left; its percent is 40 and its reset time the one of the
    40-percent model (13), neither the least (10) nor the greatest (20) of
    the family's reset times. *)
Example sample_family_quota :
  let q := (Quota.fetchQuotaForAccount Quota.sampleRuntime Quota.sampleWorld
              "a@example.com" "r1" None Quota.emptyService).1 in
  Quota.resetTimeMs <$> Quota.claudeModels q = [Some 20; Some 13; Some 10]
  ∧ Quota.claudeQuotaPercent q = Some 40
  ∧ Quota.claudeResetTime q = Some 13.
Proof. by vm_compute. Qed.

Lemma family_quota_is_minimum_witness :
  let q := (Quota.fetchQuotaForAccount Quota.sampleRuntime Quota.sampleWorld
              "a@example.com" "r1" None Quota.emptyService).1 in
  Quota.familyModels Claude q ≠ []
  ∧ Quota.fetchError q = None
  ∧ ∃ m, Quota.firstMinimum m (Quota.familyModels Claude q)
         ∧ m ∈ Quota.familyModels Claude q
         ∧ (∀ m', m' ∈ Quota.familyModels Claude q →
                  Quota.remainingPercent m ≤ Quota.remainingPercent m')
         ∧ Quota.familyPercent Claude q = Some (Quota.remainingPercent m)
         ∧ Quota.familyReset Claude q = Quota.resetTimeMs m.
Proof.
  split.
  - vm_compute. discriminate.
  - apply (family_quota_is_minimum Quota.sampleRuntime Quota.sampleWorld
             "a@example.com" "r1" None Quota.emptyService Claude).
    vm_compute. discriminate.
Defined.

Section poll_cycle.
Import Quota.
Context (rt : Runtime) (worlds : nat → World).

(** *** One poll *)

Lemma fetchQuotaForAccount_email w e r p s :
  email (fetchQuotaForAccount rt w e r p s).1 = e.
Proof.
  unfold fetchQuotaForAccount.
  destruct (refreshAccessToken w r (tokenCache s)) as [accessToken tc].
  destruct (truthyString accessToken) as [token|]; [|done].
  by destruct (fetchAvailableModels w token p).
Qed.

(** A poll that records an error leaves the quota cache as it was; a poll
    that records none stores its result under the email, and nothing else. *)
Lemma fetchQuotaForAccount_cache w e r p s :
  match fetchError (fetchQuotaForAccount rt w e r p s).1 with
  | Some _ => cache (fetchQuotaForAccount rt w e r p s).2 = cache s
  | None =>
      cache (fetchQuotaForAccount rt w e r p s).2
      = {| accounts := <[e := (fetchQuotaForAccount rt w e r p s).1]> (accounts (cache s));
           lastFullFetch := lastFullFetch (cache s) |}
  end.
Proof.
  unfold fetchQuotaForAccount.
  destruct (refreshAccessToken w r (tokenCache s)) as [accessToken tc].
  destruct (truthyString accessToken) as [token|]; [|done].
  by destruct (fetchAvailableModels w token p).
Qed.

Lemma tryEndpoints_all_failed w token project endpoints :
  (∀ endpoint, endpoint ∈ endpoints → modelsEndpoint w endpoint token project = Failed) →
  tryEndpoints w token project endpoints = None.
Proof.
  induction endpoints as [|endpoint rest IH]; intros Hall; simpl; [done|].
  rewrite Hall by apply list_elem_of_here.
  apply IH. intros ? ?. apply Hall. by apply list_elem_of_further.
Qed.

(** With no token cached for the credential, a token endpoint that fails
    makes the token stage fail. *)
Lemma tokenFails_endpoint_down w account s :
  tokenCache s !! acc_refreshToken account = None →
  tokenEndpoint w (acc_refreshToken account) = Failed →
  tokenFails w account s.
Proof.
  intros Hcache Hdown. unfold tokenFails, refreshAccessToken.
  by rewrite Hcache, Hdown.
Qed.

Lemma pollFails_fetchError w account s :
  pollFails w account s →
  is_Some (fetchError (fetchQuotaForAccount rt w (acc_email account)
                         (acc_refreshToken account) (acc_projectId account) s).1).
Proof.
  unfold pollFails, tokenFails, endpointsFail, fetchQuotaForAccount.
  destruct (refreshAccessToken w (acc_refreshToken account) (tokenCache s))
    as [accessToken tc]. simpl.
  intros [->|(token & -> & Hall)]; [by eexists|].
  unfold fetchAvailableModels. rewrite tryEndpoints_all_failed by done. by eexists.
Qed.

(** *** The cycle *)

Lemma pollFrom_cons i account rest s :
  pollFrom rt worlds i (account :: rest) s
  = let step := fetchQuotaForAccount rt (worlds i) (acc_email account)
                  (acc_refreshToken account) (acc_projectId account) s in
    (step.1 :: (pollFrom rt worlds (S i) rest step.2).1,
     (pollFrom rt worlds (S i) rest step.2).2).
Proof.
  simpl. destruct (fetchQuotaForAccount _ _ _ _ _ _) as [q s1]. simpl.
  by destruct (pollFrom rt worlds (S i) rest s1).
Qed.

Lemma pollFrom_app i accs1 accs2 s :
  pollFrom rt worlds i (accs1 ++ accs2) s
  = ((pollFrom rt worlds i accs1 s).1
       ++ (pollFrom rt worlds (i + length accs1) accs2 (pollFrom rt worlds i accs1 s).2).1,
     (pollFrom rt worlds (i + length accs1) accs2 (pollFrom rt worlds i accs1 s).2).2).
Proof.
  revert i s. induction accs1 as [|account accs1 IH]; intros i s.
  - simpl. rewrite Nat.add_0_r. by destruct (pollFrom rt worlds i accs2 s).
  - rewrite <- app_comm_cons, !pollFrom_cons. cbn zeta. cbn [fst snd].
    rewrite IH. cbn [fst snd length].
    by replace (S i + length accs1)%nat with (i + S (length accs1))%nat by lia.
Qed.

(** Every account of the cycle gets a result, in order. *)
Lemma pollFrom_emails i accs s :
  email <$> (pollFrom rt worlds i accs s).1 = acc_email <$> accs.
Proof.
  revert i s. induction accs as [|account rest IH]; intros i s; [done|].
  rewrite pollFrom_cons. cbn zeta. cbn [fst]. csimpl.
  by rewrite fetchQuotaForAccount_email, IH.
Qed.

(** The record cached for an email is the one from before the cycle unless a
    poll of that email recorded no error. *)
Lemma pollFrom_cache_untouched i accs s e :
  (∀ q, q ∈ (pollFrom rt worlds i accs s).1 → email q = e → is_Some (fetchError q)) →
  accounts (cache (pollFrom rt worlds i accs s).2) !! e = accounts (cache s) !! e.
Proof.
  revert i s. induction accs as [|account rest IH]; intros i s Hall; [done|].
  rewrite pollFrom_cons in Hall |- *. cbn zeta in *. cbn [fst snd] in *.
  rewrite IH by (intros q Hq; apply Hall; by apply list_elem_of_further).
  pose proof (fetchQuotaForAccount_cache (worlds i) (acc_email account)
                (acc_refreshToken account) (acc_projectId account) s) as Hcache.
  destruct (fetchError _) as [msg|] eqn:Herr; rewrite Hcache; [done|].
  simpl. destruct (decide (acc_email account = e)) as [Heq|Hne].
  - destruct (Hall _ (list_elem_of_here _ _)) as [msg Hmsg].
    + by rewrite fetchQuotaForAccount_email.
    + congruence.
  - by rewrite lookup_insert_ne.
Qed.

Lemma serviceBefore_step accs s i account :
  accs !! i = Some account →
  (pollFrom rt worlds 0 accs s).1 !! i
    = Some (fetchQuotaForAccount rt (worlds i) (acc_email account)
              (acc_refreshToken account) (acc_projectId account)
              (serviceBefore rt worlds accs s i)).1
  ∧ serviceBefore rt worlds accs s (S i)
    = (fetchQuotaForAccount rt (worlds i) (acc_email account)
         (acc_refreshToken account) (acc_projectId account)
         (serviceBefore rt worlds accs s i)).2.
Proof.
  intros Hi. unfold serviceBefore.
  pose proof (lookup_lt_Some _ _ _ Hi) as Hlt.
  assert (length (take i accs) = i) as Hlen by (rewrite length_take; lia).
  split.
  - rewrite <- (take_drop i accs) at 1. rewrite pollFrom_app. cbn [fst].
    rewrite (drop_S _ _ _ Hi), pollFrom_cons. cbn zeta. cbn [fst].
    rewrite lookup_app_r; rewrite <- (length_fmap email), pollFrom_emails,
      length_fmap, Hlen; [|lia].
    by rewrite Nat.sub_diag.
  - rewrite (take_S_r _ _ _ Hi), pollFrom_app, pollFrom_cons.
    cbn zeta. cbn [fst snd]. by rewrite Hlen.
Qed.
End poll_cycle.

Section poll_failure.
Import Quota.
Context (rt : Runtime) (worlds : nat → World) (finished : Z).

Lemma fetchAllQuotas_results accs s :
  (fetchAllQuotas rt worlds finished accs s).1 = (pollFrom rt worlds 0 accs s).1.
Proof. unfold fetchAllQuotas. by destruct (pollFrom rt worlds 0 accs s). Qed.

Lemma fetchAllQuotas_accounts accs s :
  accounts (cache (fetchAllQuotas rt worlds finished accs s).2)
  = accounts (cache (pollFrom rt worlds 0 accs s).2).
Proof. unfold fetchAllQuotas. by destruct (pollFrom rt worlds 0 accs s). Qed.

Lemma tryEndpoints_None w token project endpoints :
  tryEndpoints w token project endpoints = None →
  ∀ endpoint, endpoint ∈ endpoints → modelsEndpoint w endpoint token project = Failed.
Proof.
  induction endpoints as [|first rest IH]; simpl; intros Hnone endpoint Hin.
  - by apply elem_of_nil in Hin.
  - destruct (modelsEndpoint w first token project) eqn:Hfirst; [done|].
    apply elem_of_cons in Hin as [->|Hin]; [done|by apply IH].
Qed.

(** A poll records an error exactly when it fails in one of the two ways. *)
Lemma fetchError_pollFails w account s :
  is_Some (fetchError (fetchQuotaForAccount rt w (acc_email account)
                         (acc_refreshToken account) (acc_projectId account) s).1)
  ↔ pollFails w account s.
Proof.
  split; [|apply pollFails_fetchError].
  unfold pollFails, tokenFails, endpointsFail, fetchQuotaForAccount.
  destruct (refreshAccessToken w (acc_refreshToken account) (tokenCache s))
    as [accessToken tc]. simpl.
  destruct (truthyString accessToken) as [token|]; [|by left].
  unfold fetchAvailableModels.
  destruct (tryEndpoints _ _ _ _) eqn:Htry; simpl; [by intros [? ?]|].
  intros _. right. exists token. split; [done|]. by apply tryEndpoints_None.
Qed.

(** A poll that records an error returns the result made at its start, with
    the error. *)
Lemma fetchQuotaForAccount_failed w e r p s :
  is_Some (fetchError (fetchQuotaForAccount rt w e r p s).1) →
  (fetchQuotaForAccount rt w e r p s).1
  = emptyResult w e p (fetchError (fetchQuotaForAccount rt w e r p s).1).
Proof.
  unfold fetchQuotaForAccount.
  destruct (refreshAccessToken w r (tokenCache s)) as [accessToken tc].
  destruct (truthyString accessToken) as [token|]; [|done].
  destruct (fetchAvailableModels w token p) as [data|]; [|done].
  simpl. by intros [? ?].
Qed.

(** C7. When the poll of the account at position [i] of a cycle fails (the
    token stage yields no access token, or every endpoint fails), the result
    of the cycle at position [i] is for that account and records a
    [fetchError], with no model and no aggregate; that poll leaves the whole
    quota cache as it was, so a record cached before stays; and after the
    cycle the record cached for that email is the one from before the cycle
    whenever no poll of that email in the cycle succeeded.  The cycle goes
    on: it starts from the service as it is and polls every account in
    order, the account at position [j] in the service that the polls before
    it have left, failed ones included; the result at position [j] is the
    result of that poll, which records an error exactly when the poll fails
    and is cached under its email when it does not; and the quota cache
    after the cycle is the one left by the poll of the last account. *)
Theorem failed_poll_is_contained
    (accs : list PollAccount) (s : QuotaService) (i : nat) (account : PollAccount) :
  accs !! i = Some account →
  pollFails (worlds i) account (serviceBefore rt worlds accs s i) →
  (∃ q, (fetchAllQuotas rt worlds finished accs s).1 !! i = Some q
        ∧ email q = acc_email account
        ∧ is_Some (fetchError q)
        ∧ q = emptyResult (worlds i) (acc_email account) (acc_projectId account)
                (fetchError q))
  ∧ cache (serviceBefore rt worlds accs s (S i)) = cache (serviceBefore rt worlds accs s i)
  ∧ email <$> (fetchAllQuotas rt worlds finished accs s).1 = acc_email <$> accs
  ∧ ((∀ q, q ∈ (fetchAllQuotas rt worlds finished accs s).1 →
           email q = acc_email account → is_Some (fetchError q)) →
     getCachedQuota (fetchAllQuotas rt worlds finished accs s).2 (acc_email account)
     = getCachedQuota s (acc_email account))
  ∧ serviceBefore rt worlds accs s 0 = s
  ∧ (∀ j next, accs !! j = Some next →
       let polled :=
         fetchQuotaForAccount rt (worlds j) (acc_email next) (acc_refreshToken next)
           (acc_projectId next) (serviceBefore rt worlds accs s j) in
       (fetchAllQuotas rt worlds finished accs s).1 !! j = Some polled.1
       ∧ serviceBefore rt worlds accs s (S j) = polled.2
       ∧ (is_Some (fetchError polled.1)
          ↔ pollFails (worlds j) next (serviceBefore rt worlds accs s j))
       ∧ (fetchError polled.1 = None →
          getCachedQuota (serviceBefore rt worlds accs s (S j)) (acc_email next)
          = Some polled.1))
  ∧ accounts (cache (fetchAllQuotas rt worlds finished accs s).2)
    = accounts (cache (serviceBefore rt worlds accs s (length accs))).
Proof.
  intros Hi Hfails.
  destruct (serviceBefore_step rt worlds accs s i account Hi) as [Hresult Hnext].
  pose proof (pollFails_fetchError rt _ _ _ Hfails) as Herror.
  rewrite fetchAllQuotas_results. split_and!.
  - eexists. split; [exact Hresult|].
    split; [apply fetchQuotaForAccount_email|]. split; [done|].
    by apply fetchQuotaForAccount_failed.
  - rewrite Hnext.
    pose proof (fetchQuotaForAccount_cache rt (worlds i) (acc_email account)
                  (acc_refreshToken account) (acc_projectId account)
                  (serviceBefore rt worlds accs s i)) as Hcache.
    destruct Herror as [msg Hmsg]. by rewrite Hmsg in Hcache.
  - apply pollFrom_emails.
  - intros Hall. unfold getCachedQuota. rewrite fetchAllQuotas_accounts.
    by apply pollFrom_cache_untouched.
  - done.
  - intros j next Hj polled.
    destruct (serviceBefore_step rt worlds accs s j next Hj) as [Hresultj Hnextj].
    split_and!; [done|done|apply fetchError_pollFails|].
    intros Hok. rewrite Hnextj. fold polled. unfold getCachedQuota.
    pose proof (fetchQuotaForAccount_cache rt (worlds j) (acc_email next)
                  (acc_refreshToken next) (acc_projectId next)
                  (serviceBefore rt worlds accs s j)) as Hcache.
    fold polled in Hcache. rewrite Hok in Hcache. rewrite Hcache. simpl.
    by rewrite lookup_insert_eq.
  - rewrite fetchAllQuotas_accounts. unfold serviceBefore. by rewrite firstn_all.
Qed.
End poll_failure.

(** A cycle of three accounts from a service that holds a record for the
    second of them, the provider being down for that account only: its
    result records the error and its record is kept; the account after it
    is polled and its result, without error, is cached. *)
Lemma failed_poll_is_contained_witness :
  let cycle := Quota.fetchAllQuotas Quota.sampleRuntime Quota.sampleWorlds 3000
                 Quota.sampleCycle Quota.polledService in
  (∃ q, cycle.1 !! 1%nat = Some q
        ∧ Quota.email q = "a@example.com"
        ∧ is_Some (Quota.fetchError q))
  ∧ Quota.getCachedQuota cycle.2 "a@example.com"
    = Quota.getCachedQuota Quota.polledService "a@example.com"
  ∧ is_Some (Quota.getCachedQuota Quota.polledService "a@example.com")
  ∧ (∃ q, cycle.1 !! 2%nat = Some q
          ∧ Quota.email q = "c@example.com"
          ∧ Quota.fetchError q = None
          ∧ Quota.getCachedQuota cycle.2 "c@example.com" = Some q).
Proof.
  intros cycle.
  destruct (failed_poll_is_contained Quota.sampleRuntime Quota.sampleWorlds 3000
              Quota.sampleCycle Quota.polledService 1 Quota.sampleAccount)
    as ((q & Hq & Hemail & Herr & _) & _ & _ & Hkept & _ & Hnext & Hfinal).
  - reflexivity.
  - right. exists "token". split; [by vm_compute|]. intros endpoint _. reflexivity.
  - split; [by exists q|]. split; [|split].
    + apply Hkept. intros q' Hq' Hmail.
      apply list_elem_of_lookup in Hq' as [j Hj].
      destruct j as [|[|[|j]]].
      * vm_compute in Hj. injection Hj as <-. by vm_compute in Hmail.
      * rewrite Hq in Hj. by injection Hj as <-.
      * vm_compute in Hj. injection Hj as <-. by vm_compute in Hmail.
      * by vm_compute in Hj.
    + vm_compute. by eexists.
    + destruct (Hnext 2%nat Quota.thirdAccount eq_refl) as (Hresult & _ & _ & Hcached).
      eexists. split; [exact Hresult|]. split; [by vm_compute|].
      split; [by vm_compute|].
      unfold Quota.getCachedQuota, cycle. rewrite Hfinal.
      apply Hcached. by vm_compute.
Defined.

(* ================================================================= *)
(** * Further properties *)

(** ** The builder and the accessors *)

Lemma find_at_index {A} (P : A → bool) (l : list A) (j : nat) :
  (∀ i x, l !! i = Some x → P x = bool_decide (i = j)) → find P l = l !! j.
Proof.
  revert j. induction l as [|x l IH]; intros j HP; [done|].
  simpl. rewrite (HP 0%nat x eq_refl).
  destruct j as [|j]; [done|]. rewrite bool_decide_eq_false_2 by done. simpl.
  apply IH. intros i y Hi. rewrite (HP (S i) y Hi).
  apply bool_decide_ext. lia.
Qed.

Lemma find_all_false {A} (P : A → bool) (l : list A) :
  (∀ x, x ∈ l → P x = false) → find P l = None.
Proof.
  induction l as [|x l IH]; intros HP; [done|].
  simpl. rewrite HP by apply list_elem_of_here.
  apply IH. intros y Hy. apply HP. by apply list_elem_of_further.
Qed.

Lemma find_pointer (P : LocalAccount → bool) (accs : list LocalAccount) (k : Z) :
  (∀ i a, accs !! i = Some a → P a = bool_decide (Z.of_nat i = k)) →
  find P accs = atIndex k accs.
Proof.
  intros HP. unfold atIndex. case_decide as Hk.
  - apply find_at_index. intros i a Hi. rewrite (HP i a Hi).
    apply bool_decide_ext. lia.
  - apply find_all_false. intros a [i Hi]%list_elem_of_lookup.
    rewrite (HP i a Hi). apply bool_decide_eq_false. lia.
Qed.

Lemma processAccounts_lookup now data i :
  processAccounts now data !! i = processAccount now data i <$> accounts data !! i.
Proof. unfold processAccounts. apply list_lookup_imap. Qed.

Lemma processAccounts_length now data :
  length (processAccounts now data) = length (accounts data).
Proof. unfold processAccounts. apply length_imap. Qed.

Lemma filter_none {A} (P : A → Prop) `{!∀ x, Decision (P x)} (l : list A) :
  (∀ x, x ∈ l → ¬ P x) → filter P l = [].
Proof.
  induction l as [|x l IH]; intros HP; [done|].
  rewrite filter_cons, decide_False by (apply HP, list_elem_of_here).
  apply IH. intros y Hy. apply HP. by apply list_elem_of_further.
Qed.

Lemma filter_pointer_length (P : LocalAccount → bool) (accs : list LocalAccount) (k : Z) :
  (∀ i a, accs !! i = Some a → P a = bool_decide (Z.of_nat i = k)) →
  (length (filter (λ a, Is_true (P a)) accs) ≤ 1)%nat.
Proof.
  revert k. induction accs as [|x accs IH]; intros k HP; [simpl; lia|].
  rewrite filter_cons.
  assert (∀ i a, accs !! i = Some a → P a = bool_decide (Z.of_nat i = k - 1)) as HP'.
  { intros i a Hi. rewrite (HP (S i) a Hi). apply bool_decide_ext. lia. }
  specialize (IH _ HP'). case_decide as Hx; [|done].
  rewrite (HP 0%nat x eq_refl) in Hx. apply bool_decide_unpack in Hx.
  rewrite filter_none; [simpl; lia|].
  intros a [i Hi]%list_elem_of_lookup.
  rewrite (HP' i a Hi). intros Ha%bool_decide_unpack. lia.
Qed.

(** X1. After a build, the active account is the account at the index
    [activeIndex] of the registry, and there is none when that index is
    negative or past the end; the account active for a family is the one at
    the family's index, which is [activeIndex] when the registry gives no
    index for the family.  At most one account is flagged active. *)
Theorem active_account_is_at_pointer
    (now : Z) (data : RawAccountsFile) (previous : option RawAccountsFile) :
  let s := {| lastData := previous; processedAccounts := processAccounts now data |} in
  getActiveAccount s = atIndex (activeIndex data) (processAccounts now data)
  ∧ (∀ f, getActiveAccountForFamily f s
          = atIndex (activePointer data (Some f)) (processAccounts now data))
  ∧ (∀ f, chain (activeIndexByFamily data)
            (match f with Claude => forClaude | Gemini => forGemini end) = None →
          getActiveAccountForFamily f s = getActiveAccount s)
  ∧ (length (filter (λ a, Is_true (isActive a)) (processAccounts now data)) ≤ 1)%nat
  ∧ (¬ (0 ≤ activeIndex data < Z.of_nat (length (accounts data))) →
     getActiveAccount s = None).
Proof.
  intros s.
  assert (∀ i a, processAccounts now data !! i = Some a →
            isActive a = bool_decide (Z.of_nat i = activeIndex data)
            ∧ activeForClaude a
              = bool_decide (Z.of_nat i = activePointer data (Some Claude))
            ∧ activeForGemini a
              = bool_decide (Z.of_nat i = activePointer data (Some Gemini))) as Hflags.
  { intros i a. rewrite processAccounts_lookup.
    destruct (accounts data !! i) as [raw|]; [|done]. by intros [= <-]. }
  assert (getActiveAccount s = atIndex (activeIndex data) (processAccounts now data))
    as Hactive.
  { apply find_pointer. intros i a Hi. by apply Hflags. }
  assert (∀ f, getActiveAccountForFamily f s
               = atIndex (activePointer data (Some f)) (processAccounts now data))
    as Hfamily.
  { intros [|]; apply find_pointer; intros i a Hi; by apply Hflags. }
  split_and!; [done|done| | |].
  - intros f Hf. rewrite Hfamily, Hactive. unfold activePointer.
    destruct f; by rewrite Hf.
  - apply (filter_pointer_length _ _ (activeIndex data)).
    intros i a Hi. by apply Hflags.
  - intros Hout. rewrite Hactive. unfold atIndex. case_decide; [|done].
    apply lookup_ge_None. rewrite processAccounts_length. lia.
Qed.

(** X2. The builder makes one account per record of the registry, in the
    order of the registry, and carries the identity of the record over: the
    email, the project identifiers and the two timestamps; the reset epoch
    of a family is the epoch of the record when it counts (is not 0), and
    there is no info otherwise. *)
Theorem builder_carries_records (now : Z) (data : RawAccountsFile) :
  (λ a, (email a, projectId a, managedProjectId a, addedAt a, lastUsed a,
         resetTime <$> claude (rateLimits a), resetTime <$> gemini (rateLimits a)))
    <$> processAccounts now data
  = (λ raw, (raw_email raw, raw_projectId raw, raw_managedProjectId raw,
             raw_addedAt raw, raw_lastUsed raw,
             truthy (chain (rateLimitResetTimes raw) forClaude),
             truthy (chain (rateLimitResetTimes raw) forGemini)))
    <$> accounts data.
Proof.
  apply list_eq. intros i. rewrite !list_lookup_fmap, processAccounts_lookup.
  destruct (accounts data !! i) as [raw|]; [|done]. simpl. f_equal.
  unfold processAccount, buildRateLimit. simpl.
  by destruct (truthy (chain (rateLimitResetTimes raw) forClaude)),
              (truthy (chain (rateLimitResetTimes raw) forGemini)).
Qed.

Lemma tickInfo_timers now info :
  timeUntilReset (tickInfo now info) = Z.max 0 (resetTime (tickInfo now info) - now)
  ∧ 0 ≤ timeUntilReset (tickInfo now info)
  ∧ (isExpired (tickInfo now info) = true ↔ timeUntilReset (tickInfo now info) = 0).
Proof.
  unfold tickInfo; simpl. split_and!; [done|lia|].
  rewrite bool_decide_eq_true. lia.
Qed.

Lemma processAccount_timers now data index raw :
  timersAt now (processAccount now data index raw).
Proof.
  intros f info. unfold processAccount, buildRateLimit.
  destruct f; simpl.
  - destruct (truthy (chain (rateLimitResetTimes raw) forClaude)); [|done].
    intros [= <-]; simpl. split_and!; [done|lia|]. rewrite Z.leb_le. lia.
  - destruct (truthy (chain (rateLimitResetTimes raw) forGemini)); [|done].
    intros [= <-]; simpl. split_and!; [done|lia|]. rewrite Z.leb_le. lia.
Qed.

Lemma tickedAccount_timers now a : timersAt now (tickedAccount now a).
Proof.
  intros f info'. destruct (familyInfo f a) as [info|] eqn:Hf.
  - rewrite (tickedAccount_family_Some _ _ _ _ Hf). intros [= <-].
    apply (tickInfo_timers now info).
  - by rewrite (tickedAccount_family_None _ _ _ Hf).
Qed.

(** X3. The timers are kept in step with the clock that was read last: after
    a build at [now] and after a tick at [now], every rate-limit info of
    every account has [timeUntilReset = max(0, resetTime - now)], never
    negative, and is expired exactly when no time is left. *)
Theorem timers_follow_the_clock (now : Z) :
  (∀ data, Forall (timersAt now) (processAccounts now data))
  ∧ (∀ s, Forall (timersAt now)
            (processedAccounts (stateAfter (rateLimitUpdater now) s))).
Proof.
  split.
  - intros data. apply Forall_lookup_2. intros i a.
    rewrite processAccounts_lookup.
    destruct (accounts data !! i) as [raw|]; [|done]. intros [= <-].
    apply processAccount_timers.
  - intros s. rewrite rateLimitUpdater_state. simpl.
    apply Forall_fmap, Forall_forall. intros a _. apply tickedAccount_timers.
Qed.

(** X4. The counts of [getStats] add up: every account is either available
    or rate-limited, never both, so the total is the sum of the two counts
    and the two lists together are the accounts of the service. *)
Theorem stats_partition_accounts (now : Z) (s : Service) :
  totalAccounts (getStats now s)
    = availableAccounts (getStats now s) + rateLimitedAccounts (getStats now s)
  ∧ getAvailableAccounts s ++ getRateLimitedAccounts s ≡ₚ getAccounts s
  ∧ (∀ a, a ∈ getAvailableAccounts s → a ∉ getRateLimitedAccounts s).
Proof.
  pose proof (filter_app_complement (λ a, status a = available) (processedAccounts s))
    as Hperm.
  split_and!.
  - unfold getStats; simpl. apply Permutation_length in Hperm.
    rewrite length_app in Hperm.
    unfold getAvailableAccounts, getRateLimitedAccounts. lia.
  - exact Hperm.
  - unfold getAvailableAccounts, getRateLimitedAccounts.
    intros a [Ha _]%list_elem_of_filter [Hna _]%list_elem_of_filter. done.
Qed.

(** ** The diff engine, operation by operation *)

Lemma elem_of_concat_fmap {A B} (f : A → list B) (l : list A) (y : B) :
  y ∈ concat (f <$> l) ↔ ∃ x, x ∈ l ∧ y ∈ f x.
Proof.
  rewrite elem_of_concat. split.
  - intros (ys & Hy & (x & -> & Hx)%list_elem_of_fmap). by exists x.
  - intros (x & Hx & Hy). exists (f x). split; [done|].
    apply list_elem_of_fmap. by exists x.
Qed.

Lemma add_emitted previous current a :
  snapshot current !! email a = Some a → snapshot previous !! email a = None →
  addOf a ∈ calculateDiffs previous current.
Proof.
  intros Hcur Hprev. rewrite calculateDiffs_spec, elem_of_app, elem_of_concat_fmap.
  left. exists (email a, a). split; [by apply byEmail_elem|].
  unfold diffCurrent. simpl. rewrite byEmail_get, Hprev. apply list_elem_of_here.
Qed.

Lemma update_emitted previous current a b :
  snapshot current !! email a = Some a → snapshot previous !! email a = Some b →
  b ≠ a → updateOf a ∈ calculateDiffs previous current.
Proof.
  intros Hcur Hprev Hne. rewrite calculateDiffs_spec, elem_of_app, elem_of_concat_fmap.
  left. exists (email a, a). split; [by apply byEmail_elem|].
  unfold diffCurrent. simpl. rewrite byEmail_get, Hprev.
  rewrite decide_True; [apply list_elem_of_here|].
  intros Heq%stringify_inj. done.
Qed.

Lemma remove_emitted previous current e :
  snapshot current !! e = None → is_Some (snapshot previous !! e) →
  removeOf e ∈ calculateDiffs previous current.
Proof.
  intros Hcur [b Hprev]. rewrite calculateDiffs_spec, elem_of_app, !elem_of_concat_fmap.
  right. exists (e, b). split; [by apply byEmail_elem|].
  unfold diffPrevious. simpl.
  assert (jsmap_has e (byEmail current) = false) as ->.
  { apply jsmap_has_false, jsmap_get_None. by rewrite byEmail_get. }
  apply list_elem_of_here.
Qed.

(** X5. What the diff holds, exactly: an add for each identifier that the
    current snapshot has and the previous lacks, carrying the current state;
    an update for each identifier that both have with different states,
    carrying the current state; a remove for each identifier that the
    previous snapshot has and the current lacks; and nothing else, so
    nothing for an identifier whose state is the same in both. *)
Theorem diff_operations_characterised
    (previous current : list LocalAccount) (d : AccountDiff) :
  d ∈ calculateDiffs previous current ↔
    (∃ a, d = addOf a
          ∧ snapshot current !! email a = Some a
          ∧ snapshot previous !! email a = None)
    ∨ (∃ a b, d = updateOf a
              ∧ snapshot current !! email a = Some a
              ∧ snapshot previous !! email a = Some b
              ∧ b ≠ a)
    ∨ (∃ e, d = removeOf e
            ∧ snapshot current !! e = None
            ∧ is_Some (snapshot previous !! e)).
Proof.
  split.
  - rewrite calculateDiffs_spec, elem_of_app, !elem_of_concat_fmap.
    intros [([k v] & Hkv & Hd)|([k v] & Hkv & Hd)].
    + apply byEmail_elem in Hkv. destruct (snapshot_Some _ _ _ Hkv) as [_ Hk].
      unfold diffCurrent in Hd. simpl in Hd. rewrite byEmail_get in Hd. subst k.
      destruct (snapshot previous !! email v) as [b|] eqn:Hprev.
      * case_decide as Hne; [|by apply elem_of_nil in Hd].
        apply list_elem_of_singleton in Hd as ->.
        right; left. exists v, b. split_and!; try done. by intros ->.
      * apply list_elem_of_singleton in Hd as ->. left. by exists v.
    + apply byEmail_elem in Hkv. unfold diffPrevious in Hd. simpl in Hd.
      destruct (jsmap_has k (byEmail current)) eqn:Hhas;
        [by apply elem_of_nil in Hd|].
      apply list_elem_of_singleton in Hd as ->.
      apply jsmap_has_false, jsmap_get_None in Hhas. rewrite byEmail_get in Hhas.
      right; right. exists k. by rewrite Hkv.
  - intros [(a & -> & Hcur & Hprev)|[(a & b & -> & Hcur & Hprev & Hne)
                                    |(e & -> & Hcur & Hprev)]].
    + by apply add_emitted.
    + by apply (update_emitted _ _ a b).
    + by apply remove_emitted.
Qed.

Lemma byEmail_keys_sublist accs : (byEmail accs).*1 `sublist_of` email <$> accs.
Proof.
  induction accs as [|a accs IH] using rev_ind; [done|].
  rewrite byEmail_snoc, jsmap_set_keys, fmap_app. csimpl.
  case_decide.
  - by apply sublist_inserts_r.
  - by apply sublist_app.
Qed.

Lemma concat_emails_sublist (f : string * LocalAccount → list AccountDiff)
    (l : JsMap LocalAccount) :
  (∀ entry d, d ∈ f entry → diff_email d = entry.1) →
  (∀ entry, (length (f entry) ≤ 1)%nat) →
  diff_email <$> concat (f <$> l) `sublist_of` l.*1.
Proof.
  intros Hemail Hlen. induction l as [|entry l IH]; csimpl; [done|].
  rewrite fmap_app. specialize (Hlen entry).
  destruct (f entry) as [|d [|d' ds]] eqn:Hf; csimpl in *; [| |lia].
  - by apply sublist_cons.
  - rewrite (Hemail entry d) by (rewrite Hf; apply list_elem_of_here).
    by apply sublist_skip.
Qed.

(** X6. The order of the diff: first the adds and updates, in the order in
    which their identifiers appear in the current snapshot, then the
    removes, in the order in which theirs appear in the previous snapshot. *)
Theorem diff_changes_then_removes (previous current : list LocalAccount) :
  ∃ changed removed,
    calculateDiffs previous current = changed ++ removed
    ∧ Forall (λ d, op d ≠ op_remove) changed
    ∧ Forall (λ d, op d = op_remove) removed
    ∧ diff_email <$> changed `sublist_of` email <$> current
    ∧ diff_email <$> removed `sublist_of` email <$> previous.
Proof.
  exists (concat (diffCurrent (byEmail previous) <$> byEmail current)),
         (concat (diffPrevious (byEmail current) <$> byEmail previous)).
  split_and!.
  - apply calculateDiffs_spec.
  - apply Forall_forall. intros d Hd.
    by apply diffCurrent_payload in Hd as (_ & _ & Hop & _).
  - apply Forall_forall. intros d Hd.
    by apply diffPrevious_payload in Hd as (-> & _).
  - etrans; [|apply byEmail_keys_sublist].
    apply concat_emails_sublist; [apply diffCurrent_email|apply diffCurrent_length].
  - etrans; [|apply byEmail_keys_sublist].
    apply concat_emails_sublist; [apply diffPrevious_email|apply diffPrevious_length].
Qed.

Lemma byEmail_NoDup_values accs :
  NoDup (email <$> accs) → jsmap_values (byEmail accs) = accs.
Proof.
  intros Hnd. unfold byEmail, jsmap_values.
  rewrite jsmap_new_NoDup_id.
  - rewrite <- list_fmap_compose. apply list_fmap_id.
  - by rewrite <- list_fmap_compose.
Qed.

(** X7. The diff against an empty side: from no previous account, the diff
    is one add per identifier of the current snapshot and nothing else; to
    no current account, it is one remove per identifier of the previous
    snapshot and nothing else.  With one record per email these are an add
    for every current account, and a remove for every previous account, in
    the order of the snapshot. *)
Theorem diff_against_empty (accs : list LocalAccount) :
  calculateDiffs [] accs = addOf <$> jsmap_values (byEmail accs)
  ∧ calculateDiffs accs [] = (λ a, removeOf (email a)) <$> jsmap_values (byEmail accs)
  ∧ (NoDup (email <$> accs) →
     calculateDiffs [] accs = addOf <$> accs
     ∧ calculateDiffs accs [] = (λ a, removeOf (email a)) <$> accs).
Proof.
  assert (∀ m : JsMap LocalAccount, (∀ k a, (k, a) ∈ m → email a = k) →
            concat (diffCurrent [] <$> m) = addOf <$> jsmap_values m
            ∧ concat (diffPrevious [] <$> m)
              = (λ a, removeOf (email a)) <$> jsmap_values m) as Hloops.
  { unfold jsmap_values. induction m as [|[k a] m IH]; intros Hm; [done|].
    csimpl. destruct IH as [-> ->].
    { intros k' a' Hin. apply Hm. by apply list_elem_of_further. }
    rewrite <- (Hm k a) by apply list_elem_of_here. done. }
  destruct (Hloops (byEmail accs)) as [Hadd Hremove].
  { intros k a. apply byEmail_entry. }
  assert (calculateDiffs [] accs = addOf <$> jsmap_values (byEmail accs)) as H1.
  { rewrite calculateDiffs_spec. change (byEmail []) with (@nil (string * LocalAccount)).
    rewrite Hadd. csimpl. by rewrite app_nil_r. }
  assert (calculateDiffs accs []
          = (λ a, removeOf (email a)) <$> jsmap_values (byEmail accs)) as H2.
  { rewrite calculateDiffs_spec. change (byEmail []) with (@nil (string * LocalAccount)).
    by rewrite Hremove. }
  split_and!; [done|done|].
  intros Hnd. by rewrite H1, H2, byEmail_NoDup_values.
Qed.

(** ** The status clock, tick by tick *)

Lemma updateAccount_spec now a :
  updateAccount now a
  = (setStatus (tickedTimers now a) (calculateAccountStatus (tickedTimers now a)),
     (if flips now Claude a then [rate_limit_cleared (email a) Claude] else [])
     ++ (if flips now Gemini a then [rate_limit_cleared (email a) Gemini] else []),
     flips now Claude a || flips now Gemini a
     || bool_decide (calculateAccountStatus (tickedTimers now a) ≠ status a)).
Proof.
  unfold updateAccount, flips, tickedTimers, tickInfo. simpl.
  destruct (claude (rateLimits a)) as [c|], (gemini (rateLimits a)) as [g|];
    rewrite ?updateFamily_Some; simpl;
    (case_bool_decide as H;
     [by rewrite ?orb_true_r
     |unfold setStatus; simpl in *; by rewrite H, ?orb_false_r]).
Qed.

Lemma tickedAccount_spec now a :
  tickedAccount now a
  = setStatus (tickedTimers now a) (calculateAccountStatus (tickedTimers now a)).
Proof. unfold tickedAccount. by rewrite updateAccount_spec. Qed.

Lemma tickEvents_spec now a :
  tickEvents now a
  = (if flips now Claude a then [rate_limit_cleared (email a) Claude] else [])
    ++ (if flips now Gemini a then [rate_limit_cleared (email a) Gemini] else []).
Proof. unfold tickEvents. by rewrite updateAccount_spec. Qed.

Lemma tickChanged_spec now a :
  tickChanged now a
  = flips now Claude a || flips now Gemini a
    || bool_decide (calculateAccountStatus (tickedTimers now a) ≠ status a).
Proof. unfold tickChanged. by rewrite updateAccount_spec. Qed.

Lemma flips_after_tick now f a : flips now f (tickedAccount now a) = false.
Proof.
  unfold flips. destruct (familyInfo f a) as [info|] eqn:Hf.
  - rewrite (tickedAccount_family_Some _ _ _ _ Hf). simpl.
    by destruct (bool_decide (resetTime info ≤ now)).
  - by rewrite (tickedAccount_family_None _ _ _ Hf).
Qed.

Lemma tickedAccount_idempotent now a :
  tickedAccount now (tickedAccount now a) = tickedAccount now a.
Proof.
  rewrite !tickedAccount_spec. destruct a as [? ? ? ? ? ? ? ? ? [[c|] [g|]]]; done.
Qed.

Lemma tickChanged_after_tick now a : tickChanged now (tickedAccount now a) = false.
Proof.
  rewrite tickChanged_spec, !flips_after_tick. simpl.
  apply bool_decide_eq_false. intros Hne. apply Hne.
  rewrite tickedAccount_status. rewrite <- (tickedAccount_idempotent now a) at 2.
  by rewrite (tickedAccount_spec now (tickedAccount now a)).
Qed.

Lemma tickEvents_after_tick now a : tickEvents now (tickedAccount now a) = [].
Proof. by rewrite tickEvents_spec, !flips_after_tick. Qed.

(** X8. A second tick that reads the same clock does nothing: it leaves
    every account as the first tick made it and emits no event. *)
Theorem tick_is_idempotent (now : Z) (s : Service) :
  rateLimitUpdater now (stateAfter (rateLimitUpdater now) s)
  = (Normal (), stateAfter (rateLimitUpdater now) s, []).
Proof.
  unfold rateLimitUpdater at 1. unfold bind.
  rewrite updateRateLimitTimers_run, rateLimitUpdater_state. simpl.
  assert (existsb (tickChanged now) (tickedAccount now <$> processedAccounts s) = false)
    as ->.
  { apply not_true_is_false. intros (a & Hin & Hch)%existsb_exists.
    apply list_elem_of_In, list_elem_of_fmap in Hin as (a0 & -> & _).
    by rewrite tickChanged_after_tick in Hch. }
  simpl. rewrite app_nil_r. f_equal; [f_equal; f_equal|].
  - rewrite <- list_fmap_compose. apply list_fmap_ext.
    intros i a _. apply tickedAccount_idempotent.
  - apply concat_fmap_nil. intros a (a0 & -> & _)%list_elem_of_fmap.
    apply tickEvents_after_tick.
Qed.

(** X9. Once the flags of an account are those of a clock reading [t], a
    family that is expired stays expired through every later run of the
    clock whose readings do not go back before [t]; its reset epoch is
    unchanged. *)
Theorem expired_stays_expired
    (t : Z) (nows : list Z) (a : LocalAccount) (f : Family) (info : RateLimitInfo) :
  consistentAt t a →
  familyInfo f a = Some info →
  isExpired info = true →
  StronglySorted Z.le (t :: nows) →
  ∃ info', familyInfo f (accountRun nows a).1 = Some info'
           ∧ isExpired info' = true
           ∧ resetTime info' = resetTime info.
Proof.
  revert t a info. induction nows as [|now rest IH]; intros t a info Hcons Hf Hexp Hsorted.
  - by exists info.
  - apply StronglySorted_inv in Hsorted as [Hsorted Hle].
    apply Forall_cons in Hle as [Hnow _].
    rewrite (Hcons f info Hf) in Hexp. apply bool_decide_eq_true in Hexp.
    rewrite accountRun_cons. cbn [fst].
    destruct (IH now (tickedAccount now a) (tickInfo now info)) as (info' & ? & ? & ?).
    + apply tickedAccount_consistent.
    + by apply tickedAccount_family_Some.
    + simpl. apply bool_decide_eq_true. lia.
    + done.
    + by exists info'.
Qed.

Lemma expired_stays_expired_witness :
  ∃ info', familyInfo Claude
             (accountRun [76000; 90000]
                (tickedAccount 61000 (processAccount 0 sampleRegistry 0
                   {| raw_email := "a@example.com"; refreshToken := "r1";
                      raw_projectId := None; raw_managedProjectId := None;
                      raw_addedAt := 1000; raw_lastUsed := 2000;
                      rateLimitResetTimes :=
                        Some {| forClaude := Some 60000; forGemini := None |} |}))).1
           = Some info'
           ∧ isExpired info' = true
           ∧ resetTime info' = 60000.
Proof.
  apply (expired_stays_expired 61000 [76000; 90000] _ Claude
           {| resetTime := 60000; timeUntilReset := 0; isExpired := true |}).
  - apply tickedAccount_consistent.
  - reflexivity.
  - reflexivity.
  - repeat constructor; lia.
Defined.

Lemma tickedAccount_identity now a : identityOf (tickedAccount now a) = identityOf a.
Proof.
  rewrite tickedAccount_spec. unfold identityOf. simpl.
  by destruct (claude (rateLimits a)), (gemini (rateLimits a)).
Qed.

(** X10. The clock changes nothing but the timers and the status: after a
    tick the service holds the same accounts in the same order, each with
    its email, project identifiers, timestamps, active flags and reset
    epochs as before, and the registry it last loaded is the same. *)
Theorem tick_keeps_identity (now : Z) (s : Service) :
  lastData (stateAfter (rateLimitUpdater now) s) = lastData s
  ∧ identityOf <$> processedAccounts (stateAfter (rateLimitUpdater now) s)
    = identityOf <$> processedAccounts s
  ∧ email <$> getActiveAccount (stateAfter (rateLimitUpdater now) s)
    = email <$> getActiveAccount s.
Proof.
  rewrite rateLimitUpdater_state. simpl. split_and!; [done| |].
  - rewrite <- list_fmap_compose. apply list_fmap_ext.
    intros i a _. apply tickedAccount_identity.
  - unfold getActiveAccount. simpl.
    induction (processedAccounts s) as [|a accs IH]; [done|]. csimpl.
    pose proof (tickedAccount_identity now a) as Hid. unfold identityOf in Hid.
    injection Hid as Hemail _ _ _ _ Hactive _ _ _ _.
    rewrite Hactive. destruct (isActive a); [simpl; by rewrite Hemail|done].
Qed.

(** X11. The events of a tick: a [rate_limit_cleared] is emitted for an
    email and a family exactly when an account with that email has the
    family flip (info present, not expired so far, reset epoch not after the
    clock); the events are these notifications alone, followed by one
    [rate_limits_updated] carrying the accounts after the tick if anything
    changed, and there is no event at all if nothing changed. *)
Theorem tick_events (now : Z) (s : Service) :
  (∀ who f, rate_limit_cleared who f ∈ eventsOf (rateLimitUpdater now) s ↔
            ∃ a, a ∈ processedAccounts s ∧ email a = who ∧ flips now f a = true)
  ∧ ∃ cleared,
      Forall isCleared cleared
      ∧ eventsOf (rateLimitUpdater now) s
        = cleared ++
          (if existsb (tickChanged now) (processedAccounts s)
           then [rate_limits_updated
                   (processedAccounts (stateAfter (rateLimitUpdater now) s))]
           else [])
      ∧ (existsb (tickChanged now) (processedAccounts s) = false → cleared = []).
Proof.
  rewrite rateLimitUpdater_events, rateLimitUpdater_state. simpl. split.
  - intros who f. rewrite elem_of_app, elem_of_concat_fmap. split.
    + intros [(a & Ha & Hev)|Hev].
      * exists a. split; [done|]. rewrite tickEvents_spec in Hev.
        apply elem_of_app in Hev as [Hev|Hev];
          [destruct (flips now Claude a) eqn:Hflip
          |destruct (flips now Gemini a) eqn:Hflip];
          try (by apply elem_of_nil in Hev);
          apply list_elem_of_singleton in Hev; injection Hev as ? ?; by subst.
      * destruct (existsb _ _); [|by apply elem_of_nil in Hev].
        by apply list_elem_of_singleton in Hev.
    + intros (a & Ha & <- & Hflip). left. exists a. split; [done|].
      rewrite tickEvents_spec, elem_of_app.
      destruct f; rewrite Hflip; [left|right]; apply list_elem_of_here.
  - exists (concat (tickEvents now <$> processedAccounts s)). split_and!; [|done|].
    + apply Forall_forall. intros ev (a & _ & Hev)%elem_of_concat_fmap.
      rewrite tickEvents_spec in Hev.
      apply elem_of_app in Hev as [Hev|Hev];
        [destruct (flips now Claude a)|destruct (flips now Gemini a)];
        try (by apply elem_of_nil in Hev);
        apply list_elem_of_singleton in Hev as ->; by eexists _, _.
    + intros Hnone. apply concat_fmap_nil. intros a Ha.
      assert (tickChanged now a = false) as Hch.
      { apply not_true_is_false. intros Hch.
        assert (existsb (tickChanged now) (processedAccounts s) = true) as Hex.
        { apply existsb_exists. exists a. by rewrite <- list_elem_of_In. }
        congruence. }
      rewrite tickChanged_spec in Hch.
      apply orb_false_iff in Hch as [[Hc Hg]%orb_false_iff _].
      by rewrite tickEvents_spec, Hc, Hg.
Qed.

(** ** Loading the registry again *)

Lemma load_success parse now content data s :
  parse content = Some data →
  loadAccountsFile parse now (Some content) s
  = (Normal (),
     {| lastData := Some data; processedAccounts := processAccounts now data |},
     (if decide (0 < length (calculateDiffs (processedAccounts s)
                               (processAccounts now data)))%nat
      then [accounts_changed (calculateDiffs (processedAccounts s)
                                (processAccounts now data))]
      else [])
     ++ [accounts_loaded (processAccounts now data)]).
Proof.
  intros Hparse. unfold loadAccountsFile, try_catch, bind, JSON_parse.
  rewrite Hparse. simpl. by case_decide.
Qed.

Lemma processAccounts_emails now data :
  email <$> processAccounts now data = raw_email <$> accounts data.
Proof.
  apply list_eq. intros i. rewrite !list_lookup_fmap, processAccounts_lookup.
  by destruct (accounts data !! i).
Qed.

Lemma processAccounts_noEpochs now data :
  noEpochs data →
  Forall unlimited (processAccounts now data)
  ∧ ∀ now', processAccounts now' data = processAccounts now data.
Proof.
  intros Hno. unfold noEpochs in Hno. rewrite Forall_lookup in Hno. split.
  - apply Forall_lookup_2. intros i a. rewrite processAccounts_lookup.
    destruct (accounts data !! i) as [raw|] eqn:Hi; [|done]. intros [= <-].
    destruct (Hno i raw Hi) as [Hc Hg].
    unfold unlimited, processAccount, buildRateLimit. simpl. by rewrite Hc, Hg.
  - intros now'. apply list_eq. intros i. rewrite !processAccounts_lookup.
    destruct (accounts data !! i) as [raw|] eqn:Hi; [|done]. simpl. f_equal.
    destruct (Hno i raw Hi) as [Hc Hg].
    unfold processAccount, buildRateLimit. by rewrite Hc, Hg.
Qed.

Lemma tick_unlimited now a :
  unlimited a →
  tickedAccount now a = a ∧ tickEvents now a = [] ∧ tickChanged now a = false.
Proof.
  intros (Hc & Hg & Hst).
  rewrite tickedAccount_spec, tickEvents_spec, tickChanged_spec.
  unfold flips. destruct a as [? ? ? ? ? ? ? ? st [c g]]. simpl in *. by subst.
Qed.

Lemma rateLimitUpdater_unlimited now s :
  Forall unlimited (processedAccounts s) →
  rateLimitUpdater now s = (Normal (), s, []).
Proof.
  intros Hall. rewrite Forall_forall in Hall.
  unfold rateLimitUpdater, bind. rewrite updateRateLimitTimers_run.
  assert (existsb (tickChanged now) (processedAccounts s) = false) as ->.
  { apply not_true_is_false. intros (a & Hin & Hch)%existsb_exists.
    apply list_elem_of_In in Hin.
    destruct (tick_unlimited now a (Hall a Hin)) as (_ & _ & Hfalse). congruence. }
  simpl. rewrite app_nil_r. f_equal; [f_equal|].
  - destruct s as [ld accs]. simpl in *. f_equal.
    rewrite <- (list_fmap_id accs) at 2. apply list_fmap_ext.
    intros i a Hi. apply tick_unlimited, Hall.
    by apply list_elem_of_lookup_2 in Hi.
  - apply concat_fmap_nil. intros a Ha. by apply tick_unlimited, Hall.
Qed.

Lemma runTicks_unlimited nows s :
  Forall unlimited (processedAccounts s) → runTicks nows s = (s, []).
Proof.
  intros Hall. induction nows as [|now rest IH]; [done|].
  rewrite runTicks_cons. unfold stateAfter, eventsOf.
  rewrite rateLimitUpdater_unlimited by done. simpl. by rewrite IH.
Qed.

(** X12. When no record of the registry has a reset epoch that counts, the
    clock never touches the loaded accounts and emits nothing, and loading
    the same registry again, at any time, emits [accounts_loaded] alone (no
    [accounts_changed]) and leaves the service as it was. *)
Theorem unchanged_registry_reloads_silently
    (parse : string → option RawAccountsFile) (content : string)
    (data : RawAccountsFile) (now1 now2 : Z) (nows : list Z) (s : Service) :
  parse content = Some data →
  noEpochs data →
  let s1 := stateAfter (loadAccountsFile parse now1 (Some content)) s in
  runTicks nows s1 = (s1, [])
  ∧ loadAccountsFile parse now2 (Some content) s1
    = (Normal (), s1, [accounts_loaded (processedAccounts s1)]).
Proof.
  intros Hparse Hno s1.
  destruct (processAccounts_noEpochs now1 data Hno) as [Hall Hsame].
  assert (s1 = {| lastData := Some data;
                  processedAccounts := processAccounts now1 data |}) as Hs1.
  { unfold s1, stateAfter. by rewrite (load_success _ _ _ data). }
  split.
  - apply runTicks_unlimited. by rewrite Hs1.
  - rewrite (load_success _ _ _ data) by done. rewrite Hs1. simpl.
    rewrite (Hsame now2).
    by rewrite (calculateDiffs_same_snapshot _ _ eq_refl).
Qed.

Lemma unchanged_registry_reloads_silently_witness :
  let s1 := stateAfter (loadAccountsFile plainParse 100 (Some "plain")) sampleService in
  runTicks [15000; 30000] s1 = (s1, [])
  ∧ loadAccountsFile plainParse 90000 (Some "plain") s1
    = (Normal (), s1, [accounts_loaded (processedAccounts s1)]).
Proof.
  apply (unchanged_registry_reloads_silently plainParse "plain" plainRegistry
           100 90000 [15000; 30000] sampleService).
  - reflexivity.
  - repeat constructor.
Defined.

(** X13. The comparison of the diff covers the countdown: when an unchanged
    registry (one record per email) is built again at a later time, every
    account with a reset epoch that was still ahead at the first build gets
    an update, carrying its new state, although its record is the same. *)
Theorem unchanged_registry_updates_running_timers
    (data : RawAccountsFile) (now1 now2 : Z) (i : nat) (raw : RawAccountData)
    (f : Family) (t : Z) :
  accounts data !! i = Some raw →
  NoDup (raw_email <$> accounts data) →
  truthy (chain (rateLimitResetTimes raw) (forFamily f)) = Some t →
  now1 < t →
  now1 < now2 →
  updateOf (processAccount now2 data i raw)
    ∈ calculateDiffs (processAccounts now1 data) (processAccounts now2 data).
Proof.
  intros Hi Hnd Ht Hahead Hlater.
  set (a1 := processAccount now1 data i raw).
  set (a2 := processAccount now2 data i raw).
  assert (∀ now, snapshot (processAccounts now data) !! raw_email raw
                 = Some (processAccount now data i raw)) as Hsnap.
  { intros now.
    change (raw_email raw) with (email (processAccount now data i raw)).
    apply snapshot_exact; [by rewrite processAccounts_emails|].
    apply list_elem_of_lookup. exists i. by rewrite processAccounts_lookup, Hi. }
  apply (update_emitted _ _ a2 a1); [apply Hsnap|apply Hsnap|].
  intros Heq.
  assert (timeUntilReset <$> familyInfo f a1 = timeUntilReset <$> familyInfo f a2)
    as Htimers by (by rewrite Heq).
  unfold a1, a2, processAccount, buildRateLimit in Htimers.
  destruct f; simpl in *; rewrite Ht in Htimers; simpl in Htimers;
    injection Htimers as Htimers; lia.
Qed.

Lemma unchanged_registry_updates_running_timers_witness :
  updateOf (processAccount 15000 sampleRegistry 0
              {| raw_email := "a@example.com"; refreshToken := "r1";
                 raw_projectId := None; raw_managedProjectId := None;
                 raw_addedAt := 1000; raw_lastUsed := 2000;
                 rateLimitResetTimes :=
                   Some {| forClaude := Some 60000; forGemini := None |} |})
    ∈ calculateDiffs (processAccounts 0 sampleRegistry)
        (processAccounts 15000 sampleRegistry).
Proof.
  apply (unchanged_registry_updates_running_timers sampleRegistry 0 15000 0 _
           Claude 60000).
  - reflexivity.
  - apply NoDup_singleton.
  - reflexivity.
  - lia.
  - lia.
Defined.

(** ** The token stage and the fetch stage of the poller *)

Section token_stage.
Import Quota.

Lemma refreshAccessToken_valid w r tc token :
  validToken (clock w) r tc = Some token →
  refreshAccessToken w r tc = (Some token, tc).
Proof.
  unfold validToken, refreshAccessToken.
  destruct (tc !! r) as [cached|]; [|done].
  destruct (expiresAt cached >? clock w + 60000); [|done]. by intros [= <-].
Qed.

Lemma refreshAccessToken_exchange w r tc :
  validToken (clock w) r tc = None →
  refreshAccessToken w r tc
  = match tokenEndpoint w r with
    | Failed => (None, tc)
    | Ok data =>
        (Some (access_token data),
         <[r := {| accessToken := access_token data;
                   expiresAt := clock w + lifetime data * 1000 |}]> tc)
    end.
Proof.
  unfold validToken, refreshAccessToken, lifetime.
  destruct (tc !! r) as [cached|]; [|done].
  by destruct (expiresAt cached >? clock w + 60000).
Qed.

(** X14. A cached token that expires more than 60 s after the clock is
    returned as it is: the token endpoint plays no part (any endpoint gives
    the same result) and the token cache is unchanged.  When the token
    stage has to ask the endpoint and the endpoint fails, it returns no
    token and the token cache is unchanged.  In every case the entries of
    the other credentials are left as they were. *)
Theorem token_stage_uses_cache
    (w : World) (refreshToken : string) (tc : gmap string TokenCache) :
  (∀ token, validToken (clock w) refreshToken tc = Some token →
     ∀ endpoint, refreshAccessToken (withTokenEndpoint w endpoint) refreshToken tc
                 = (Some token, tc))
  ∧ (validToken (clock w) refreshToken tc = None →
     tokenEndpoint w refreshToken = Failed →
     refreshAccessToken w refreshToken tc = (None, tc))
  ∧ (∀ other, other ≠ refreshToken →
       (refreshAccessToken w refreshToken tc).2 !! other = tc !! other).
Proof.
  split_and!.
  - intros token Hvalid endpoint. by apply refreshAccessToken_valid.
  - intros Hnone Hfail. by rewrite refreshAccessToken_exchange, Hfail.
  - intros other Hne. destruct (validToken (clock w) refreshToken tc) as [token|] eqn:Hv.
    + by rewrite (refreshAccessToken_valid _ _ _ token).
    + rewrite refreshAccessToken_exchange by done.
      destruct (tokenEndpoint w refreshToken); [|done].
      simpl. by rewrite lookup_insert_ne.
Qed.

(** X15. A token obtained from the endpoint is cached for its lifetime
    ([expires_in] seconds, 3600 when that is absent or 0): any later call
    whose clock is more than 60 s before the expiry gets the same token back
    without the endpoint, and any call whose clock is within 60 s of the
    expiry, or after it, asks the endpoint again. *)
Theorem token_round_trip
    (w : World) (refreshToken : string) (tc : gmap string TokenCache)
    (data : TokenRefreshResponse) :
  validToken (clock w) refreshToken tc = None →
  tokenEndpoint w refreshToken = Ok data →
  (refreshAccessToken w refreshToken tc).1 = Some (access_token data)
  ∧ (∀ w', clock w' + 60000 < clock w + lifetime data * 1000 →
       refreshAccessToken w' refreshToken (refreshAccessToken w refreshToken tc).2
       = (Some (access_token data), (refreshAccessToken w refreshToken tc).2))
  ∧ (∀ w', clock w + lifetime data * 1000 ≤ clock w' + 60000 →
       validToken (clock w') refreshToken (refreshAccessToken w refreshToken tc).2
       = None).
Proof.
  intros Hnone Hok. rewrite refreshAccessToken_exchange, Hok by done. simpl.
  split_and!; [done| |].
  - intros w' Hearly. apply refreshAccessToken_valid.
    unfold validToken. rewrite lookup_insert_eq. simpl.
    by rewrite (proj2 (Z.gtb_lt _ _)) by lia.
  - intros w' Hlate. unfold validToken. rewrite lookup_insert_eq. simpl.
    destruct (Z.gtb_spec (clock w + lifetime data * 1000) (clock w' + 60000)); [lia|done].
Qed.

Lemma token_round_trip_witness :
  (refreshAccessToken sampleWorld "r1" ∅).1 = Some "token"
  ∧ (∀ w', clock w' + 60000 < 1000 + 3600 * 1000 →
       refreshAccessToken w' "r1" (refreshAccessToken sampleWorld "r1" ∅).2
       = (Some "token", (refreshAccessToken sampleWorld "r1" ∅).2))
  ∧ (∀ w', 1000 + 3600 * 1000 ≤ clock w' + 60000 →
       validToken (clock w') "r1" (refreshAccessToken sampleWorld "r1" ∅).2 = None).
Proof.
  apply (token_round_trip sampleWorld "r1" ∅
           {| access_token := "token"; expires_in := None |}); reflexivity.
Defined.

(** X16. The fetch stage takes the endpoints in order and stops at the
    first that answers: it returns a response exactly when some endpoint
    answers with it while all the endpoints before it fail, and returns
    nothing exactly when every endpoint fails. *)
Theorem first_endpoint_that_answers
    (w : World) (token : string) (project : option string) (endpoints : list string) :
  (∀ data, tryEndpoints w token project endpoints = Some data ↔
     ∃ before endpoint after,
       endpoints = before ++ endpoint :: after
       ∧ Forall (λ e, modelsEndpoint w e token project = Failed) before
       ∧ modelsEndpoint w endpoint token project = Ok data)
  ∧ (tryEndpoints w token project endpoints = None ↔
     Forall (λ e, modelsEndpoint w e token project = Failed) endpoints).
Proof.
  induction endpoints as [|e rest [IHsome IHnone]]; simpl.
  - split; [|done]. intros data. split; [done|].
    intros (before & endpoint & after & Heq & _). by destruct before.
  - destruct (modelsEndpoint w e token project) as [body|] eqn:He; split.
    + intros data. split.
      * intros [= <-]. exists [], e, rest. by split_and!.
      * intros (before & endpoint & after & Heq & Hfailed & Hok).
        destruct before as [|e' before]; simplify_eq/=; [congruence|].
        apply Forall_cons in Hfailed as [Hfail _]. congruence.
    + split; [done|]. intros [Hfail _]%Forall_cons. congruence.
    + intros data. rewrite IHsome. split.
      * intros (before & endpoint & after & -> & Hfailed & Hok).
        exists (e :: before), endpoint, after. split_and!; [done| |done].
        by apply Forall_cons.
      * intros (before & endpoint & after & Heq & Hfailed & Hok).
        destruct before as [|e' before]; simplify_eq/=; [congruence|].
        apply Forall_cons in Hfailed as [_ Hfailed].
        by exists before, endpoint, after.
    + rewrite IHnone. split; [intros ?; by apply Forall_cons|by intros [_ ?]%Forall_cons].
Qed.
End token_stage.

(** ** Parsing, caching and staleness *)

Section quota_cache.
Import Quota.
Context (rt : Runtime).

Lemma parseModel_spec name md :
  parseModel rt (name, md) = parsedInfo rt name (md_displayName md) <$> quotaInfo md.
Proof. unfold parseModel. by destruct (quotaInfo md). Qed.

Lemma parse_names (entries : list (string * ModelData)) :
  modelName <$> omap (parseModel rt) entries = fst <$> withQuotaInfo entries.
Proof.
  unfold withQuotaInfo. induction entries as [|[name md] entries IH]; [done|].
  rewrite filter_cons. csimpl. destruct (quotaInfo md) as [info|]; simpl.
  - f_equal. exact IH.
  - exact IH.
Qed.

(** X17. Parsing a response keeps exactly the models that have a
    [quotaInfo], in the order of the response, under their names; a response
    without [models] gives no model.  A model kept has a display name (its
    own, or its model name when that is absent or empty), the remaining
    fraction of the response or 1 when absent, the percentage of that
    fraction, and a reset time in milliseconds exactly when it has a
    non-empty reset time. *)
Theorem parse_keeps_models_with_quota (data : FetchModelsResponse) :
  (resp_models data = None → parseQuotaResponse rt data = [])
  ∧ modelName <$> parseQuotaResponse rt data
    = fst <$> withQuotaInfo (default [] (resp_models data))
  ∧ (∀ m, m ∈ parseQuotaResponse rt data ↔
       ∃ name md info, (name, md) ∈ default [] (resp_models data)
                       ∧ quotaInfo md = Some info
                       ∧ m = parsedInfo rt name (md_displayName md) info)
  ∧ Forall (λ m, is_Some (displayName m)
                 ∧ remainingPercent m = percentOf rt (remainingFraction m)
                 ∧ resetTimeMs m = getTime rt <$> resetTime m
                 ∧ resetTime m ≠ Some "")
      (parseQuotaResponse rt data).
Proof.
  unfold parseQuotaResponse.
  destruct (resp_models data) as [entries|]; simpl;
    [|split_and!; [done|done| |done]].
  2:{ intros m. split; [by intros ?%elem_of_nil|].
      by intros (? & ? & ? & ?%elem_of_nil & _). }
  assert (∀ m, m ∈ omap (parseModel rt) entries ↔
            ∃ name md info, (name, md) ∈ entries ∧ quotaInfo md = Some info
                            ∧ m = parsedInfo rt name (md_displayName md) info) as Helem.
  { intros m. rewrite list_elem_of_omap. split.
    - intros ([name md] & Hin & Hparse). rewrite parseModel_spec in Hparse.
      destruct (quotaInfo md) as [info|] eqn:Hinfo; [|done].
      injection Hparse as <-. by exists name, md, info.
    - intros (name & md & info & Hin & Hinfo & ->). exists (name, md).
      split; [done|]. by rewrite parseModel_spec, Hinfo. }
  split_and!; [done| |done|].
  - apply parse_names.
  - apply Forall_forall. intros m (name & md & info & _ & _ & ->)%Helem.
    unfold parsedInfo. simpl. split_and!; [by eexists|done|done|].
    unfold truthyString. destruct (qi_resetTime info) as [t|]; [|done].
    case_decide; [done|]. by intros [= ->].
Qed.

(** X18. A poll that succeeds files its result in the quota cache under the
    email, replacing what was there, and touches no other record; the two
    families of the result are taken from its models, in order.  A poll that
    fails returns a result without any model or aggregate, and the cache
    keeps what it held. *)
Theorem poll_result_and_cache
    (w : World) (email refreshToken : string) (projectId : option string)
    (s : QuotaService) :
  let q := (fetchQuotaForAccount rt w email refreshToken projectId s).1 in
  let s' := (fetchQuotaForAccount rt w email refreshToken projectId s).2 in
  match fetchError q with
  | None =>
      getCachedQuota s' email = Some q
      ∧ (∀ other, other ≠ email → getCachedQuota s' other = getCachedQuota s other)
      ∧ claudeModels q `sublist_of` models q
      ∧ geminiModels q `sublist_of` models q
  | Some message =>
      q = emptyResult w email projectId (Some message)
      ∧ cache s' = cache s
  end
  ∧ lastFullFetch (cache s') = lastFullFetch (cache s).
Proof.
  intros q s'. unfold q, s', getCachedQuota, fetchQuotaForAccount.
  destruct (refreshAccessToken w refreshToken (tokenCache s)) as [accessToken tc].
  destruct (truthyString accessToken) as [token|]; [|done].
  destruct (fetchAvailableModels w token projectId) as [data|]; [|done].
  simpl. split; [|done]. split_and!.
  - by rewrite lookup_insert_eq.
  - intros other Hne. by rewrite lookup_insert_ne.
  - apply sublist_filter.
  - apply sublist_filter.
Qed.

Lemma pollFrom_step_cache worlds i account rest s :
  let step := fetchQuotaForAccount rt (worlds i) (acc_email account)
                (acc_refreshToken account) (acc_projectId account) s in
  (pollFrom rt worlds i (account :: rest) s).2 = (pollFrom rt worlds (S i) rest step.2).2.
Proof. by rewrite pollFrom_cons. Qed.

Lemma pollFrom_cache_invariant worlds i accs s :
  (cleanCache s → cleanCache (pollFrom rt worlds i accs s).2)
  ∧ (∀ e, is_Some (accounts (cache s) !! e) →
          is_Some (accounts (cache (pollFrom rt worlds i accs s).2) !! e))
  ∧ (∀ e, is_Some (accounts (cache (pollFrom rt worlds i accs s).2) !! e) →
          is_Some (accounts (cache s) !! e) ∨ e ∈ acc_email <$> accs).
Proof.
  revert i s. induction accs as [|account rest IH]; intros i s.
  - simpl. split_and!; [done|done|by left].
  - rewrite pollFrom_step_cache. cbn zeta.
    set (step := fetchQuotaForAccount rt (worlds i) (acc_email account)
                   (acc_refreshToken account) (acc_projectId account) s).
    destruct (IH (S i) step.2) as (IHclean & IHkeep & IHbound).
    pose proof (fetchQuotaForAccount_cache rt (worlds i) (acc_email account)
                  (acc_refreshToken account) (acc_projectId account) s) as Hcache.
    pose proof (fetchQuotaForAccount_email rt (worlds i) (acc_email account)
                  (acc_refreshToken account) (acc_projectId account) s) as Hemail.
    fold step in Hcache, Hemail.
    destruct (fetchError step.1) as [message|] eqn:Herr.
    + split_and!.
      * intros Hclean. apply IHclean. unfold cleanCache. by rewrite Hcache.
      * intros e He. apply IHkeep. by rewrite Hcache.
      * intros e He. destruct (IHbound e He) as [Hin|Hin].
        -- left. by rewrite Hcache in Hin.
        -- right. csimpl. by apply list_elem_of_further.
    + split_and!.
      * intros Hclean. apply IHclean. unfold cleanCache. rewrite Hcache. simpl.
        intros e q. rewrite lookup_insert. case_decide as Heq.
        -- intros [= <-]. by subst e.
        -- apply Hclean.
      * intros e He. apply IHkeep. rewrite Hcache. simpl.
        rewrite lookup_insert. by case_decide.
      * intros e He. destruct (IHbound e He) as [Hin|Hin].
        -- rewrite Hcache in Hin. simpl in Hin. rewrite lookup_insert in Hin.
           case_decide as Heq; [|by left].
           right. subst e. csimpl. apply list_elem_of_here.
        -- right. csimpl. by apply list_elem_of_further.
Qed.

(** X19. A cycle never removes a record from the quota cache, and files
    records under the emails of the accounts it polls only; if every record
    in the cache was a successful result filed under its own email, that is
    still so after the cycle: no result with a [fetchError] ever enters the
    cache. *)
Theorem cycle_keeps_cache_clean
    (worlds : nat → World) (finished : Z) (accs : list PollAccount) (s : QuotaService) :
  let s' := (fetchAllQuotas rt worlds finished accs s).2 in
  (cleanCache s → cleanCache s')
  ∧ (∀ e, is_Some (getCachedQuota s e) → is_Some (getCachedQuota s' e))
  ∧ (∀ e, is_Some (getCachedQuota s' e) →
          is_Some (getCachedQuota s e) ∨ e ∈ acc_email <$> accs).
Proof.
  intros s'. unfold s', getCachedQuota, cleanCache.
  rewrite fetchAllQuotas_accounts.
  exact (pollFrom_cache_invariant worlds 0 accs s).
Qed.

(** X20. A cycle stamps the cache with the clock read at its end, whatever
    its polls gave, be it only failures or no account at all; from then on
    the cache is stale exactly when more than the polling interval has
    passed since that clock.  A cache that was never stamped (stamp 0) is
    stale at any time, and the interval of a poller made without one, or
    with 0, is 120000. *)
Theorem cycle_stamps_the_cache
    (worlds : nat → World) (finished : Z) (accs : list PollAccount)
    (s : QuotaService) (pollingMs now : Z) :
  let s' := (fetchAllQuotas rt worlds finished accs s).2 in
  lastFullFetch (cache s') = finished
  ∧ (finished ≠ 0 →
     getCacheAge now s' = Some (now - finished)
     ∧ isCacheStale pollingMs now s' = bool_decide (pollingMs < now - finished))
  ∧ (lastFullFetch (cache s) = 0 →
     getCacheAge now s = None ∧ isCacheStale pollingMs now s = true)
  ∧ newPollingMs None = 120000 ∧ newPollingMs (Some 0) = 120000
  ∧ (fetchAllQuotas rt worlds finished [] s).1 = []
  ∧ accounts (cache (fetchAllQuotas rt worlds finished [] s).2) = accounts (cache s).
Proof.
  intros s'.
  assert (lastFullFetch (cache s') = finished) as Hstamp.
  { unfold s', fetchAllQuotas. by destruct (pollFrom rt worlds 0 accs s). }
  split_and!; try done.
  - intros Hne. unfold isCacheStale, getCacheAge. rewrite Hstamp.
    rewrite (proj2 (Z.eqb_neq _ _) Hne). split; [done|].
    case_bool_decide; [by apply Z.gtb_lt|].
    destruct (Z.gtb_spec (now - finished) pollingMs); [lia|done].
  - intros Hzero. unfold isCacheStale, getCacheAge. by rewrite Hzero.
Qed.
End quota_cache.

(** ** The server's reading of the registry *)

(** X21. The accounts handed to the poller are those of the registry, one
    per record and in order, each with its email and credential, and with
    the project identifier of the record or, when that is absent or empty,
    its managed project identifier; they are the accounts that the service
    shows after loading the same file, so that a cycle gives one result per
    account shown, in the same order.  When the file is missing or does not
    parse the poller is handed no account. *)
Theorem poller_accounts_follow_registry
    (parse : string → option RawAccountsFile) (rt : Quota.Runtime)
    (worlds : nat → Quota.World) (finished now : Z) (qs : Quota.QuotaService)
    (s : Service) :
  getRawAccountsForQuota parse None = []
  ∧ (∀ content, parse content = None →
       getRawAccountsForQuota parse (Some content) = [])
  ∧ (∀ content data, parse content = Some data →
       (λ acc, (Quota.acc_email acc, Quota.acc_refreshToken acc, Quota.acc_projectId acc))
         <$> getRawAccountsForQuota parse (Some content)
       = (λ raw, (raw_email raw, refreshToken raw,
                  from_option Some (raw_managedProjectId raw)
                    (Quota.truthyString (raw_projectId raw))))
         <$> accounts data
       ∧ Quota.email
           <$> (Quota.fetchAllQuotas rt worlds finished
                  (getRawAccountsForQuota parse (Some content)) qs).1
         = email <$> processedAccounts
                       (stateAfter (loadAccountsFile parse now (Some content)) s)).
Proof.
  split_and!; [done| |].
  - intros content Hparse. unfold getRawAccountsForQuota. by rewrite Hparse.
  - intros content data Hparse. split.
    + unfold getRawAccountsForQuota. rewrite Hparse, <- list_fmap_compose.
      apply list_fmap_ext. intros i raw _. simpl.
      by destruct (Quota.truthyString (raw_projectId raw)).
    + rewrite fetchAllQuotas_results, pollFrom_emails.
      unfold stateAfter. rewrite (load_success _ _ _ data) by done. simpl.
      rewrite processAccounts_emails.
      unfold getRawAccountsForQuota. rewrite Hparse, <- list_fmap_compose. done.
Qed.

(** ** The cells of the CSV export *)

Lemma doubleQuotes_without_quote str :
  hasChar dquote str = false → doubleQuotes str = str.
Proof.
  induction str as [|c rest IH]; [done|]. simpl.
  intros [Hc Hrest]%orb_false_iff. rewrite Hc. by rewrite IH.
Qed.

Lemma escaped_inj s1 s2 :
  doubleQuotes s1 +:+ String dquote EmptyString
  = doubleQuotes s2 +:+ String dquote EmptyString → s1 = s2.
Proof.
  revert s2. induction s1 as [|c1 r1 IH]; intros [|c2 r2]; simpl; [done| | |].
  - destruct (Ascii.eqb_spec c2 dquote) as [->|Hne]; [done|]. by intros [= <-].
  - destruct (Ascii.eqb_spec c1 dquote) as [->|Hne]; [done|]. by intros [= ->].
  - destruct (Ascii.eqb_spec c1 dquote) as [->|Hne1],
             (Ascii.eqb_spec c2 dquote) as [->|Hne2].
    + intros [= Heq]. by rewrite (IH r2).
    + by intros [= <-].
    + by intros [= ->].
    + intros [= -> Heq]. by rewrite (IH r2).
Qed.

(** X22. A cell of the CSV export is always the value between two double
    quotes with every double quote of the value written twice, whichever
    branch is taken; [null] and [undefined] give the cell of the empty
    string; and two different strings never give the same cell. *)
Theorem csv_cell_is_quoted (value : option string) :
  escapeCSVCell value
  = String dquote (doubleQuotes (default "" value) +:+ String dquote EmptyString)
  ∧ escapeCSVCell None = escapeCSVCell (Some "")
  ∧ (∀ s1 s2, escapeCSVCell (Some s1) = escapeCSVCell (Some s2) → s1 = s2).
Proof.
  assert (∀ v, escapeCSVCell v
               = String dquote (doubleQuotes (default "" v) +:+ String dquote EmptyString))
    as Hform.
  { intros v. unfold escapeCSVCell.
    destruct (hasChar dquote (default "" v)) eqn:Hq; [done|]. simpl.
    rewrite (doubleQuotes_without_quote _ Hq). by destruct (_ || _). }
  split_and!; [apply Hform|done|].
  intros s1 s2. rewrite !Hform. simpl. intros [= Heq]. by apply escaped_inj.
Qed.

(** ** The notifications of the web store *)

Section store.
Import Store.

(** X23. Adding a notification when notifications are enabled puts it
    first, unread, with the given identifier and clock, before the 49 most
    recent of the notifications held, so that the list never exceeds 50;
    when notifications are disabled the store is unchanged.  The
    preferences are never touched. *)
Theorem notification_is_added_first
    (uuid : string) (now : Z) (n : NewNotification) (state : State) :
  preferences (addNotification uuid now n state) = preferences state
  ∧ (notificationsEnabled (preferences state) = false →
     addNotification uuid now n state = state)
  ∧ (notificationsEnabled (preferences state) = true →
     notifications (addNotification uuid now n state)
     = {| id := uuid; type := new_type n; title := new_title n;
          message := new_message n; timestamp := now; read := false |}
       :: take 49 (notifications state)
     ∧ (length (notifications (addNotification uuid now n state)) ≤ 50)%nat).
Proof.
  unfold addNotification.
  destruct (notificationsEnabled (preferences state)); simpl; split_and!; try done.
  intros _. split; [done|]. simpl. rewrite length_take. lia.
Qed.

Lemma markNotificationRead_unread which state n :
  n ∈ notifications (markNotificationRead which state) → read n = false →
  id n ≠ which.
Proof.
  unfold markNotificationRead. simpl.
  intros (n0 & -> & _)%list_elem_of_fmap. case_decide; [done|]. by intros _.
Qed.

(** X24. What is persisted of the notifications: at most 10 of them, all
    unread, in the order of the store, with the preferences as they are.  A
    notification marked as read is not persisted any more; marking keeps
    the number and the order of the notifications and, done twice, is done
    once; clearing leaves nothing to persist. *)
Theorem persisted_notifications (which : string) (state : State) :
  (partialize state).1 = preferences state
  ∧ (length (partialize state).2 ≤ 10)%nat
  ∧ Forall (λ n, read n = false) (partialize state).2
  ∧ (partialize state).2 `sublist_of` notifications state
  ∧ Forall (λ n, id n ≠ which) (partialize (markNotificationRead which state)).2
  ∧ id <$> notifications (markNotificationRead which state)
    = id <$> notifications state
  ∧ markNotificationRead which (markNotificationRead which state)
    = markNotificationRead which state
  ∧ (partialize (clearNotifications state)).2 = [].
Proof.
  unfold partialize. simpl. split_and!; try done.
  - rewrite length_take. lia.
  - apply Forall_forall. intros n Hn%subseteq_take.
    by apply list_elem_of_filter in Hn as [? _].
  - etrans; [apply sublist_take|apply sublist_filter].
  - apply Forall_forall. intros n Hn%subseteq_take.
    apply list_elem_of_filter in Hn as [Hunread Hin].
    by apply (markNotificationRead_unread which state).
  - rewrite <- list_fmap_compose. apply list_fmap_ext. intros i n _. simpl.
    by case_decide.
  - unfold markNotificationRead. simpl. f_equal.
    rewrite <- list_fmap_compose. apply list_fmap_ext. intros i n _. simpl.
    destruct (decide (id n = which)) as [Hid|Hid]; simpl.
    + by rewrite decide_True.
    + by rewrite decide_False.
Qed.
End store.

(** ** The request interceptor *)

Section interceptor.
Import Interceptor.

Lemma digitsPrefix_nonneg acc str : 0 ≤ acc → 0 ≤ (digitsPrefix acc str).1.
Proof.
  revert acc. induction str as [|c rest IH]; intros acc Hacc; [done|]. simpl.
  destruct (isDigit c) eqn:Hc; [|done].
  apply IH. unfold isDigit in Hc. apply andb_true_iff in Hc as [Hlo _].
  apply Nat.leb_le in Hlo. lia.
Qed.

Lemma retrySeconds_nonneg str n : retrySeconds str = Some n → 0 ≤ n.
Proof.
  induction str as [|c rest IH]; [done|]. simpl.
  destruct (isDigit c) eqn:Hc; [|done].
  pose proof (digitsPrefix_nonneg (0 * 10 + (Z.of_nat (Ascii.nat_of_ascii c) - 48)) rest)
    as Hnonneg.
  destruct (digitsPrefix _ rest) as [m [|next after]]; [done|].
  destruct (Ascii.eqb next _); [|done]. intros [= <-]. apply Hnonneg.
  unfold isDigit in Hc. apply andb_true_iff in Hc as [Hlo _].
  apply Nat.leb_le in Hlo. lia.
Qed.

(** X25. The life of a request: its completion is logged once, with the
    clock read when it started as timestamp (not the start time that the
    caller gave) and the time elapsed since as duration, first among the
    effects, and broadcast last; the request is then forgotten, so that a
    second completion, like the completion of a request never started, has
    no effect at all.  The other requests stay active. *)
Theorem request_is_logged_once
    (start finish later : Z) (requestId : string) (metadata : RequestMetadata)
    (response response' : Response) (active : gmap string RequestMetadata) :
  let completed :=
    onRequestComplete finish requestId response
      (onRequestStart start requestId metadata active) in
  (∃ call middle,
     completed.2 = [logApiCall call] ++ middle
                   ++ [broadcastCall start (account_email metadata) (model metadata)
                         (statusOf response) (finish - start)]
     ∧ call_timestamp call = start
     ∧ duration_ms call = finish - start
     ∧ call_account_email call = account_email metadata
     ∧ call_status call = statusOf response
     ∧ Forall (λ effect, ∃ e l r m, effect = updateAccountStatus e l r m) middle)
  ∧ completed.1 = delete requestId active
  ∧ onRequestComplete later requestId response' completed.1 = (completed.1, [])
  ∧ (active !! requestId = None →
     onRequestComplete finish requestId response active = (active, []))
  ∧ (∀ other, other ≠ requestId →
       (onRequestComplete finish requestId response active).1 !! other
       = active !! other).
Proof.
  intros completed.
  assert (completed.1 = delete requestId active) as Hleft.
  { unfold completed, onRequestComplete, onRequestStart.
    rewrite lookup_insert_eq. simpl. by rewrite delete_insert_eq. }
  split_and!.
  - unfold completed, onRequestComplete, onRequestStart.
    rewrite lookup_insert_eq. simpl. eexists _, _. split; [reflexivity|].
    split_and!; try done.
    destruct (statusOf response); repeat constructor; by eexists _, _, _, _.
  - done.
  - rewrite Hleft. unfold onRequestComplete. by rewrite lookup_delete_eq.
  - intros Hnone. unfold onRequestComplete. by rewrite Hnone.
  - intros other Hne. unfold onRequestComplete.
    destruct (active !! requestId); [|done]. simpl. by rewrite lookup_delete_ne.
Qed.

Lemma nearestDouble_exact x : 0 ≤ x ≤ 2 ^ 53 → nearestDouble x = x.
Proof.
  intros [Hlo Hhi]. unfold nearestDouble.
  destruct (Z.ltb_spec x (2 ^ 53)) as [|Hge]; [done|].
  assert (x = 2 ^ 53) as -> by lia. by vm_compute.
Qed.

Lemma nearestDouble_positive x : 0 < x → 0 < nearestDouble x.
Proof.
  intros Hpos. unfold nearestDouble.
  destruct (Z.ltb_spec x (2 ^ 53)) as [|Hge]; [done|].
  assert (53 ≤ Z.log2 x) as Hlog by (by apply Z.log2_le_pow2).
  set (e := Z.log2 x - 52).
  assert (0 < 2 ^ e) as Hpow by (apply Z.pow_pos_nonneg; lia).
  assert (2 ^ e ≤ x) as Hle.
  { etrans; [|apply (Z.log2_spec x Hpos)]. apply Z.pow_le_mono_r; lia. }
  assert (0 < Z.shiftr x e) as Hq.
  { rewrite Z.shiftr_div_pow2 by lia. by apply Z.div_str_pos. }
  rewrite Z.shiftl_mul_pow2 by lia. apply Z.mul_pos_pos; [|done].
  destruct (_ || _); lia.
Qed.

Lemma toNumber_exact x : Z.abs x ≤ 2 ^ 53 → toNumber x = Finite x.
Proof.
  intros Hx. unfold toNumber. rewrite nearestDouble_exact by lia.
  destruct (Z.ltb_spec (Z.abs x) (2 ^ 1024)) as [_|Hge].
  - f_equal. lia.
  - assert (2 ^ 53 < 2 ^ 1024) by (by vm_compute). lia.
Qed.

Lemma toNumber_positive x : 0 < x → toNumber x ≠ Finite 0.
Proof.
  intros Hpos. unfold toNumber.
  pose proof (nearestDouble_positive (Z.abs x)) as Hm.
  destruct (_ <? 2 ^ 1024); [|by destruct (x <? 0)].
  intros [= Hzero]. lia.
Qed.

(** The delay asked for is truthy exactly when the digits do not write 0. *)
Lemma retryAfter_truthy n :
  0 ≤ n →
  truthyNumber (Some (times1000 (toNumber n)))
  = if decide (n = 0) then None else Some (times1000 (toNumber n)).
Proof.
  intros Hn. case_decide as Hzero; [by subst n|].
  assert (times1000 (toNumber n) ≠ Finite 0) as Hne.
  { pose proof (toNumber_positive n) as Hpos.
    unfold toNumber in *.
    pose proof (nearestDouble_positive (Z.abs n)) as Hm.
    destruct (_ <? 2 ^ 1024); [|by destruct (n <? 0)].
    simpl. apply toNumber_positive. nia. }
  by destruct (times1000 (toNumber n)) as [[|p|p]| |].
Qed.

Lemma retryAfter_exact now n :
  0 ≤ now → 0 ≤ n → now + n * 1000 ≤ 2 ^ 53 →
  plusNumber now (times1000 (toNumber n)) = Finite (now + n * 1000).
Proof.
  intros Hnow Hn Hsafe.
  rewrite (toNumber_exact n) by lia. simpl.
  rewrite (toNumber_exact (n * 1000)) by lia. simpl.
  apply toNumber_exact. lia.
Qed.

(** X26. How a completion marks the account.  [updateAccountStatus] is
    called once for a response that succeeded or was rate-limited, and not
    at all for one that failed otherwise; it is called for the account of
    the request, as rate-limited with the error message exactly when the
    response failed with the status 429 (a success wins over the status),
    and as not rate-limited, without reset time or error, exactly when the
    response succeeded.  A rate-limited call carries a reset time exactly
    when the message holds a number of seconds other than 0: the clock plus
    that many seconds in milliseconds, computed in doubles, which is exact
    while the result is at most 2^53. *)
Theorem completion_marks_the_account
    (now : Z) (requestId : string) (response : Response)
    (active : gmap string RequestMetadata) (metadata : RequestMetadata) :
  active !! requestId = Some metadata →
  let effects := (onRequestComplete now requestId response active).2 in
  let seconds := error response ≫= retrySeconds in
  (statusOf response = call_success ↔ success response = true)
  ∧ (statusOf response = call_rate_limited ↔
     success response = false ∧ httpStatus response = Some 429)
  ∧ (∀ e limited reset message,
       updateAccountStatus e limited reset message ∈ effects ↔
       e = account_email metadata
       ∧ (limited = true ∧ statusOf response = call_rate_limited
            ∧ message = error response
            ∧ reset = seconds ≫= (λ n, if decide (n = 0) then None
                                       else Some (plusNumber now (times1000 (toNumber n))))
          ∨ limited = false ∧ statusOf response = call_success
            ∧ reset = None ∧ message = None))
  ∧ length (filter (λ effect, Is_true (isStatusUpdate effect)) effects)
    = match statusOf response with call_error => 0 | _ => 1 end%nat
  ∧ (∀ n, seconds = Some n →
       0 ≤ n
       ∧ (0 ≤ now → now + n * 1000 ≤ 2 ^ 53 →
          plusNumber now (times1000 (toNumber n)) = Finite (now + n * 1000))).
Proof.
  intros Hactive effects seconds.
  assert (statusOf response = call_success ↔ success response = true) as Hsuccess.
  { unfold statusOf. destruct (success response); [done|]. by case_bool_decide. }
  assert (statusOf response = call_rate_limited ↔
          success response = false ∧ httpStatus response = Some 429) as Hlimited.
  { unfold statusOf. destruct (success response).
    - split; [done|by intros [? _]].
    - case_bool_decide as H429; (split; [done|]); [done|by intros [_ ?]]. }
  assert (∀ n, seconds = Some n → 0 ≤ n) as Hnonneg.
  { intros n. unfold seconds. destruct (error response) as [text|]; [|done].
    apply retrySeconds_nonneg. }
  assert (truthyNumber ((λ n, times1000 (toNumber n)) <$> seconds)
          = seconds ≫= (λ n, if decide (n = 0) then None
                             else Some (times1000 (toNumber n)))) as Hdelay.
  { destruct seconds as [n|] eqn:Hn; [|done]. simpl.
    by apply retryAfter_truthy, Hnonneg. }
  assert (effects
          = logApiCall
              {| call_timestamp := startTime metadata;
                 call_account_email := account_email metadata;
                 call_model := model metadata;
                 call_endpoint := endpoint metadata;
                 request_tokens := tokens response ≫= prompt;
                 response_tokens := tokens response ≫= completion;
                 total_tokens := tokens response ≫= total;
                 duration_ms := now - startTime metadata;
                 call_status := statusOf response;
                 error_message := error response;
                 http_status := httpStatus response |}
            :: match statusOf response with
               | call_error => []
               | call_success =>
                   [updateAccountStatus (account_email metadata) false None None]
               | call_rate_limited =>
                   [updateAccountStatus (account_email metadata) true
                      (seconds ≫= (λ n, if decide (n = 0) then None
                                          else Some (plusNumber now
                                                       (times1000 (toNumber n)))))
                      (error response)]
               end
            ++ [broadcastCall (startTime metadata) (account_email metadata)
                  (model metadata) (statusOf response) (now - startTime metadata)])
    as Heffects.
  { unfold effects, onRequestComplete. rewrite Hactive. cbn [snd app]. f_equal.
    destruct (statusOf response); [done|done|]. fold seconds. rewrite Hdelay.
    by destruct seconds as [n|]; [simpl; case_decide|]. }
  split_and!; [done|done| | |].
  - intros e limited reset message. rewrite Heffects.
    rewrite elem_of_cons, elem_of_app, list_elem_of_singleton.
    destruct (statusOf response) eqn:Hstatus; split.
    + intros [?|[Hin|?]]; [done| |done].
      apply list_elem_of_singleton in Hin. injection Hin as -> -> -> ->.
      split; [done|]. by right.
    + intros [-> [(_ & ? & _)|(-> & _ & -> & ->)]]; [done|].
      right; left. apply list_elem_of_here.
    + intros [?|[Hin|?]]; [done| |done]. by apply elem_of_nil in Hin.
    + by intros [_ [(_ & ? & _)|(_ & ? & _)]].
    + intros [?|[Hin|?]]; [done| |done].
      apply list_elem_of_singleton in Hin. injection Hin as -> -> -> ->.
      split; [done|]. by left.
    + intros [-> [(-> & _ & -> & ->)|(_ & ? & _)]]; [|done].
      right; left. apply list_elem_of_here.
  - rewrite Heffects. by destruct (statusOf response).
  - intros n Hn. split; [by apply Hnonneg|].
    intros Hnow Hsafe. apply retryAfter_exact; [done|by apply Hnonneg|done].
Qed.

Lemma completion_marks_the_account_witness :
  let response :=
    {| success := false; tokens := None;
       error := Some "quota exhausted, retry in 30s"; httpStatus := Some 429 |} in
  let active :=
    onRequestStart 1000 "req-1"
      {| account_email := "a@example.com"; model := "claude-sonnet";
         endpoint := "/v1/messages"; startTime := 0 |} ∅ in
  statusOf response = call_rate_limited
  ∧ updateAccountStatus "a@example.com" true (Some (Finite 32000))
      (Some "quota exhausted, retry in 30s")
      ∈ (onRequestComplete 2000 "req-1" response active).2.
Proof.
  intros response active.
  destruct (completion_marks_the_account 2000 "req-1" response active
              {| account_email := "a@example.com"; model := "claude-sonnet";
                 endpoint := "/v1/messages"; startTime := 1000 |})
    as (_ & Hlimited & Hcalled & _).
  - reflexivity.
  - split; [by apply Hlimited|]. apply Hcalled.
    split; [reflexivity|]. left. split_and!; reflexivity.
Defined.

(** Past 2^53 the reset time is the double that the three roundings give,
    not the exact sum: for 9007199254740993 seconds at the clock 2000 it is
    9007199254740994048, and for a number of seconds past the greatest
    double it is [Infinity]. *)
Example large_retry_delay_is_rounded :
  let completion text :=
    (onRequestComplete 2000 "req-1"
       {| success := false; tokens := None; error := Some text;
          httpStatus := Some 429 |}
       (onRequestStart 1000 "req-1"
          {| account_email := "a@example.com"; model := "claude-sonnet";
             endpoint := "/v1/messages"; startTime := 0 |} ∅)).2 in
  updateAccountStatus "a@example.com" true (Some (Finite 9007199254740994048))
    (Some "retry in 9007199254740993s")
    ∈ completion "retry in 9007199254740993s"
  ∧ toNumber (10 ^ 309) = PlusInfinity
  ∧ plusNumber 2000 (times1000 PlusInfinity) = PlusInfinity.
Proof. vm_compute. split_and!; [|done|done]. right. left. Qed.
End interceptor.
